(** * PhotALPsConv: photon-ALP conversion in AGN jets (conversion_Jet.py)

    A shallow embedding of the class [PhotALPs_Jet] and a verification of
    the properties of its domain grid, its per-domain mixing parameters, its
    projector matrices and its chain of propagators.

    Numbers.  Python floats and numpy float64 / complex128 values are read as
    real and complex numbers: [+ - * /], [np.log], [np.sqrt], [np.arctan],
    [np.cos], [np.sin], [np.exp] and [**] are the functions of analysis, and
    rounding is left out.  The reading is exact in this sense wherever the
    source divides by a non-zero number, takes the logarithm of a positive
    number and raises a positive base to a power.  The objects considered
    ([reachable]) are built from configurations on which the logarithms of
    line 119 are defined ([logs_defined]), and the theorems whose statement
    depends on the value of a quotient state that its divisor is not zero.
    The one line whose behaviour at a zero divisor is itself the subject of a
    property, the mixing angle of [__setDeltas], is given a second reading
    with the special values of numpy (module [NpFloat]); the two readings
    agree wherever the divisor is not zero.

    The domain count [Nd] is an integer ([math.ceil] of a real); numpy takes
    it as a number of samples and as an array dimension.

    Arrays.  A numpy vector over the domains is a [list]; an array of shape
    (3,3,Nd) is a 3x3 table of such vectors, exactly as the source indexes it
    ([T1[0,0,:]] is the vector in row 0, column 0).  Elementwise operations
    pair the entries of two vectors; in every reachable object the vectors
    they meet have [Nd] entries ([consistent]).

    Object state.  The attributes of [self] are the fields of the record
    [PhotALPs_Jet]; the methods are computations of a state-and-exception
    monad over it.

    Collaborators.  The functions of the module [deltas] ([Delta_pl_kpc],
    [Delta_QED_kpc], [Delta_ag_kpc], [Delta_a_kpc]) are not part of the file;
    they are the fields of the class [DeltasModule], and every theorem holds
    for all of them. *)

From Stdlib Require Import Reals Lra Lia ZArith List String RNsatz.
Import ListNotations.
Open Scope R_scope.

(* ------------------------------------------------------------------ *)
(** ** Complex numbers (numpy complex128, read over the reals) *)

Module Cplx.

Record C : Type := mkC { Re : R; Im : R }.

Definition C0 : C := mkC 0 0.
Definition C1 : C := mkC 1 0.

(** A real stored into a complex array. *)
Definition of_R (x : R) : C := mkC x 0.

(** [1.j * x] for a real [x]. *)
Definition j_times (x : R) : C := mkC 0 x.

Definition Cadd (a b : C) : C := mkC (Re a + Re b) (Im a + Im b).

Definition Cmul (a b : C) : C :=
  mkC (Re a * Re b - Im a * Im b) (Re a * Im b + Im a * Re b).

(** [np.exp] at a complex argument. *)
Definition Cexp (z : C) : C :=
  mkC (exp (Re z) * cos (Im z)) (exp (Re z) * sin (Im z)).

End Cplx.
Export Cplx.

(* ------------------------------------------------------------------ *)
(** ** Vectors over the domains and 3x3 tables *)

Module Vec.

Definition vmap {A B} (f : A -> B) (v : list A) : list B := map f v.

(** Elementwise operation on two vectors of one length. *)
Definition vmap2 {A B D} (f : A -> B -> D) (u : list A) (v : list B) : list D :=
  map (fun ab => f (fst ab) (snd ab)) (combine u v).

Definition vadd := vmap2 Rplus.
Definition vsub := vmap2 Rminus.
Definition vmul := vmap2 Rmult.
Definition vdiv := vmap2 Rdiv.
(** scalar * vector *)
Definition vscale (k : R) (v : list R) : list R := map (Rmult k) v.
Definition vsum (v : list R) : R := fold_right Rplus 0 v.

Definition vaddC := vmap2 Cadd.
Definition vmulC := vmap2 Cmul.
Definition vcast (v : list R) : list C := map of_R v.

End Vec.
Export Vec.

Module Mat.

Inductive I3 : Type := i0 | i1 | i2.

Definition Row (A : Type) : Type := (A * A * A)%type.
Definition Mat3 (A : Type) : Type := Row (Row A).

Definition sel {A} (i : I3) (t : Row A) : A :=
  let '(a, b, c) := t in
  match i with i0 => a | i1 => b | i2 => c end.

Definition upd {A} (i : I3) (v : A) (t : Row A) : Row A :=
  let '(a, b, c) := t in
  match i with i0 => (v, b, c) | i1 => (a, v, c) | i2 => (a, b, v) end.

(** [M[i,j]] and [M[i,j] = v]. *)
Definition get {A} (M : Mat3 A) (i j : I3) : A := sel j (sel i M).
Definition set {A} (M : Mat3 A) (i j : I3) (v : A) : Mat3 A :=
  upd i (upd j v (sel i M)) M.

Definition rmap {A B} (f : A -> B) (t : Row A) : Row B :=
  let '(a, b, c) := t in (f a, f b, f c).
Definition rmap2 {A B D} (f : A -> B -> D) (t : Row A) (u : Row B) : Row D :=
  let '(a, b, c) := t in let '(a', b', c') := u in (f a a', f b b', f c c').
Definition mmap {A B} (f : A -> B) (M : Mat3 A) : Mat3 B := rmap (rmap f) M.
Definition mmap2 {A B D} (f : A -> B -> D) (M : Mat3 A) (N : Mat3 B) : Mat3 D :=
  rmap2 (rmap2 f) M N.

Definition const3 {A} (a : A) : Mat3 A := ((a, a, a), (a, a, a), (a, a, a)).

(** Complex 3x3 matrices. *)
Definition madd : Mat3 C -> Mat3 C -> Mat3 C := mmap2 Cadd.

Definition eye3 : Mat3 C := ((C1, C0, C0), (C0, C1, C0), (C0, C0, C1)).

Definition dot_entry (P Q : Mat3 C) (i j : I3) : C :=
  Cadd (Cadd (Cmul (get P i i0) (get Q i0 j)) (Cmul (get P i i1) (get Q i1 j)))
       (Cmul (get P i i2) (get Q i2 j)).

(** [np.dot(P, Q)] for two 3x3 matrices. *)
Definition np_dot (P Q : Mat3 C) : Mat3 C :=
  ((dot_entry P Q i0 i0, dot_entry P Q i0 i1, dot_entry P Q i0 i2),
   (dot_entry P Q i1 i0, dot_entry P Q i1 i1, dot_entry P Q i1 i2),
   (dot_entry P Q i2 i0, dot_entry P Q i2 i1, dot_entry P Q i2 i2)).

(** An array of shape (3,3,Nd): a table of vectors over the domains. *)
Definition Arr33 : Type := Mat3 (list C).

(** [A[:,:,k]] *)
Definition slice (A : Arr33) (k : nat) : Mat3 C := mmap (fun v => nth k v C0) A.

(** [A.shape[2]] *)
Definition shape2 (A : Arr33) : nat := List.length (get A i0 i0).

(** vector * array and array + array, broadcast along the last axis. *)
Definition bmul (e : list C) (A : Arr33) : Arr33 := mmap (vmulC e) A.
Definition aadd (A A' : Arr33) : Arr33 := mmap2 vaddC A A'.

End Mat.
Export Mat.

(* ------------------------------------------------------------------ *)
(** ** numpy helpers *)

(** [np.linspace(start, stop, num)]: [num] evenly spaced samples from
    [start] to [stop], both included; a single sample is [start]; no sample
    for [num <= 0]. *)
Definition linspace (start stop : R) (num : Z) : list R :=
  if (num <=? 0)%Z then []
  else if (num =? 1)%Z then [start]
  else
    let step := (stop - start) / IZR (num - 1) in
    map (fun i => INR i * step + start) (seq 0 (Z.to_nat num)).

(** [x ** y] for floats with a positive base. *)
Definition np_power (x y : R) : R := Rpower x y.

(** [math.ceil] *)
Definition ceil (x : R) : Z := Zceil x.

(* ------------------------------------------------------------------ *)
(** ** The object: configuration and derived attributes *)

(** The eleven keyword arguments. *)
Inductive key : Type :=
  | K_R_BLR | K_E | K_g | K_m | K_n | K_Rmax | K_B | K_s | K_p | K_sens | K_Psi.

Definition key_eqb (a b : key) : bool :=
  match a, b with
  | K_R_BLR, K_R_BLR | K_E, K_E | K_g, K_g | K_m, K_m | K_n, K_n
  | K_Rmax, K_Rmax | K_B, K_B | K_s, K_s | K_p, K_p | K_sens, K_sens
  | K_Psi, K_Psi => true
  | _, _ => false
  end.

Definition kwargs : Type := list (key * R).

Record Config : Type := mkConfig {
  R_BLR : R; E : R; g : R; m : R; n : R; Rmax : R;
  B : R; s : R; p : R; sens : R; Psi : R }.

Definition set_param (k : key) (v : R) (c : Config) : Config :=
  match k with
  | K_R_BLR => mkConfig v (E c) (g c) (m c) (n c) (Rmax c) (B c) (s c) (p c) (sens c) (Psi c)
  | K_E => mkConfig (R_BLR c) v (g c) (m c) (n c) (Rmax c) (B c) (s c) (p c) (sens c) (Psi c)
  | K_g => mkConfig (R_BLR c) (E c) v (m c) (n c) (Rmax c) (B c) (s c) (p c) (sens c) (Psi c)
  | K_m => mkConfig (R_BLR c) (E c) (g c) v (n c) (Rmax c) (B c) (s c) (p c) (sens c) (Psi c)
  | K_n => mkConfig (R_BLR c) (E c) (g c) (m c) v (Rmax c) (B c) (s c) (p c) (sens c) (Psi c)
  | K_Rmax => mkConfig (R_BLR c) (E c) (g c) (m c) (n c) v (B c) (s c) (p c) (sens c) (Psi c)
  | K_B => mkConfig (R_BLR c) (E c) (g c) (m c) (n c) (Rmax c) v (s c) (p c) (sens c) (Psi c)
  | K_s => mkConfig (R_BLR c) (E c) (g c) (m c) (n c) (Rmax c) (B c) v (p c) (sens c) (Psi c)
  | K_p => mkConfig (R_BLR c) (E c) (g c) (m c) (n c) (Rmax c) (B c) (s c) v (sens c) (Psi c)
  | K_sens => mkConfig (R_BLR c) (E c) (g c) (m c) (n c) (Rmax c) (B c) (s c) (p c) v (Psi c)
  | K_Psi => mkConfig (R_BLR c) (E c) (g c) (m c) (n c) (Rmax c) (B c) (s c) (p c) (sens c) v
  end.

(** [self.__dict__.update(kwargs)] *)
Definition dict_update (kw : kwargs) (c : Config) : Config :=
  fold_left (fun c' kv => set_param (fst kv) (snd kv) c') kw c.

Definition has_key (k : key) (kw : kwargs) : bool :=
  existsb (fun kv => key_eqb k (fst kv)) kw.

(** [kwargs.setdefault(k, v)] *)
Definition setdefault (k : key) (v : R) (kw : kwargs) : kwargs :=
  if has_key k kw then kw else kw ++ [(k, v)].

(** Grid attributes set by [update_params]. *)
Record Grid : Type := mkGrid {
  Nd : Z; Lcoh : list R; r : list R; Br : list R; nr : list R; Psin : list R }.

(** Transfer matrices, each of shape (3,3,Nd). *)
Record Transfer : Type := mkTransfer {
  T1 : Arr33; T2 : Arr33; T3 : Arr33; Un : Arr33 }.

(** Attributes set by [__setDeltas] and [__setEW]. *)
Record Mixing : Type := mkMixing {
  Dperp : list R; Dpar : list R; Dag : list R; Da : list R;
  alph : list R; Dosc : list R;
  EW1 : list R; EW2 : list R; EW3 : list R }.

Record PhotALPs_Jet : Type := mkJet {
  params : Config; grid : Grid; transfer : Transfer; mixing : Mixing }.

(** An object on which no method has run yet: every attribute is
    overwritten before it is read ([__init__] supplies all eleven keys,
    [SetDomainN] calls [__setEW] first). *)
Definition blank : PhotALPs_Jet :=
  mkJet (mkConfig 0 0 0 0 0 0 0 0 0 0 0)
        (mkGrid 0%Z [] [] [] [] [])
        (mkTransfer (const3 []) (const3 []) (const3 []) (const3 []))
        (mkMixing [] [] [] [] [] [] [] [] []).

(* ------------------------------------------------------------------ *)
(** ** Methods as computations over the object *)

Inductive exn : Type :=
  | ValueError (msg : string)
  | UnboundLocalError (name : string).

Module JetM.

(** A method body: it reads and writes [self] and returns or raises. *)
Definition M (A : Type) : Type := PhotALPs_Jet -> (exn + A) * PhotALPs_Jet.

Definition ret {A} (a : A) : M A := fun st => (inr a, st).
Definition raise {A} (e : exn) : M A := fun st => (inl e, st).
Definition bind {A B} (c : M A) (k : A -> M B) : M B :=
  fun st =>
    match c st with
    | (inl e, st') => (inl e, st')
    | (inr a, st') => k a st'
    end.
Definition gets {A} (f : PhotALPs_Jet -> A) : M A := fun st => (inr (f st), st).
Definition modify (f : PhotALPs_Jet -> PhotALPs_Jet) : M unit :=
  fun st => (inr tt, f st).

Definition outcome {A} (x : (exn + A) * PhotALPs_Jet) : exn + A := fst x.
Definition final {A} (x : (exn + A) * PhotALPs_Jet) : PhotALPs_Jet := snd x.

End JetM.
Export JetM.

Declare Scope jet_scope.
Delimit Scope jet_scope with jet.
Notation "x <- c ;; k" := (bind c (fun x => k))
  (at level 61, c at next level, right associativity) : jet_scope.
Notation "c ;; k" := (bind c (fun _ => k))
  (at level 61, right associativity) : jet_scope.
Open Scope jet_scope.

(** Attribute assignments. *)
Definition set_params (f : Config -> Config) : M unit :=
  modify (fun st => mkJet (f (params st)) (grid st) (transfer st) (mixing st)).
Definition set_grid (f : Grid -> Grid) : M unit :=
  modify (fun st => mkJet (params st) (f (grid st)) (transfer st) (mixing st)).
Definition set_transfer (f : Transfer -> Transfer) : M unit :=
  modify (fun st => mkJet (params st) (grid st) (f (transfer st)) (mixing st)).
Definition set_mixing (f : Mixing -> Mixing) : M unit :=
  modify (fun st => mkJet (params st) (grid st) (transfer st) (f (mixing st))).

Definition set_Nd v (x : Grid) := mkGrid v (Lcoh x) (r x) (Br x) (nr x) (Psin x).
Definition set_Lcoh v (x : Grid) := mkGrid (Nd x) v (r x) (Br x) (nr x) (Psin x).
Definition set_r v (x : Grid) := mkGrid (Nd x) (Lcoh x) v (Br x) (nr x) (Psin x).
Definition set_Br v (x : Grid) := mkGrid (Nd x) (Lcoh x) (r x) v (nr x) (Psin x).
Definition set_nr v (x : Grid) := mkGrid (Nd x) (Lcoh x) (r x) (Br x) v (Psin x).
Definition set_Psin v (x : Grid) := mkGrid (Nd x) (Lcoh x) (r x) (Br x) (nr x) v.

Definition set_T1 v (x : Transfer) := mkTransfer v (T2 x) (T3 x) (Un x).
Definition set_T2 v (x : Transfer) := mkTransfer (T1 x) v (T3 x) (Un x).
Definition set_T3 v (x : Transfer) := mkTransfer (T1 x) (T2 x) v (Un x).
Definition set_Un v (x : Transfer) := mkTransfer (T1 x) (T2 x) (T3 x) v.

Definition set_Dperp v (x : Mixing) :=
  mkMixing v (Dpar x) (Dag x) (Da x) (alph x) (Dosc x) (EW1 x) (EW2 x) (EW3 x).
Definition set_Dpar v (x : Mixing) :=
  mkMixing (Dperp x) v (Dag x) (Da x) (alph x) (Dosc x) (EW1 x) (EW2 x) (EW3 x).
Definition set_Dag v (x : Mixing) :=
  mkMixing (Dperp x) (Dpar x) v (Da x) (alph x) (Dosc x) (EW1 x) (EW2 x) (EW3 x).
Definition set_Da v (x : Mixing) :=
  mkMixing (Dperp x) (Dpar x) (Dag x) v (alph x) (Dosc x) (EW1 x) (EW2 x) (EW3 x).
Definition set_alph v (x : Mixing) :=
  mkMixing (Dperp x) (Dpar x) (Dag x) (Da x) v (Dosc x) (EW1 x) (EW2 x) (EW3 x).
Definition set_Dosc v (x : Mixing) :=
  mkMixing (Dperp x) (Dpar x) (Dag x) (Da x) (alph x) v (EW1 x) (EW2 x) (EW3 x).
Definition set_EW1 v (x : Mixing) :=
  mkMixing (Dperp x) (Dpar x) (Dag x) (Da x) (alph x) (Dosc x) v (EW2 x) (EW3 x).
Definition set_EW2 v (x : Mixing) :=
  mkMixing (Dperp x) (Dpar x) (Dag x) (Da x) (alph x) (Dosc x) (EW1 x) v (EW3 x).
Definition set_EW3 v (x : Mixing) :=
  mkMixing (Dperp x) (Dpar x) (Dag x) (Da x) (alph x) (Dosc x) (EW1 x) (EW2 x) v.

(** [np.zeros((3,3,Nd), np.complex)]: numpy refuses a negative dimension. *)
Definition np_zeros33 (nd : Z) : M Arr33 :=
  if (nd <? 0)%Z then raise (ValueError "negative dimensions are not allowed")
  else ret (const3 (repeat C0 (Z.to_nat nd))).

(** [np.ones(Nd)] *)
Definition np_ones (nd : Z) : M (list R) :=
  if (nd <? 0)%Z then raise (ValueError "negative dimensions are not allowed")
  else ret (repeat 1 (Z.to_nat nd)).

(** The closures [self.Bf] and [self.nf]: they read the attributes of
    [self] when they are called. *)
Definition Bf (c : Config) (x : R) : R := B c * np_power (x / R_BLR c) (- p c).
Definition nf (c : Config) (x : R) : R := n c * np_power (x / R_BLR c) (- s c).

(** The three grid formulas of [update_params] (lines 119-121). *)
Definition domain_count (c : Config) : Z :=
  ceil (-1 * p c * ln (Rmax c / R_BLR c) / ln (sens c)).

Definition coherence_lengths (c : Config) (nd : Z) : list R :=
  vmap (fun x => R_BLR c * np_power (sens c) (- x / p c) * (1 - sens c))
       (linspace 1 (IZR nd) nd).

Definition radii (c : Config) (nd : Z) : list R :=
  vmap (fun x => R_BLR c * np_power (sens c) (- x / p c))
       (linspace 0 (IZR nd) nd).

Definition update_params (kw : kwargs) : M unit :=
  set_params (dict_update kw) ;;
  c <- gets params ;;
  set_grid (set_Nd (domain_count c)) ;;
  nd <- gets (fun st => Nd (grid st)) ;;
  set_grid (set_Lcoh (coherence_lengths c nd)) ;;
  set_grid (set_r (radii c nd)) ;;
  rr <- gets (fun st => r (grid st)) ;;
  set_grid (set_Br (vmap (Bf c) rr)) ;;
  set_grid (set_nr (vmap (nf c) rr)) ;;
  z1 <- np_zeros33 nd ;; set_transfer (set_T1 z1) ;;
  z2 <- np_zeros33 nd ;; set_transfer (set_T2 z2) ;;
  z3 <- np_zeros33 nd ;; set_transfer (set_T3 z3) ;;
  z4 <- np_zeros33 nd ;; set_transfer (set_Un z4) ;;
  o <- np_ones nd ;;
  set_grid (set_Psin (vmap (fun x => x * Psi c) o)).

(** [__init__]: defaults for the missing keys, then [update_params]. *)
Definition defaults (kw : kwargs) : kwargs :=
  setdefault K_Psi 0
    (setdefault K_sens 0.99
      (setdefault K_p 1
        (setdefault K_s 2
          (setdefault K_B 0.01
            (setdefault K_Rmax 1000
              (setdefault K_n 1e8
                (setdefault K_m 1
                  (setdefault K_g 1
                    (setdefault K_E 1
                      (setdefault K_R_BLR 0.3 kw)))))))))).

Definition __init__ (kw : kwargs) : (exn + unit) * PhotALPs_Jet :=
  update_params (defaults kw) blank.

(* ------------------------------------------------------------------ *)
(** ** The collaborators of module [deltas] *)

(** Each of the four functions is applied elementwise to a vector in its
    array argument. *)
Class DeltasModule : Type := {
  Delta_pl_kpc : R -> R -> R;    (* density, energy *)
  Delta_QED_kpc : R -> R -> R;   (* field, energy *)
  Delta_ag_kpc : R -> R -> R;    (* coupling, field *)
  Delta_a_kpc : R -> R -> R      (* mass, energy *)
}.

(** vector * scalar *)
Definition vtimes (v : list R) (k : R) : list R := map (fun x => x * k) v.

(** [x ** 2.] on an array *)
Definition np_square (v : list R) : list R := map (fun x => x ^ 2) v.

(** [T[i,j,:] = v] on each of the three projector arrays. *)
Definition assign_T1 (i j : I3) (v : Transfer -> list C) : M unit :=
  set_transfer (fun x => set_T1 (set (T1 x) i j (v x)) x).
Definition assign_T2 (i j : I3) (v : Transfer -> list C) : M unit :=
  set_transfer (fun x => set_T2 (set (T2 x) i j (v x)) x).
Definition assign_T3 (i j : I3) (v : Transfer -> list C) : M unit :=
  set_transfer (fun x => set_T3 (set (T3 x) i j (v x)) x).

(** [__setT1n] *)
Definition __setT1n : M unit :=
  ps <- gets (fun st => Psin (grid st)) ;;
  let c := vmap cos ps in
  let s := vmap sin ps in
  assign_T1 i0 i0 (fun _ => vcast (vmul c c)) ;;
  assign_T1 i1 i0 (fun x => get (T1 x) i0 i1) ;;
  assign_T1 i1 i1 (fun _ => vcast (vmul s s)).

(** [__setT2n] *)
Definition __setT2n : M unit :=
  ps <- gets (fun st => Psin (grid st)) ;;
  al <- gets (fun st => alph (mixing st)) ;;
  let c := vmap cos ps in
  let s := vmap sin ps in
  let ca := vmap cos al in
  let sa := vmap sin al in
  assign_T2 i1 i0 (fun x => get (T2 x) i0 i1) ;;
  assign_T2 i1 i1 (fun _ => vcast (vmul (vmul (vmul c c) sa) sa)) ;;
  assign_T2 i1 i2 (fun _ => vcast (vmul (vmul (vscale (-1) c) ca) sa)) ;;
  assign_T2 i2 i0 (fun x => get (T2 x) i0 i2) ;;
  assign_T2 i2 i1 (fun x => get (T2 x) i1 i2) ;;
  assign_T2 i2 i2 (fun _ => vcast (vmul ca ca)).

(** [__setT3n] *)
Definition __setT3n : M unit :=
  ps <- gets (fun st => Psin (grid st)) ;;
  al <- gets (fun st => alph (mixing st)) ;;
  let c := vmap cos ps in
  let s := vmap sin ps in
  let ca := vmap cos al in
  let sa := vmap sin al in
  assign_T3 i1 i0 (fun x => get (T3 x) i0 i1) ;;
  assign_T3 i1 i1 (fun _ => vcast (vmul (vmul (vmul c c) ca) ca)) ;;
  assign_T3 i1 i2 (fun _ => vcast (vmul (vmul c sa) ca)) ;;
  assign_T3 i2 i0 (fun x => get (T3 x) i0 i2) ;;
  assign_T3 i2 i1 (fun x => get (T3 x) i1 i2) ;;
  assign_T3 i2 i2 (fun _ => vcast (vmul sa sa)).

(** [np.exp(1.j * EW * Lcoh)] *)
Definition phase (ew lcoh : list R) : list C :=
  vmap Cexp (vmap2 (fun e l => Cmul (j_times e) (of_R l)) ew lcoh).

(** [__setUn] *)
Definition __setUn : M unit :=
  mx <- gets mixing ;;
  lc <- gets (fun st => Lcoh (grid st)) ;;
  t <- gets transfer ;;
  set_transfer
    (set_Un (aadd (aadd (bmul (phase (EW1 mx) lc) (T1 t))
                        (bmul (phase (EW2 mx) lc) (T2 t)))
                  (bmul (phase (EW3 mx) lc) (T3 t)))).

(** The loop of [SetDomainN]: the local [U] is unbound before the first
    pass. *)
Definition chain_step (un : Arr33) (U : option (Mat3 C)) (i : nat) : option (Mat3 C) :=
  if Nat.eqb i 0 then Some (slice un i)
  else match U with
       | Some U' => Some (np_dot U' (slice un i))
       | None => None
       end.

Definition chain (un : Arr33) : option (Mat3 C) :=
  fold_left (chain_step un) (seq 0 (shape2 un)) None.

Section Collaborators.

Context {D : DeltasModule}.

(** [__setDeltas] *)
Definition __setDeltas : M unit :=
  c <- gets params ;;
  gr <- gets grid ;;
  let pl := vmap (fun x => Delta_pl_kpc x (E c)) (vtimes (nr gr) 1e3) in
  let qed := vmap (fun x => Delta_QED_kpc x (E c)) (vtimes (Br gr) 1e6) in
  set_mixing (set_Dperp (vscale 1e-3 (vadd pl (vscale 2 qed)))) ;;
  set_mixing (set_Dpar (vscale 1e-3 (vadd pl (vscale 3.5 qed)))) ;;
  set_mixing (set_Dag (vscale 1e-3 (vmap (Delta_ag_kpc (g c)) (vtimes (Br gr) 1e6)))) ;;
  o <- np_ones (Nd gr) ;;
  set_mixing (set_Da (vscale 1e-3 (vscale (Delta_a_kpc (m c) (E c)) o))) ;;
  set_mixing (fun x =>
    set_alph (vscale 0.5 (vmap atan (vdiv (vscale 2 (Dag x)) (vsub (Dpar x) (Da x))))) x) ;;
  set_mixing (fun x =>
    set_Dosc (vmap sqrt (vadd (np_square (vsub (Dpar x) (Da x)))
                              (vscale 4 (np_square (Dag x))))) x).

(** [__setEW] *)
Definition __setEW : M unit :=
  __setDeltas ;;
  set_mixing (fun x => set_EW1 (Dperp x) x) ;;
  set_mixing (fun x => set_EW2 (vscale 0.5 (vsub (vadd (Dpar x) (Da x)) (Dosc x))) x) ;;
  set_mixing (fun x => set_EW3 (vscale 0.5 (vadd (vadd (Dpar x) (Da x)) (Dosc x))) x).

(** [SetDomainN] *)
Definition SetDomainN : M (Mat3 C) :=
  __setEW ;;
  __setT1n ;;
  __setT2n ;;
  __setT3n ;;
  __setUn ;;
  un <- gets (fun st => Un (transfer st)) ;;
  match chain un with
  | Some U => ret U
  | None => raise (UnboundLocalError "U")
  end.

(** [analytical_U] *)
Definition analytical_U : M (Mat3 C) :=
  let U := const3 C0 in
  let U := set U i0 i0 (of_R 1) in
  c <- gets params ;;
  let x :=
    nth 0 (vtimes
             (vtimes
                (vtimes
                   (vscale 1e-3
                      (vmap (Delta_ag_kpc (g c)) (vtimes (vmap (Bf c) [Rmax c]) 1e6)))
                   (np_power (Rmax c / R_BLR c) (p c)))
                (R_BLR c))
             (ln (Rmax c / R_BLR c))) 0 in
  let U := set U i1 i1 (of_R (cos x)) in
  let U := set U i1 i2 (j_times (sin x)) in
  let U := set U i2 i1 (get U i1 i2) in
  let U := set U i2 i2 (get U i1 i1) in
  ret U.

End Collaborators.

(* ------------------------------------------------------------------ *)
(** ** The mixing-angle line with numpy's special values *)

Module NpFloat.

(** A float64: a finite value, an infinity or not-a-number. *)
Inductive npfloat : Type :=
  | Finite (x : R)
  | PosInf
  | NegInf
  | NaN.

(** [a / b] on finite array entries: a zero divisor gives an infinity of
    the sign of [a], or NaN for 0/0 (numpy warns and goes on). *)
Definition np_div (a b : R) : npfloat :=
  if Req_dec_T b 0 then
    if Rlt_dec 0 a then PosInf
    else if Rlt_dec a 0 then NegInf
    else NaN
  else Finite (a / b).

(** [np.arctan] *)
Definition np_arctan (x : npfloat) : npfloat :=
  match x with
  | Finite y => Finite (atan y)
  | PosInf => Finite (PI / 2)
  | NegInf => Finite (- (PI / 2))
  | NaN => NaN
  end.

(** [0.5 * x] *)
Definition np_half (x : npfloat) : npfloat :=
  match x with
  | Finite y => Finite (0.5 * y)
  | PosInf => PosInf
  | NegInf => NegInf
  | NaN => NaN
  end.

(** One entry of [0.5 * np.arctan(2. * Dag / (Dpar - Da))] (line 152). *)
Definition alph_entry (dag dpar da : R) : npfloat :=
  np_half (np_arctan (np_div (2 * dag) (dpar - da))).

Definition is_finite (x : npfloat) : Prop :=
  match x with Finite _ => True | _ => False end.

End NpFloat.

(* ------------------------------------------------------------------ *)
(** ** Configurations, reachable objects and products of propagators *)

(** The configurations the class is documented for. *)
Definition valid_config (c : Config) : Prop :=
  0 < sens c < 1 /\ 0 < R_BLR c < Rmax c /\ 0 < p c.

(** The configurations excluded by the range of [sens] or by the radii. *)
Definition invalid_config (c : Config) : Prop :=
  ~ (0 < sens c < 1) \/ Rmax c <= R_BLR c.

(** The configurations on which line 119 stays within the finite numbers:
    the radii are positive, so that the ratio and its logarithm exist, and
    [ln(sens)] exists and is not zero. *)
Definition logs_defined (c : Config) : Prop :=
  0 < sens c /\ sens c <> 1 /\ 0 < R_BLR c /\ 0 < Rmax c.

Section Reachable.

Context {D : DeltasModule}.

(** The objects a caller can hold: built by a constructor that returned,
    then changed by the public methods, on configurations whose logarithms
    are defined. *)
Inductive reachable : PhotALPs_Jet -> Prop :=
  | reach_init (kw : kwargs) (st : PhotALPs_Jet) :
      logs_defined (dict_update (defaults kw) (params blank)) ->
      __init__ kw = (inr tt, st) -> reachable st
  | reach_update (kw : kwargs) (st st' : PhotALPs_Jet) :
      reachable st ->
      logs_defined (dict_update kw (params st)) ->
      update_params kw st = (inr tt, st') -> reachable st'
  | reach_SetDomainN (st : PhotALPs_Jet) :
      reachable st -> reachable (final (SetDomainN st))
  | reach_analytical_U (st : PhotALPs_Jet) :
      reachable st -> reachable (final (analytical_U st)).

End Reachable.

(** The number of domains as an index bound. *)
Definition ndom (st : PhotALPs_Jet) : nat := Z.to_nat (Nd (grid st)).

(** [Un[:,:,0], ..., Un[:,:,Nd-1]] *)
Definition domain_propagators (st : PhotALPs_Jet) : list (Mat3 C) :=
  map (slice (Un (transfer st))) (seq 0 (ndom st)).

(** The product [P0 * P1 * ... * Pk] of a sequence of matrices, in the
    order of the sequence. *)
Definition ordered_product (l : list (Mat3 C)) : Mat3 C :=
  fold_right np_dot eye3 l.

(** The entries of the first row that no builder assigns: all three of
    [T2] and [T3], and the last two of [T1]. *)
Definition top_row_zero (st : PhotALPs_Jet) : Prop :=
  let z := repeat C0 (ndom st) in
  let t := transfer st in
  get (T1 t) i0 i1 = z /\ get (T1 t) i0 i2 = z
  /\ get (T2 t) i0 i0 = z /\ get (T2 t) i0 i1 = z /\ get (T2 t) i0 i2 = z
  /\ get (T3 t) i0 i0 = z /\ get (T3 t) i0 i1 = z /\ get (T3 t) i0 i2 = z.

(** What holds of an object between two calls: the vectors have one entry
    for each domain, [Psin] is [Psi] in every domain, and the entries of the
    projector arrays that no builder assigns are zero. *)
Definition consistent (st : PhotALPs_Jet) : Prop :=
  let z := repeat C0 (ndom st) in
  let t := transfer st in
  (0 <= Nd (grid st))%Z
  /\ List.length (Lcoh (grid st)) = ndom st
  /\ List.length (Br (grid st)) = ndom st
  /\ List.length (nr (grid st)) = ndom st
  /\ Psin (grid st) = vmap (fun x => x * Psi (params st)) (repeat 1 (ndom st))
  /\ top_row_zero st
  /\ get (T1 t) i1 i2 = z /\ get (T1 t) i2 i0 = z
  /\ get (T1 t) i2 i1 = z /\ get (T1 t) i2 i2 = z.

(** The keys of the configuration that [analytical_U] reads (through
    [self.g], [self.Bf], [self.p], [self.R_BLR] and [self.Rmax]). *)
Definition analytical_U_reads (k : key) : bool :=
  match k with
  | K_g | K_B | K_p | K_R_BLR | K_Rmax => true
  | _ => false
  end.

(** The object with its attribute [alph] replaced. *)
Definition with_alph (al : list R) (st : PhotALPs_Jet) : PhotALPs_Jet :=
  mkJet (params st) (grid st) (transfer st) (set_alph al (mixing st)).

(** [T1[:,:,k] + T2[:,:,k] + T3[:,:,k]] *)
Definition projector_sum (st : PhotALPs_Jet) (k : nat) : Mat3 C :=
  madd (madd (slice (T1 (transfer st)) k) (slice (T2 (transfer st)) k))
       (slice (T3 (transfer st)) k).

(** [|a - b| <= tol * |b|] *)
Definition within_relative (tol a b : R) : Prop :=
  Rabs (a - b) <= tol * Rabs b.

(** A configuration with two domains, and collaborators for it. *)
Definition two_domain_kwargs : kwargs :=
  [(K_R_BLR, 1); (K_Rmax, 3); (K_sens, 0.5); (K_B, 4e-6)].

Definition two_domain_config : Config :=
  mkConfig 1 1 1 1 1e8 3 4e-6 2 1 0.5 0.

Definition two_domain_deltas : DeltasModule := {|
  Delta_pl_kpc := fun _ _ => 0;
  Delta_QED_kpc := fun _ _ => 0;
  Delta_ag_kpc := fun g0 b0 => g0 * (4 - b0) * (500 * PI / 3);
  Delta_a_kpc := fun _ _ => -1000 * PI
|}.

(** The two-domain object. *)
Definition two_domain_jet : PhotALPs_Jet := final (__init__ two_domain_kwargs).

(** Collaborators that return 0: no plasma, no QED term, no coupling, no
    mass term. *)
Definition null_deltas : DeltasModule := {|
  Delta_pl_kpc := fun _ _ => 0;
  Delta_QED_kpc := fun _ _ => 0;
  Delta_ag_kpc := fun _ _ => 0;
  Delta_a_kpc := fun _ _ => 0
|}.

(** The oscillation scale of the outer domain of the two-domain object. *)
Definition two_domain_osc : R := sqrt (2 * (PI * PI)).

(** The same configuration with a larger outer radius. *)
Definition wider_config : Config :=
  mkConfig 1 1 1 1 1e8 3.5 4e-6 2 1 0.5 0.

(** A configuration with a coarse attenuation ratio. *)
Definition coarse_kwargs : kwargs := [(K_R_BLR, 1); (K_Rmax, 2); (K_sens, 0.25)].

Definition coarse_config : Config :=
  mkConfig 1 1 1 1 1e8 2 0.01 2 1 0.25 0.

(** A configuration whose outer radius is the reference radius. *)
Definition degenerate_kwargs : kwargs := [(K_R_BLR, 1); (K_Rmax, 1); (K_sens, 0.5)].

Definition degenerate_config : Config :=
  mkConfig 1 1 1 1 1e8 1 0.01 2 1 0.5 0.

(* ------------------------------------------------------------------ *)
(** ** Lookups, single domains and shapes of matrices *)

(** The attribute of the configuration stored under a key. *)
Definition get_param (k : key) (c : Config) : R :=
  match k with
  | K_R_BLR => R_BLR c | K_E => E c | K_g => g c | K_m => m c | K_n => n c
  | K_Rmax => Rmax c | K_B => B c | K_s => s c | K_p => p c
  | K_sens => sens c | K_Psi => Psi c
  end.

(** The value a keyword dictionary holds for a key: the last one given. *)
Fixpoint kw_value (k : key) (kw : kwargs) : option R :=
  match kw with
  | [] => None
  | kv :: kw' =>
      match kw_value k kw' with
      | Some w => Some w
      | None => if key_eqb k (fst kv) then Some (snd kv) else None
      end
  end.

(** The defaults of [__init__] (lines 95-105). *)
Definition default_value (k : key) : R :=
  match k with
  | K_R_BLR => 0.3 | K_E => 1 | K_g => 1 | K_m => 1 | K_n => 1e8
  | K_Rmax => 1000 | K_B => 0.01 | K_s => 2 | K_p => 1
  | K_sens => 0.99 | K_Psi => 0
  end.


(** [np.exp(1.j * EW * Lcoh)] in one domain. *)
Definition phase_at (ew l : R) : C := Cexp (Cmul (j_times ew) (of_R l)).

(** scalar * matrix *)
Definition smul (e : C) (P : Mat3 C) : Mat3 C := mmap (Cmul e) P.

(** The three projector arrays in a domain of a reachable object, from the
    angle [psi] and the mixing angle [a] of the domain: the entries that
    [__setT1n], [__setT2n] and [__setT3n] assign, and zero elsewhere. *)
Definition T1_domain (psi : R) : Mat3 C :=
  ((of_R (cos psi * cos psi), C0, C0),
   (C0, of_R (sin psi * sin psi), C0),
   (C0, C0, C0)).

Definition T2_domain (psi a : R) : Mat3 C :=
  ((C0, C0, C0),
   (C0, of_R (cos psi * cos psi * sin a * sin a), of_R (-1 * cos psi * cos a * sin a)),
   (C0, of_R (-1 * cos psi * cos a * sin a), of_R (cos a * cos a))).

Definition T3_domain (psi a : R) : Mat3 C :=
  ((C0, C0, C0),
   (C0, of_R (cos psi * cos psi * cos a * cos a), of_R (cos psi * sin a * cos a)),
   (C0, of_R (cos psi * sin a * cos a), of_R (sin a * sin a))).

(** The propagator of lines 267-269 in one domain. *)
Definition Un_domain (e1 e2 e3 : C) (t1 t2 t3 : Mat3 C) : Mat3 C :=
  madd (madd (smul e1 t1) (smul e2 t2)) (smul e3 t3).

(** Transpose, complex conjugate and conjugate transpose. *)
Definition transpose (P : Mat3 C) : Mat3 C :=
  ((get P i0 i0, get P i1 i0, get P i2 i0),
   (get P i0 i1, get P i1 i1, get P i2 i1),
   (get P i0 i2, get P i1 i2, get P i2 i2)).

Definition Cconj (z : C) : C := mkC (Re z) (- Im z).

Definition adjoint (P : Mat3 C) : Mat3 C := transpose (mmap Cconj P).

(** [P * P^H = 1] *)
Definition unitary (P : Mat3 C) : Prop := np_dot P (adjoint P) = eye3.

(** No entry links index 0 with index 1 or 2. *)
Definition decoupled (P : Mat3 C) : Prop :=
  get P i0 i1 = C0 /\ get P i0 i2 = C0 /\ get P i1 i0 = C0 /\ get P i2 i0 = C0.

(** All entries off the diagonal are zero. *)
Definition diagonal (P : Mat3 C) : Prop :=
  decoupled P /\ get P i1 i2 = C0 /\ get P i2 i1 = C0.


(** The matrix that [analytical_U] fills in (lines 305-306, 309-312) for
    the phase [x]. *)
Definition rotation_block (x : R) : Mat3 C :=
  ((of_R 1, C0, C0),
   (C0, of_R (cos x), j_times (sin x)),
   (C0, j_times (sin x), of_R (cos x))).

(** Collaborators without coupling: [Delta_ag_kpc] returns 0, and the mass
    term differs from the plasma and QED terms. *)
Definition uncoupled_deltas : DeltasModule := {|
  Delta_pl_kpc := fun _ _ => 0;
  Delta_QED_kpc := fun _ _ => 0;
  Delta_ag_kpc := fun _ _ => 0;
  Delta_a_kpc := fun _ _ => -1000
|}.

Section Phase.

Context {D : DeltasModule}.

(** The phase of [analytical_U] (line 307): the single entry of
    [Delta_ag(g, Bf(Rmax)) * (Rmax/R_BLR)^p * R_BLR * ln(Rmax/R_BLR)]. *)
Definition analytical_phase (c : Config) : R :=
  1e-3 * Delta_ag_kpc (g c) (Bf c (Rmax c) * 1e6)
  * np_power (Rmax c / R_BLR c) (p c) * R_BLR c * ln (Rmax c / R_BLR c).

End Phase.

(** The one-domain object. *)
Definition coarse_jet : PhotALPs_Jet := final (__init__ coarse_kwargs).

(** The object without domains. *)
Definition degenerate_jet : PhotALPs_Jet := final (__init__ degenerate_kwargs).

(* ------------------------------------------------------------------ *)
(** ** Running [update_params] *)

Ltac run_jet :=
  cbv [update_params bind gets modify ret raise set_params set_grid
       set_transfer set_mixing outcome final np_zeros33 np_ones
       assign_T1 assign_T2 assign_T3]; cbn [params grid transfer mixing
       Nd Lcoh r Br nr Psin T1 T2 T3 Un set_Nd set_Lcoh set_r set_Br set_nr
       set_Psin set_T1 set_T2 set_T3 set_Un fst snd].

Lemma update_params_ok (kw : kwargs) (st : PhotALPs_Jet) :
  let c := dict_update kw (params st) in
  let nd := domain_count c in
  (0 <= nd)%Z ->
  update_params kw st =
  (inr tt,
   mkJet c
     (mkGrid nd (coherence_lengths c nd) (radii c nd)
        (vmap (Bf c) (radii c nd)) (vmap (nf c) (radii c nd))
        (vmap (fun x => x * Psi c) (repeat 1 (Z.to_nat nd))))
     (mkTransfer (const3 (repeat C0 (Z.to_nat nd))) (const3 (repeat C0 (Z.to_nat nd)))
        (const3 (repeat C0 (Z.to_nat nd))) (const3 (repeat C0 (Z.to_nat nd))))
     (mixing st)).
Proof.
  intros c nd Hnd. run_jet. fold c. fold nd.
  destruct (Z.ltb_spec nd 0) as [Hneg|_]; [lia|]. reflexivity.
Qed.

Lemma update_params_neg (kw : kwargs) (st : PhotALPs_Jet) :
  let c := dict_update kw (params st) in
  (domain_count c < 0)%Z ->
  outcome (update_params kw st)
  = inl (ValueError "negative dimensions are not allowed").
Proof.
  intros c Hnd. run_jet. fold c.
  destruct (Z.ltb_spec (domain_count c) 0) as [_|Hpos]; [reflexivity|lia].
Qed.

(* ------------------------------------------------------------------ *)
(** ** The grid: sample points and domain count *)

Lemma linspace_length (a b : R) (num : Z) :
  List.length (linspace a b num) = Z.to_nat num.
Proof.
  unfold linspace.
  destruct (Z.leb_spec num 0) as [Hle|Hgt].
  - simpl. lia.
  - destruct (Z.eqb_spec num 1) as [->|Hne].
    + reflexivity.
    + now rewrite length_map, length_seq.
Qed.

(** [np.linspace(1., Nd, Nd)] is 1, 2, ..., Nd. *)
Lemma linspace_one_to (nd : Z) :
  linspace 1 (IZR nd) nd = map (fun i => INR i + 1) (seq 0 (Z.to_nat nd)).
Proof.
  unfold linspace.
  destruct (Z.leb_spec nd 0) as [Hle|Hgt].
  - replace (Z.to_nat nd) with 0%nat by lia. reflexivity.
  - destruct (Z.eqb_spec nd 1) as [->|Hne].
    + simpl. f_equal. lra.
    + apply map_ext. intros i.
      rewrite minus_IZR.
      assert (Hnz : IZR nd - 1 <> 0).
      { intro H0. assert (H1 : IZR nd = IZR 1) by (simpl; lra).
        apply eq_IZR in H1. lia. }
      field. exact Hnz.
Qed.

(** The first sample of [np.linspace(0., Nd, Nd)] is 0. *)
Lemma linspace_zero_head (nd : Z) :
  (1 <= nd)%Z -> nth 0 (linspace 0 (IZR nd) nd) 0 = 0.
Proof.
  intros Hnd. unfold linspace.
  destruct (Z.leb_spec nd 0) as [Hle|Hgt]; [lia|].
  destruct (Z.eqb_spec nd 1) as [->|Hne]; [reflexivity|].
  destruct (Z.to_nat nd) as [|k] eqn:Hk; [lia|].
  simpl. lra.
Qed.

Lemma domain_count_bound (c : Config) :
  let L := -1 * p c * ln (Rmax c / R_BLR c) / ln (sens c) in
  IZR (domain_count c) - 1 < L <= IZR (domain_count c).
Proof. intros L. unfold domain_count, ceil. apply Zceil_bound. Qed.

Lemma ln_sens_neg (c : Config) : 0 < sens c < 1 -> ln (sens c) < 0.
Proof.
  intros [H0 H1]. rewrite <- ln_1. now apply ln_increasing.
Qed.

Lemma ratio_gt_1 (c : Config) : 0 < R_BLR c < Rmax c -> 1 < Rmax c / R_BLR c.
Proof.
  intros [H0 H1]. apply Rmult_lt_reg_r with (R_BLR c); [exact H0|].
  unfold Rdiv. rewrite Rmult_assoc, Rinv_l by lra. lra.
Qed.

(** A valid configuration has at least one domain. *)
Lemma domain_count_pos (c : Config) : valid_config c -> (1 <= domain_count c)%Z.
Proof.
  intros (Hs & Hr & Hp).
  pose proof (domain_count_bound c) as [_ Hub]. cbv zeta in Hub.
  pose proof (ln_sens_neg c Hs) as Hls.
  pose proof (ratio_gt_1 c Hr) as Hrt.
  assert (Hlr : 0 < ln (Rmax c / R_BLR c)).
  { rewrite <- ln_1. apply ln_increasing; lra. }
  assert (HL : 0 < -1 * p c * ln (Rmax c / R_BLR c) / ln (sens c)).
  { replace (-1 * p c * ln (Rmax c / R_BLR c) / ln (sens c))
      with (p c * ln (Rmax c / R_BLR c) * / (- ln (sens c))).
    - apply Rmult_lt_0_compat; [apply Rmult_lt_0_compat; lra|].
      apply Rinv_0_lt_compat. lra.
    - field. lra. }
  assert (H : 0 < IZR (domain_count c)) by lra.
  apply lt_IZR in H. lia.
Qed.

(** The domain count of a configuration with [p = 1], [sens = 1/2] and
    [R_BLR = 1] is 2 for every outer radius in (2, 4]. *)
Lemma domain_count_half (c : Config) :
  p c = 1 -> sens c = 0.5 -> R_BLR c = 1 -> 2 < Rmax c <= 4 ->
  domain_count c = 2%Z.
Proof.
  intros Hp Hs Hr [Hlo Hhi]. unfold domain_count, ceil.
  rewrite Hp, Hs, Hr.
  assert (Hl2 : 0 < ln 2) by (rewrite <- ln_1; apply ln_increasing; lra).
  assert (Hh : ln 0.5 = - ln 2).
  { replace 0.5 with (/ 2) by lra. apply ln_Rinv. lra. }
  assert (H4 : ln 4 = 2 * ln 2).
  { replace 4 with (2 * 2) by lra. rewrite ln_mult by lra. lra. }
  assert (Hx1 : ln 2 < ln (Rmax c)) by (apply ln_increasing; lra).
  assert (Hx2 : ln (Rmax c) <= ln 4).
  { destruct Hhi as [Hlt| ->]; [left; apply ln_increasing; lra|right; reflexivity]. }
  apply Zceil_eq. rewrite Hh.
  replace (-1 * 1 * ln (Rmax c / 1) / - ln 2) with (ln (Rmax c) / ln 2).
  2:{ replace (Rmax c / 1) with (Rmax c) by field. field. lra. }
  split.
  - apply Rmult_lt_reg_r with (ln 2); [exact Hl2|].
    unfold Rdiv. rewrite Rmult_assoc, Rinv_l by lra. simpl. lra.
  - apply Rmult_le_reg_r with (ln 2); [exact Hl2|].
    unfold Rdiv. rewrite Rmult_assoc, Rinv_l by lra. simpl. lra.
Qed.

Lemma two_domain_count : domain_count two_domain_config = 2%Z.
Proof. apply domain_count_half; simpl; lra. Qed.

Lemma wider_count : domain_count wider_config = 2%Z.
Proof. apply domain_count_half; simpl; lra. Qed.

Lemma two_domain_valid : valid_config two_domain_config.
Proof. unfold valid_config; simpl; lra. Qed.

(* ------------------------------------------------------------------ *)
(** ** Monotonicity of the domain count *)

(** C7 (as amended): for a fixed exponent [p >= 0] and a fixed [sens] in
    (0,1), the domain count [Nd = ceil(-p * ln(Rmax/R_BLR) / ln(sens))] never
    decreases when the positive ratio [Rmax/R_BLR] grows. *)
Theorem domain_count_monotone (c1 c2 : Config) :
  p c1 = p c2 -> sens c1 = sens c2 ->
  0 < sens c1 < 1 -> 0 <= p c1 ->
  0 < Rmax c1 / R_BLR c1 <= Rmax c2 / R_BLR c2 ->
  (domain_count c1 <= domain_count c2)%Z.
Proof.
  intros Hp Hs Hsens Hp0 [Hpos Hle].
  unfold domain_count, ceil. apply Zceil_le.
  rewrite <- Hp, <- Hs.
  pose proof (ln_sens_neg c1 Hsens) as Hls.
  assert (Hln : ln (Rmax c1 / R_BLR c1) <= ln (Rmax c2 / R_BLR c2)).
  { destruct Hle as [Hlt|Heq]; [left; now apply ln_increasing|right; now rewrite Heq]. }
  replace (-1 * p c1 * ln (Rmax c1 / R_BLR c1) / ln (sens c1))
    with (ln (Rmax c1 / R_BLR c1) * (p c1 * / (- ln (sens c1)))) by (field; lra).
  replace (-1 * p c1 * ln (Rmax c2 / R_BLR c2) / ln (sens c1))
    with (ln (Rmax c2 / R_BLR c2) * (p c1 * / (- ln (sens c1)))) by (field; lra).
  apply Rmult_le_compat_r; [|exact Hln].
  apply Rmult_le_pos; [exact Hp0|].
  left. apply Rinv_0_lt_compat. lra.
Qed.

Lemma domain_count_monotone_witness :
  (0 < Rmax two_domain_config / R_BLR two_domain_config
     <= Rmax wider_config / R_BLR wider_config)
  /\ (domain_count two_domain_config <= domain_count wider_config)%Z.
Proof.
  assert (H : 0 < Rmax two_domain_config / R_BLR two_domain_config
              <= Rmax wider_config / R_BLR wider_config) by (simpl; lra).
  split; [exact H|].
  apply (domain_count_monotone two_domain_config wider_config);
    [reflexivity | reflexivity | simpl; lra | simpl; lra | exact H].
Defined.

(** C7 (as stated) fails: widening the jet from [Rmax = 3] to [Rmax = 3.5]
    (with [R_BLR = 1], [p = 1], [sens = 0.5]) increases the ratio and leaves
    the domain count at 2. *)
Lemma domain_count_not_strict :
  p two_domain_config = p wider_config
  /\ sens two_domain_config = sens wider_config
  /\ 0 < sens two_domain_config < 1
  /\ Rmax two_domain_config / R_BLR two_domain_config
     < Rmax wider_config / R_BLR wider_config
  /\ ~ (domain_count two_domain_config < domain_count wider_config)%Z.
Proof.
  rewrite two_domain_count, wider_count.
  repeat split; simpl; try lra; lia.
Qed.

(* ------------------------------------------------------------------ *)
(** ** The two-domain grid *)

Lemma Rpower_half (x : R) (k : nat) : x = - INR k -> Rpower 0.5 x = 2 ^ k.
Proof.
  intros ->. rewrite Rpower_Ropp, Rpower_pow by lra.
  replace 0.5 with (/ 2) by lra.
  rewrite pow_inv, Rinv_inv. reflexivity.
Qed.

Lemma two_domain_params :
  dict_update (defaults two_domain_kwargs) (params blank) = two_domain_config.
Proof. reflexivity. Qed.

Lemma two_domain_radii : radii two_domain_config 2 = [1; 4].
Proof.
  unfold radii, vmap, linspace, np_power. simpl.
  rewrite (Rpower_half _ 0), (Rpower_half _ 2) by (simpl; field).
  f_equal; [|f_equal]; lra.
Qed.

Lemma two_domain_lengths : coherence_lengths two_domain_config 2 = [1; 2].
Proof.
  unfold coherence_lengths, vmap, linspace, np_power. simpl.
  rewrite (Rpower_half _ 1), (Rpower_half _ 2) by (simpl; field).
  f_equal; [|f_equal]; lra.
Qed.

Lemma two_domain_init :
  __init__ two_domain_kwargs =
  (inr tt,
   mkJet two_domain_config
     (mkGrid 2 (coherence_lengths two_domain_config 2) (radii two_domain_config 2)
        (vmap (Bf two_domain_config) (radii two_domain_config 2))
        (vmap (nf two_domain_config) (radii two_domain_config 2))
        (vmap (fun x => x * Psi two_domain_config) (repeat 1 2)))
     (mkTransfer (const3 (repeat C0 2)) (const3 (repeat C0 2))
        (const3 (repeat C0 2)) (const3 (repeat C0 2)))
     (mixing blank)).
Proof.
  unfold __init__.
  pose proof (update_params_ok (defaults two_domain_kwargs) blank) as H.
  cbv zeta in H. rewrite two_domain_params, two_domain_count in H.
  apply H. lia.
Qed.

(* ------------------------------------------------------------------ *)
(** ** The radius array *)

(** C5 (as amended): for every valid configuration the update succeeds and
    the radius array [r] has [Nd] entries, one for each domain; its entry 0
    is [R_BLR]. *)
Theorem radius_array_shape (kw : kwargs) (st : PhotALPs_Jet) :
  valid_config (dict_update kw (params st)) ->
  outcome (update_params kw st) = inr tt
  /\ List.length (r (grid (final (update_params kw st))))
     = ndom (final (update_params kw st))
  /\ (1 <= ndom (final (update_params kw st)))%nat
  /\ nth 0 (r (grid (final (update_params kw st)))) 0
     = R_BLR (dict_update kw (params st)).
Proof.
  intros Hv.
  pose proof (domain_count_pos _ Hv) as Hnd.
  pose proof (update_params_ok kw st) as Hok. cbv zeta in Hok.
  rewrite Hok by lia. unfold outcome, final, ndom. cbn [fst snd grid r Nd].
  repeat split.
  - unfold radii, vmap. now rewrite length_map, linspace_length.
  - lia.
  - unfold radii, vmap.
    set (f := fun x => _).
    assert (Hlen : (0 < List.length (linspace 0 (IZR (domain_count (dict_update kw (params st))))
                                     (domain_count (dict_update kw (params st)))))%nat).
    { rewrite linspace_length. lia. }
    rewrite (nth_indep _ 0 (f 0)) by (now rewrite length_map).
    rewrite map_nth, linspace_zero_head by lia.
    subst f. cbv beta. unfold np_power, Rpower.
    replace (- 0 / p (dict_update kw (params st)) * ln (sens (dict_update kw (params st))))
      with 0 by (unfold Rdiv; ring).
    rewrite exp_0. ring.
Qed.

Lemma radius_array_shape_witness :
  valid_config (dict_update (defaults two_domain_kwargs) (params blank))
  /\ List.length (r (grid (final (__init__ two_domain_kwargs)))) = 2%nat
  /\ nth 0 (r (grid (final (__init__ two_domain_kwargs)))) 0 = 1.
Proof.
  assert (Hv : valid_config (dict_update (defaults two_domain_kwargs) (params blank))).
  { unfold valid_config. simpl. lra. }
  split; [exact Hv|].
  pose proof (radius_array_shape (defaults two_domain_kwargs) blank Hv)
    as (_ & Hlen & _ & Hhd).
  unfold __init__. split.
  - rewrite Hlen. fold (__init__ two_domain_kwargs).
    rewrite two_domain_init. reflexivity.
  - rewrite Hhd. reflexivity.
Defined.

(** C5 (as stated) fails: for [R_BLR = 1], [Rmax = 3], [p = 1],
    [sens = 0.5] the count is [Nd = 2]; the radius array has two entries,
    not three, and its entry 1 is 4, not [R_BLR * sens^(-1/p) = 2]. *)
Lemma radius_array_not_integer_steps :
  valid_config two_domain_config
  /\ Nd (grid (final (__init__ two_domain_kwargs))) = 2%Z
  /\ List.length (r (grid (final (__init__ two_domain_kwargs))))
     <> Z.to_nat (Nd (grid (final (__init__ two_domain_kwargs))) + 1)
  /\ nth 1 (r (grid (final (__init__ two_domain_kwargs)))) 0
     <> R_BLR two_domain_config
        * np_power (sens two_domain_config) (- INR 1 / p two_domain_config).
Proof.
  split; [exact two_domain_valid|].
  rewrite two_domain_init. unfold final. cbn [snd grid Nd r].
  rewrite two_domain_radii. repeat split.
  - simpl. lia.
  - unfold np_power. cbn [R_BLR sens p two_domain_config].
    rewrite (Rpower_half _ 1) by (simpl; field). simpl. lra.
Qed.

(* ------------------------------------------------------------------ *)
(** ** The sum of the coherence lengths *)

Lemma vsum_app (u v : list R) : vsum (u ++ v) = vsum u + vsum v.
Proof.
  induction u as [|x u IH]; simpl.
  - lra.
  - unfold vsum in *. simpl. rewrite IH. lra.
Qed.

(** The geometric series [a*q + a*q^2 + ... + a*q^N]. *)
Lemma geometric_sum (a q : R) (N : nat) :
  q <> 1 ->
  vsum (map (fun i => a * q ^ S i) (seq 0 N)) = a * q * (q ^ N - 1) / (q - 1).
Proof.
  intros Hq. induction N as [|N IH].
  - simpl. unfold vsum. simpl. field. lra.
  - rewrite seq_S, map_app, vsum_app, IH. simpl. unfold vsum. simpl.
    field. lra.
Qed.

(** The coherence lengths are a geometric progression of ratio
    [sens^(-1/p)]. *)
Lemma coherence_lengths_geometric (c : Config) (nd : Z) :
  coherence_lengths c nd
  = map (fun i => R_BLR c * (1 - sens c) * Rpower (sens c) (- 1 / p c) ^ S i)
        (seq 0 (Z.to_nat nd)).
Proof.
  unfold coherence_lengths, vmap, np_power.
  rewrite linspace_one_to, map_map.
  apply map_ext. intros i.
  rewrite <- Rpower_pow by apply exp_pos.
  rewrite Rpower_mult, S_INR.
  replace (- (INR i + 1) / p c) with (- 1 / p c * (INR i + 1)) by (unfold Rdiv; ring).
  ring.
Qed.

Section Coverage.

Variable c : Config.
Hypothesis Hvalid : valid_config c.

Let t := - ln (sens c) / p c.
Let rho := Rmax c / R_BLR c.
Let N := Z.to_nat (domain_count c).

Lemma coverage_t_pos : 0 < t.
Proof.
  destruct Hvalid as (Hs & Hr & Hp).
  pose proof (ln_sens_neg c Hs). unfold t.
  apply Rmult_lt_0_compat; [lra|now apply Rinv_0_lt_compat].
Qed.

Lemma coverage_q : Rpower (sens c) (- 1 / p c) = exp t.
Proof.
  destruct Hvalid as (Hs & Hr & Hp).
  unfold Rpower, t. f_equal. field. lra.
Qed.

Lemma coverage_qN : exp t ^ N = exp (IZR (domain_count c) * t).
Proof.
  pose proof (domain_count_pos c Hvalid) as Hnd.
  rewrite <- Rpower_pow by apply exp_pos.
  unfold Rpower. rewrite ln_exp. f_equal. unfold N.
  rewrite INR_IZR_INZ, Z2Nat.id by lia. reflexivity.
Qed.

Lemma coverage_ln_rho :
  (IZR (domain_count c) - 1) * t < ln rho <= IZR (domain_count c) * t.
Proof.
  destruct Hvalid as (Hs & Hr & Hp).
  pose proof (ln_sens_neg c Hs) as Hls.
  pose proof (domain_count_bound c) as [Hlo Hhi]. cbv zeta in Hlo, Hhi.
  pose proof coverage_t_pos as Ht.
  assert (HL : -1 * p c * ln (Rmax c / R_BLR c) / ln (sens c) * t = ln rho).
  { unfold t, rho. field. lra. }
  rewrite <- HL. split.
  - apply Rmult_lt_compat_r; assumption.
  - apply Rmult_le_compat_r; [lra|assumption].
Qed.

Lemma coverage_rho : rho = exp (ln rho).
Proof.
  destruct Hvalid as (Hs & Hr & Hp).
  pose proof (ratio_gt_1 c Hr). rewrite exp_ln; [reflexivity|fold rho in H; lra].
Qed.

(** [Rmax/R_BLR <= sens^(-Nd/p) < sens^(-1/p) * Rmax/R_BLR] *)
Lemma coverage_power_bounds : rho <= exp t ^ N < exp t * rho.
Proof.
  pose proof coverage_ln_rho as [Hlo Hhi].
  rewrite coverage_qN. split.
  - rewrite coverage_rho.
    destruct Hhi as [Hlt|Heq]; [left; now apply exp_increasing|right; now rewrite Heq].
  - rewrite coverage_rho, <- exp_plus. apply exp_increasing. lra.
Qed.

Lemma coverage_sum :
  vsum (coherence_lengths c (domain_count c))
  = R_BLR c * ((1 - sens c) * exp t / (exp t - 1)) * (exp t ^ N - 1).
Proof.
  pose proof coverage_t_pos as Ht.
  assert (Hq : 1 < exp t).
  { rewrite <- exp_0. now apply exp_increasing. }
  rewrite coherence_lengths_geometric, coverage_q.
  fold N. rewrite geometric_sum by lra. field. lra.
Qed.

Lemma coverage_factor :
  (1 - sens c) / (1 - np_power (sens c) (1 / p c))
  = (1 - sens c) * exp t / (exp t - 1).
Proof.
  destruct Hvalid as (Hs & Hr & Hp).
  pose proof coverage_t_pos as Ht.
  assert (Hq : 1 < exp t).
  { rewrite <- exp_0. now apply exp_increasing. }
  assert (Ha : np_power (sens c) (1 / p c) = / exp t).
  { unfold np_power, Rpower, t. rewrite <- exp_Ropp. f_equal. field. lra. }
  rewrite Ha. field. split; lra.
Qed.

Lemma coverage_bounds :
  let S := vsum (coherence_lengths c (domain_count c)) in
  let F := (1 - sens c) / (1 - np_power (sens c) (1 / p c)) in
  F * (Rmax c - R_BLR c) <= S
  /\ S < F * (Rmax c * np_power (sens c) (- 1 / p c) - R_BLR c).
Proof.
  intros S F. subst S F.
  destruct Hvalid as (Hs & Hr & Hp).
  pose proof coverage_t_pos as Ht.
  assert (Hq : 1 < exp t).
  { rewrite <- exp_0. now apply exp_increasing. }
  pose proof coverage_power_bounds as [Hlo Hhi].
  rewrite coverage_sum, coverage_factor.
  unfold np_power. rewrite coverage_q.
  set (F := (1 - sens c) * exp t / (exp t - 1)).
  assert (HF : 0 < F).
  { unfold F. apply Rmult_lt_0_compat; [apply Rmult_lt_0_compat; lra|].
    apply Rinv_0_lt_compat. lra. }
  assert (Hrho : Rmax c = R_BLR c * rho).
  { unfold rho. field. lra. }
  rewrite Hrho. split.
  - replace (F * (R_BLR c * rho - R_BLR c)) with (R_BLR c * F * (rho - 1)) by ring.
    apply Rmult_le_compat_l; [|lra].
    left. apply Rmult_lt_0_compat; lra.
  - replace (F * (R_BLR c * rho * exp t - R_BLR c))
      with (R_BLR c * F * (exp t * rho - 1)) by ring.
    apply Rmult_lt_compat_l; [|lra].
    apply Rmult_lt_0_compat; lra.
Qed.

End Coverage.

(** C4 (as amended): for every valid configuration the coherence lengths sum
    to a value between [F * (Rmax - R_BLR)] (included) and
    [F * (Rmax * sens^(-1/p) - R_BLR)] (excluded), where
    [F = (1 - sens) / (1 - sens^(1/p))]; for [p = 1] the factor is 1 and the
    sum is at least [Rmax - R_BLR] and less than [Rmax / sens - R_BLR]. *)
Theorem grid_coverage (kw : kwargs) (st : PhotALPs_Jet) :
  valid_config (dict_update kw (params st)) ->
  let c := dict_update kw (params st) in
  let S := vsum (Lcoh (grid (final (update_params kw st)))) in
  let F := (1 - sens c) / (1 - np_power (sens c) (1 / p c)) in
  (F * (Rmax c - R_BLR c) <= S
   /\ S < F * (Rmax c * np_power (sens c) (- 1 / p c) - R_BLR c))
  /\ (p c = 1 -> Rmax c - R_BLR c <= S /\ S < Rmax c / sens c - R_BLR c).
Proof.
  intros Hv c S F.
  pose proof (domain_count_pos _ Hv) as Hnd.
  pose proof (update_params_ok kw st) as Hok. cbv zeta in Hok.
  assert (HS : S = vsum (coherence_lengths c (domain_count c))).
  { unfold S. rewrite Hok by lia. reflexivity. }
  pose proof (coverage_bounds c Hv) as Hb. cbv zeta in Hb.
  rewrite <- HS in Hb. fold F in Hb.
  split; [exact Hb|].
  intros Hp1. destruct Hv as (Hs & Hr & Hp).
  assert (HF : F = 1).
  { unfold F, np_power. rewrite Hp1.
    replace (1 / 1) with 1 by field. rewrite Rpower_1 by (apply Hs).
    field. fold c in Hs. lra. }
  assert (Hq : np_power (sens c) (- 1 / p c) = / sens c).
  { unfold np_power. rewrite Hp1.
    replace (- 1 / 1) with (- (1)) by field.
    rewrite Rpower_Ropp, Rpower_1 by (apply Hs). reflexivity. }
  rewrite HF, Hq in Hb. unfold Rdiv. lra.
Qed.

Lemma grid_coverage_witness :
  valid_config (dict_update (defaults two_domain_kwargs) (params blank))
  /\ 2 <= vsum (Lcoh (grid (final (__init__ two_domain_kwargs))))
  /\ vsum (Lcoh (grid (final (__init__ two_domain_kwargs)))) < 5.
Proof.
  assert (Hv : valid_config (dict_update (defaults two_domain_kwargs) (params blank))).
  { unfold valid_config. simpl. lra. }
  split; [exact Hv|].
  pose proof (grid_coverage (defaults two_domain_kwargs) blank Hv) as [_ H1].
  specialize (H1 eq_refl). unfold __init__. simpl in H1. lra.
Defined.

Lemma coarse_count : domain_count coarse_config = 1%Z.
Proof.
  unfold domain_count, ceil. cbn [p sens Rmax R_BLR coarse_config].
  assert (Hl2 : 0 < ln 2) by (rewrite <- ln_1; apply ln_increasing; lra).
  assert (Hq : ln 0.25 = - (2 * ln 2)).
  { replace 0.25 with (/ (2 * 2)) by lra.
    rewrite ln_Rinv, ln_mult by lra. lra. }
  apply Zceil_eq. rewrite Hq.
  replace (-1 * 1 * ln (2 / 1) / - (2 * ln 2)) with (/ 2).
  - simpl. lra.
  - replace (2 / 1) with 2 by field. field. lra.
Qed.

Lemma coarse_lengths : coherence_lengths coarse_config 1 = [3].
Proof.
  unfold coherence_lengths, vmap, linspace, np_power. simpl.
  replace (- (1) / 1) with (- (1)) by field.
  rewrite Rpower_Ropp, Rpower_1 by lra. f_equal. lra.
Qed.

Lemma coarse_params :
  dict_update (defaults coarse_kwargs) (params blank) = coarse_config.
Proof. reflexivity. Qed.

Lemma coarse_init_lengths :
  outcome (__init__ coarse_kwargs) = inr tt
  /\ Lcoh (grid (final (__init__ coarse_kwargs))) = [3].
Proof.
  unfold __init__.
  pose proof (update_params_ok (defaults coarse_kwargs) blank) as H.
  cbv zeta in H. rewrite coarse_params, coarse_count in H.
  rewrite H by lia. unfold outcome, final. cbn [fst snd grid Lcoh].
  split; [reflexivity|apply coarse_lengths].
Qed.

(** C4 (as stated) fails: for [R_BLR = 1], [Rmax = 2], [p = 1],
    [sens = 0.25] (a valid configuration with one domain) the coherence
    lengths sum to 3 while [Rmax - R_BLR = 1]; the sum is not within 100% of
    that value. *)
Lemma grid_coverage_not_close :
  valid_config coarse_config
  /\ outcome (__init__ coarse_kwargs) = inr tt
  /\ ~ within_relative 1 (vsum (Lcoh (grid (final (__init__ coarse_kwargs)))))
                         (Rmax coarse_config - R_BLR coarse_config).
Proof.
  destruct coarse_init_lengths as [Hok Hl].
  split; [unfold valid_config; simpl; lra|].
  split; [exact Hok|].
  rewrite Hl. unfold within_relative, vsum. simpl.
  replace (3 + 0 - (2 - 1)) with 2 by lra.
  replace (2 - 1) with 1 by lra.
  rewrite Rabs_R1, Rabs_right by lra. lra.
Qed.

(* ------------------------------------------------------------------ *)
(** ** Equal radii *)

Lemma domain_count_equal_radii (c : Config) :
  Rmax c = R_BLR c -> R_BLR c <> 0 -> domain_count c = 0%Z.
Proof.
  intros He Hnz. unfold domain_count, ceil. rewrite He.
  replace (R_BLR c / R_BLR c) with 1 by (field; exact Hnz).
  rewrite ln_1. apply Zceil_eq. simpl. unfold Rdiv.
  rewrite Rmult_0_r, Rmult_0_l. lra.
Qed.

(* ------------------------------------------------------------------ *)
(** ** Running the methods of the chain *)

Ltac run_method :=
  cbv [bind gets modify ret raise set_params set_grid set_transfer set_mixing
       np_zeros33 np_ones assign_T1 assign_T2 assign_T3
       params grid transfer mixing
       Nd Lcoh r Br nr Psin T1 T2 T3 Un
       Dperp Dpar Dag Da alph Dosc EW1 EW2 EW3
       set_Nd set_Lcoh set_r set_Br set_nr set_Psin set_T1 set_T2 set_T3 set_Un
       set_Dperp set_Dpar set_Dag set_Da set_alph set_Dosc set_EW1 set_EW2 set_EW3].

Ltac step_with H :=
  unfold bind at 1; rewrite H; cbv zeta;
  cbn [params grid transfer mixing Nd Lcoh r Br nr Psin T1 T2 T3 Un
       Dperp Dpar Dag Da alph Dosc EW1 EW2 EW3].

Section Running.

Context {D : DeltasModule}.

Lemma setDeltas_run (st : PhotALPs_Jet) :
  (0 <= Nd (grid st))%Z ->
  let c := params st in
  let gr := grid st in
  let pl := vmap (fun x => Delta_pl_kpc x (E c)) (vtimes (nr gr) 1e3) in
  let qed := vmap (fun x => Delta_QED_kpc x (E c)) (vtimes (Br gr) 1e6) in
  let dperp := vscale 1e-3 (vadd pl (vscale 2 qed)) in
  let dpar := vscale 1e-3 (vadd pl (vscale 3.5 qed)) in
  let dag := vscale 1e-3 (vmap (Delta_ag_kpc (g c)) (vtimes (Br gr) 1e6)) in
  let da := vscale 1e-3 (vscale (Delta_a_kpc (m c) (E c)) (repeat 1 (Z.to_nat (Nd gr)))) in
  let al := vscale 0.5 (vmap atan (vdiv (vscale 2 dag) (vsub dpar da))) in
  let dosc := vmap sqrt (vadd (np_square (vsub dpar da)) (vscale 4 (np_square dag))) in
  __setDeltas st =
  (inr tt,
   mkJet c gr (transfer st)
     (mkMixing dperp dpar dag da al dosc
        (EW1 (mixing st)) (EW2 (mixing st)) (EW3 (mixing st)))).
Proof.
  intros Hnd. destruct st as [c gr t mx]. destruct gr as [nd lc rr br nr0 ps].
  destruct mx. cbn [grid Nd] in Hnd.
  unfold __setDeltas. run_method.
  destruct (Z.ltb_spec nd 0) as [Hneg|_]; [lia|]. reflexivity.
Qed.

Lemma setEW_run (st : PhotALPs_Jet) :
  (0 <= Nd (grid st))%Z ->
  let c := params st in
  let gr := grid st in
  let pl := vmap (fun x => Delta_pl_kpc x (E c)) (vtimes (nr gr) 1e3) in
  let qed := vmap (fun x => Delta_QED_kpc x (E c)) (vtimes (Br gr) 1e6) in
  let dperp := vscale 1e-3 (vadd pl (vscale 2 qed)) in
  let dpar := vscale 1e-3 (vadd pl (vscale 3.5 qed)) in
  let dag := vscale 1e-3 (vmap (Delta_ag_kpc (g c)) (vtimes (Br gr) 1e6)) in
  let da := vscale 1e-3 (vscale (Delta_a_kpc (m c) (E c)) (repeat 1 (Z.to_nat (Nd gr)))) in
  let al := vscale 0.5 (vmap atan (vdiv (vscale 2 dag) (vsub dpar da))) in
  let dosc := vmap sqrt (vadd (np_square (vsub dpar da)) (vscale 4 (np_square dag))) in
  let ew2 := vscale 0.5 (vsub (vadd dpar da) dosc) in
  let ew3 := vscale 0.5 (vadd (vadd dpar da) dosc) in
  __setEW st =
  (inr tt,
   mkJet c gr (transfer st) (mkMixing dperp dpar dag da al dosc dperp ew2 ew3)).
Proof.
  intros Hnd. cbv zeta. unfold __setEW. unfold bind at 1.
  pose proof (setDeltas_run st Hnd) as H. cbv zeta in H. rewrite H. clear H.
  destruct st as [c gr t mx]. run_method. reflexivity.
Qed.

(** The three projector builders change [T1], [T2] and [T3] only. *)
Lemma setT1n_run (st : PhotALPs_Jet) :
  let cs := vmap cos (Psin (grid st)) in
  let sn := vmap sin (Psin (grid st)) in
  let t1a := set (T1 (transfer st)) i0 i0 (vcast (vmul cs cs)) in
  let t1b := set t1a i1 i0 (get t1a i0 i1) in
  let t1 := set t1b i1 i1 (vcast (vmul sn sn)) in
  __setT1n st =
  (inr tt,
   mkJet (params st) (grid st)
     (mkTransfer t1 (T2 (transfer st)) (T3 (transfer st)) (Un (transfer st)))
     (mixing st)).
Proof.
  destruct st as [c gr t mx]. destruct t. unfold __setT1n. run_method. reflexivity.
Qed.

Lemma setT2n_run (st : PhotALPs_Jet) :
  let cs := vmap cos (Psin (grid st)) in
  let ca := vmap cos (alph (mixing st)) in
  let sa := vmap sin (alph (mixing st)) in
  let t2a := set (T2 (transfer st)) i1 i0 (get (T2 (transfer st)) i0 i1) in
  let t2b := set t2a i1 i1 (vcast (vmul (vmul (vmul cs cs) sa) sa)) in
  let t2c := set t2b i1 i2 (vcast (vmul (vmul (vscale (-1) cs) ca) sa)) in
  let t2d := set t2c i2 i0 (get t2c i0 i2) in
  let t2e := set t2d i2 i1 (get t2d i1 i2) in
  let t2 := set t2e i2 i2 (vcast (vmul ca ca)) in
  __setT2n st =
  (inr tt,
   mkJet (params st) (grid st)
     (mkTransfer (T1 (transfer st)) t2 (T3 (transfer st)) (Un (transfer st)))
     (mixing st)).
Proof.
  destruct st as [c gr t mx]. destruct t. unfold __setT2n. run_method. reflexivity.
Qed.

Lemma setT3n_run (st : PhotALPs_Jet) :
  let cs := vmap cos (Psin (grid st)) in
  let ca := vmap cos (alph (mixing st)) in
  let sa := vmap sin (alph (mixing st)) in
  let t3a := set (T3 (transfer st)) i1 i0 (get (T3 (transfer st)) i0 i1) in
  let t3b := set t3a i1 i1 (vcast (vmul (vmul (vmul cs cs) ca) ca)) in
  let t3c := set t3b i1 i2 (vcast (vmul (vmul cs sa) ca)) in
  let t3d := set t3c i2 i0 (get t3c i0 i2) in
  let t3e := set t3d i2 i1 (get t3d i1 i2) in
  let t3 := set t3e i2 i2 (vcast (vmul sa sa)) in
  __setT3n st =
  (inr tt,
   mkJet (params st) (grid st)
     (mkTransfer (T1 (transfer st)) (T2 (transfer st)) t3 (Un (transfer st)))
     (mixing st)).
Proof.
  destruct st as [c gr t mx]. destruct t. unfold __setT3n. run_method. reflexivity.
Qed.

Lemma setUn_run (st : PhotALPs_Jet) :
  let lc := Lcoh (grid st) in
  let mx := mixing st in
  let t := transfer st in
  __setUn st =
  (inr tt,
   mkJet (params st) (grid st)
     (mkTransfer (T1 t) (T2 t) (T3 t)
        (aadd (aadd (bmul (phase (EW1 mx) lc) (T1 t)) (bmul (phase (EW2 mx) lc) (T2 t)))
              (bmul (phase (EW3 mx) lc) (T3 t))))
     (mixing st)).
Proof.
  destruct st as [c gr t mx]. destruct t. unfold __setUn. run_method. reflexivity.
Qed.

(** The state and the result of [SetDomainN], statement by statement. *)
Lemma SetDomainN_run (st : PhotALPs_Jet) :
  (0 <= Nd (grid st))%Z ->
  let c := params st in
  let gr := grid st in
  let pl := vmap (fun x => Delta_pl_kpc x (E c)) (vtimes (nr gr) 1e3) in
  let qed := vmap (fun x => Delta_QED_kpc x (E c)) (vtimes (Br gr) 1e6) in
  let dperp := vscale 1e-3 (vadd pl (vscale 2 qed)) in
  let dpar := vscale 1e-3 (vadd pl (vscale 3.5 qed)) in
  let dag := vscale 1e-3 (vmap (Delta_ag_kpc (g c)) (vtimes (Br gr) 1e6)) in
  let da := vscale 1e-3 (vscale (Delta_a_kpc (m c) (E c)) (repeat 1 (Z.to_nat (Nd gr)))) in
  let al := vscale 0.5 (vmap atan (vdiv (vscale 2 dag) (vsub dpar da))) in
  let dosc := vmap sqrt (vadd (np_square (vsub dpar da)) (vscale 4 (np_square dag))) in
  let ew2 := vscale 0.5 (vsub (vadd dpar da) dosc) in
  let ew3 := vscale 0.5 (vadd (vadd dpar da) dosc) in
  let cs := vmap cos (Psin gr) in
  let sn := vmap sin (Psin gr) in
  let ca := vmap cos al in
  let sa := vmap sin al in
  let t1a := set (T1 (transfer st)) i0 i0 (vcast (vmul cs cs)) in
  let t1b := set t1a i1 i0 (get t1a i0 i1) in
  let t1 := set t1b i1 i1 (vcast (vmul sn sn)) in
  let t2a := set (T2 (transfer st)) i1 i0 (get (T2 (transfer st)) i0 i1) in
  let t2b := set t2a i1 i1 (vcast (vmul (vmul (vmul cs cs) sa) sa)) in
  let t2c := set t2b i1 i2 (vcast (vmul (vmul (vscale (-1) cs) ca) sa)) in
  let t2d := set t2c i2 i0 (get t2c i0 i2) in
  let t2e := set t2d i2 i1 (get t2d i1 i2) in
  let t2 := set t2e i2 i2 (vcast (vmul ca ca)) in
  let t3a := set (T3 (transfer st)) i1 i0 (get (T3 (transfer st)) i0 i1) in
  let t3b := set t3a i1 i1 (vcast (vmul (vmul (vmul cs cs) ca) ca)) in
  let t3c := set t3b i1 i2 (vcast (vmul (vmul cs sa) ca)) in
  let t3d := set t3c i2 i0 (get t3c i0 i2) in
  let t3e := set t3d i2 i1 (get t3d i1 i2) in
  let t3 := set t3e i2 i2 (vcast (vmul sa sa)) in
  let lc := Lcoh gr in
  let un := aadd (aadd (bmul (phase dperp lc) t1) (bmul (phase ew2 lc) t2))
                 (bmul (phase ew3 lc) t3) in
  SetDomainN st =
  (match chain un with
   | Some U => inr U
   | None => inl (UnboundLocalError "U")
   end,
   mkJet c gr (mkTransfer t1 t2 t3 un)
     (mkMixing dperp dpar dag da al dosc dperp ew2 ew3)).
Proof.
  intros Hnd. cbv zeta.
  unfold SetDomainN.
  step_with (setEW_run st Hnd).
  step_with setT1n_run.
  step_with setT2n_run.
  step_with setT3n_run.
  step_with setUn_run.
  unfold bind, gets. cbn [transfer Un].
  match goal with |- context [chain ?u] => destruct (chain u) end; reflexivity.
Qed.

End Running.

(* ------------------------------------------------------------------ *)
(** ** Consistency of the reachable objects *)

Ltac destruct_mat M :=
  let r0 := fresh "r" in let r1 := fresh "r" in let r2 := fresh "r" in
  destruct M as [[r0 r1] r2];
  destruct r0 as [[? ?] ?]; destruct r1 as [[? ?] ?]; destruct r2 as [[? ?] ?].

Lemma update_params_inv (kw : kwargs) (st st' : PhotALPs_Jet) :
  update_params kw st = (inr tt, st') ->
  (0 <= domain_count (dict_update kw (params st)))%Z.
Proof.
  intros H.
  destruct (Z.lt_ge_cases (domain_count (dict_update kw (params st))) 0) as [Hneg|Hpos];
    [|exact Hpos].
  pose proof (update_params_neg kw st Hneg) as He.
  unfold outcome in He. rewrite H in He. discriminate He.
Qed.

Lemma update_params_consistent (kw : kwargs) (st st' : PhotALPs_Jet) :
  update_params kw st = (inr tt, st') -> consistent st'.
Proof.
  intros H. pose proof (update_params_inv kw st st' H) as Hnd.
  pose proof (update_params_ok kw st) as Hok. cbv zeta in Hok.
  rewrite Hok in H by exact Hnd. injection H as <-.
  unfold consistent, top_row_zero, ndom.
  cbn [params grid transfer Nd Lcoh r Br nr Psin T1 T2 T3].
  unfold coherence_lengths, radii, vmap.
  rewrite !length_map, !linspace_length.
  repeat split; try reflexivity. exact Hnd.
Qed.

Section Invariant.

Context {D : DeltasModule}.

Lemma SetDomainN_consistent (st : PhotALPs_Jet) :
  consistent st -> consistent (final (SetDomainN st)).
Proof.
  intros Hc. pose proof Hc as (Hnd & _).
  pose proof (SetDomainN_run st Hnd) as Hrun. cbv zeta in Hrun.
  rewrite Hrun. clear Hrun. unfold final. cbn [snd].
  unfold consistent, top_row_zero, ndom in *.
  cbn [params grid transfer Nd Lcoh r Br nr Psin T1 T2 T3] in *.
  destruct_mat (T1 (transfer st)).
  destruct_mat (T2 (transfer st)).
  destruct_mat (T3 (transfer st)).
  cbn [get set sel upd] in *. tauto.
Qed.

Lemma analytical_U_frame (st : PhotALPs_Jet) : final (analytical_U st) = st.
Proof. reflexivity. Qed.

Lemma reachable_consistent (st : PhotALPs_Jet) : reachable st -> consistent st.
Proof.
  induction 1 as [kw st _ H|kw st st' _ _ _ H|st _ IH|st _ IH].
  - unfold __init__ in H. now apply update_params_consistent in H.
  - now apply update_params_consistent in H.
  - now apply SetDomainN_consistent.
  - now rewrite analytical_U_frame.
Qed.

End Invariant.

(* ------------------------------------------------------------------ *)
(** ** The two-domain object is reachable *)

Lemma two_domain_Nd : Nd (grid two_domain_jet) = 2%Z.
Proof. unfold two_domain_jet. rewrite two_domain_init. reflexivity. Qed.

Section TwoDomain.

Context {D : DeltasModule}.

Lemma two_domain_init_eq : __init__ two_domain_kwargs = (inr tt, two_domain_jet).
Proof. unfold two_domain_jet. rewrite two_domain_init. reflexivity. Qed.

Lemma two_domain_consistent : consistent two_domain_jet.
Proof.
  exact (update_params_consistent _ _ _ two_domain_init_eq).
Qed.

Lemma two_domain_logs :
  logs_defined (dict_update (defaults two_domain_kwargs) (params blank)).
Proof. unfold logs_defined. simpl. lra. Qed.

Lemma two_domain_reachable : reachable two_domain_jet.
Proof.
  exact (reach_init two_domain_kwargs two_domain_jet two_domain_logs two_domain_init_eq).
Qed.

Lemma two_domain_ndom : ndom two_domain_jet = 2%nat.
Proof. unfold ndom. rewrite two_domain_Nd. reflexivity. Qed.

Lemma two_domain_Psi : Psi (params two_domain_jet) = 0.
Proof. unfold two_domain_jet. rewrite two_domain_init. reflexivity. Qed.

End TwoDomain.

(* ------------------------------------------------------------------ *)
(** ** Entries of vectors *)

Lemma length_vmap2 {A B E} (f : A -> B -> E) (u : list A) (v : list B) :
  List.length (vmap2 f u v) = Nat.min (List.length u) (List.length v).
Proof. unfold vmap2. now rewrite length_map, length_combine. Qed.

Lemma nth_vmap2 {A B E} (f : A -> B -> E) (u : list A) (v : list B)
      (k : nat) (da : A) (db : B) (de : E) :
  (k < List.length u)%nat -> (k < List.length v)%nat ->
  nth k (vmap2 f u v) de = f (nth k u da) (nth k v db).
Proof.
  revert k v. induction u as [|x u IH]; intros k v Hu Hv.
  - simpl in Hu. lia.
  - destruct v as [|y v]; [simpl in Hv; lia|].
    destruct k as [|k]; [reflexivity|].
    unfold vmap2 in *. cbn [combine map nth]. apply IH; simpl in *; lia.
Qed.

Lemma nth_vmap {A B} (f : A -> B) (v : list A) (k : nat) (da : A) (db : B) :
  (k < List.length v)%nat -> nth k (vmap f v) db = f (nth k v da).
Proof.
  revert k. induction v as [|x v IH]; intros k Hk.
  - simpl in Hk. lia.
  - destruct k as [|k]; [reflexivity|].
    unfold vmap in *. cbn [map nth]. apply IH. simpl in Hk. lia.
Qed.

Ltac solve_len :=
  unfold phase, vcast, vscale, vtimes, np_square, vadd, vsub, vmul, vdiv,
         vaddC, vmulC, vmap in *;
  repeat (rewrite length_vmap2 || rewrite length_map || rewrite repeat_length);
  try lia.

(* ------------------------------------------------------------------ *)
(** ** The single-step estimator *)

(** C10: [analytical_U] leaves every attribute of the object as it was; it
    returns a new matrix with 1 in the corner and the block
    [[cos x, i sin x], [i sin x, cos x]]; the matrix depends on the object
    through the configuration keys g, B, p, R_BLR and Rmax only. *)
Theorem analytical_U_reads_only {D : DeltasModule} (st : PhotALPs_Jet) :
  final (analytical_U st) = st
  /\ (exists x : R,
        outcome (analytical_U st)
        = inr ((of_R 1, C0, C0),
               (C0, of_R (cos x), j_times (sin x)),
               (C0, j_times (sin x), of_R (cos x))))
  /\ (forall (k : key) (v : R) (gr : Grid) (tr : Transfer) (mx : Mixing),
        analytical_U_reads k = false ->
        outcome (analytical_U (mkJet (set_param k v (params st)) gr tr mx))
        = outcome (analytical_U st)).
Proof.
  split; [reflexivity|]. split; [eexists; reflexivity|].
  intros k v gr tr mx Hk.
  destruct k; try discriminate Hk; reflexivity.
Qed.

Lemma analytical_U_reads_only_witness :
  analytical_U_reads K_sens = false
  /\ final (analytical_U (D := two_domain_deltas) two_domain_jet) = two_domain_jet
  /\ outcome (analytical_U (D := two_domain_deltas)
                (mkJet (set_param K_sens 0.9 (params two_domain_jet))
                   (grid blank) (transfer blank) (mixing blank)))
     = outcome (analytical_U (D := two_domain_deltas) two_domain_jet).
Proof.
  assert (Hk : analytical_U_reads K_sens = false) by reflexivity.
  split; [exact Hk|].
  split.
  - exact (proj1 (analytical_U_reads_only (D := two_domain_deltas) two_domain_jet)).
  - exact (proj2 (proj2 (analytical_U_reads_only (D := two_domain_deltas) two_domain_jet))
             K_sens 0.9 (grid blank) (transfer blank) (mixing blank) Hk).
Defined.

(* ------------------------------------------------------------------ *)
(** ** Oscillation scale and eigenvalues *)

Lemma Forall_sqrt_nonneg (v : list R) : Forall (Rle 0) (vmap sqrt v).
Proof.
  unfold vmap. apply Forall_map. apply Forall_forall. intros x _. apply sqrt_pos.
Qed.

Lemma eigenvalues_ordered (a d : list R) :
  Forall (Rle 0) d ->
  Forall2 Rle (vscale 0.5 (vsub a d)) (vscale 0.5 (vadd a d)).
Proof.
  revert d. induction a as [|x a IH]; intros d Hd.
  - constructor.
  - destruct d as [|y d]; [constructor|].
    inversion Hd as [|? ? Hy Hd']; subst.
    unfold vscale, vsub, vadd, vmap2 in *. cbn [combine map fst snd].
    constructor; [lra|]. now apply IH.
Qed.

(** C8: in every domain of a reachable object, whatever the collaborators
    return, the oscillation scale [Dosc] is non-negative and the eigenvalue
    [EW2] is at most [EW3]. *)
Theorem Dosc_nonneg_EW_ordered {D : DeltasModule} (st : PhotALPs_Jet) :
  reachable st ->
  outcome (__setEW st) = inr tt
  /\ List.length (Dosc (mixing (final (__setEW st)))) = ndom st
  /\ Forall (Rle 0) (Dosc (mixing (final (__setEW st))))
  /\ List.length (EW2 (mixing (final (__setEW st)))) = ndom st
  /\ Forall2 Rle (EW2 (mixing (final (__setEW st)))) (EW3 (mixing (final (__setEW st)))).
Proof.
  intros Hr.
  pose proof (reachable_consistent st Hr) as (Hnd & HL & HB & Hn & _).
  pose proof (setEW_run st Hnd) as H. cbv zeta in H.
  rewrite H. clear H. unfold outcome, final, ndom in *.
  cbn [fst snd mixing Dosc EW2 EW3].
  split; [reflexivity|]. split; [|split; [|split]].
  - solve_len.
  - apply Forall_sqrt_nonneg.
  - solve_len.
  - apply eigenvalues_ordered. apply Forall_sqrt_nonneg.
Qed.

Lemma Dosc_nonneg_EW_ordered_witness :
  reachable (D := two_domain_deltas) two_domain_jet
  /\ Forall (Rle 0)
       (Dosc (mixing (final (__setEW (D := two_domain_deltas) two_domain_jet))))
  /\ Forall2 Rle
       (EW2 (mixing (final (__setEW (D := two_domain_deltas) two_domain_jet))))
       (EW3 (mixing (final (__setEW (D := two_domain_deltas) two_domain_jet)))).
Proof.
  split; [exact two_domain_reachable|].
  pose proof (Dosc_nonneg_EW_ordered (D := two_domain_deltas) two_domain_jet
                two_domain_reachable) as (_ & _ & H1 & _ & H2).
  split; assumption.
Defined.

(* ------------------------------------------------------------------ *)
(** ** The projector arrays *)

Section Projectors.

Context {D : DeltasModule}.

Lemma builders_run (st : PhotALPs_Jet) :
  let cs := vmap cos (Psin (grid st)) in
  let sn := vmap sin (Psin (grid st)) in
  let ca := vmap cos (alph (mixing st)) in
  let sa := vmap sin (alph (mixing st)) in
  let t1a := set (T1 (transfer st)) i0 i0 (vcast (vmul cs cs)) in
  let t1b := set t1a i1 i0 (get t1a i0 i1) in
  let t1 := set t1b i1 i1 (vcast (vmul sn sn)) in
  let t2a := set (T2 (transfer st)) i1 i0 (get (T2 (transfer st)) i0 i1) in
  let t2b := set t2a i1 i1 (vcast (vmul (vmul (vmul cs cs) sa) sa)) in
  let t2c := set t2b i1 i2 (vcast (vmul (vmul (vscale (-1) cs) ca) sa)) in
  let t2d := set t2c i2 i0 (get t2c i0 i2) in
  let t2e := set t2d i2 i1 (get t2d i1 i2) in
  let t2 := set t2e i2 i2 (vcast (vmul ca ca)) in
  let t3a := set (T3 (transfer st)) i1 i0 (get (T3 (transfer st)) i0 i1) in
  let t3b := set t3a i1 i1 (vcast (vmul (vmul (vmul cs cs) ca) ca)) in
  let t3c := set t3b i1 i2 (vcast (vmul (vmul cs sa) ca)) in
  let t3d := set t3c i2 i0 (get t3c i0 i2) in
  let t3e := set t3d i2 i1 (get t3d i1 i2) in
  let t3 := set t3e i2 i2 (vcast (vmul sa sa)) in
  (__setT1n ;; __setT2n ;; __setT3n) st =
  (inr tt,
   mkJet (params st) (grid st) (mkTransfer t1 t2 t3 (Un (transfer st))) (mixing st)).
Proof.
  cbv zeta.
  step_with setT1n_run.
  step_with setT2n_run.
  rewrite setT3n_run. reflexivity.
Qed.

(** With [Psi = 0], in a domain [k] where the mixing angle is [a], the
    entries of the three arrays add up to the identity. *)
Lemma projector_sum_entries (ps al : list R) (N k : nat) (t1 t2 t3 : Arr33) :
  ps = vmap (fun x => x * 0) (repeat 1 N) ->
  List.length al = N -> (k < N)%nat ->
  get t1 i0 i1 = repeat C0 N -> get t1 i0 i2 = repeat C0 N ->
  get t1 i1 i2 = repeat C0 N -> get t1 i2 i0 = repeat C0 N ->
  get t1 i2 i1 = repeat C0 N -> get t1 i2 i2 = repeat C0 N ->
  get t2 i0 i0 = repeat C0 N -> get t2 i0 i1 = repeat C0 N ->
  get t2 i0 i2 = repeat C0 N ->
  get t3 i0 i0 = repeat C0 N -> get t3 i0 i1 = repeat C0 N ->
  get t3 i0 i2 = repeat C0 N ->
  let cs := vmap cos ps in
  let sn := vmap sin ps in
  let ca := vmap cos al in
  let sa := vmap sin al in
  let t1a := set t1 i0 i0 (vcast (vmul cs cs)) in
  let t1b := set t1a i1 i0 (get t1a i0 i1) in
  let t1' := set t1b i1 i1 (vcast (vmul sn sn)) in
  let t2a := set t2 i1 i0 (get t2 i0 i1) in
  let t2b := set t2a i1 i1 (vcast (vmul (vmul (vmul cs cs) sa) sa)) in
  let t2c := set t2b i1 i2 (vcast (vmul (vmul (vscale (-1) cs) ca) sa)) in
  let t2d := set t2c i2 i0 (get t2c i0 i2) in
  let t2e := set t2d i2 i1 (get t2d i1 i2) in
  let t2' := set t2e i2 i2 (vcast (vmul ca ca)) in
  let t3a := set t3 i1 i0 (get t3 i0 i1) in
  let t3b := set t3a i1 i1 (vcast (vmul (vmul (vmul cs cs) ca) ca)) in
  let t3c := set t3b i1 i2 (vcast (vmul (vmul cs sa) ca)) in
  let t3d := set t3c i2 i0 (get t3c i0 i2) in
  let t3e := set t3d i2 i1 (get t3d i1 i2) in
  let t3' := set t3e i2 i2 (vcast (vmul sa sa)) in
  madd (madd (slice t1' k) (slice t2' k)) (slice t3' k) = eye3.
Proof.
  intros Hps Hal Hk H01 H02 H12 H20 H21 H22 G00 G01 G02 K00 K01 K02.
  cbv zeta.
  destruct_mat t1. destruct_mat t2. destruct_mat t3.
  cbn [get set sel upd] in *. subst.
  set (N := List.length al) in *.
  set (a := nth k al 0).
  assert (Lps : List.length (vmap (fun x => x * 0) (repeat 1 N)) = N) by solve_len.
  assert (Hp : nth k (vmap (fun x => x * 0) (repeat 1 N)) 0 = 0).
  { rewrite (nth_vmap _ _ _ 1) by solve_len. ring. }
  assert (Hcs : nth k (vmap cos (vmap (fun x => x * 0) (repeat 1 N))) 0 = 1).
  { rewrite (nth_vmap _ _ _ 0) by exact (eq_ind_r (fun n => (k < n)%nat) Hk Lps).
    rewrite Hp. apply cos_0. }
  assert (Hsn : nth k (vmap sin (vmap (fun x => x * 0) (repeat 1 N))) 0 = 0).
  { rewrite (nth_vmap _ _ _ 0) by exact (eq_ind_r (fun n => (k < n)%nat) Hk Lps).
    rewrite Hp. apply sin_0. }
  assert (Hca : nth k (vmap cos al) 0 = cos a) by (apply nth_vmap; exact Hk).
  assert (Hsa : nth k (vmap sin al) 0 = sin a) by (apply nth_vmap; exact Hk).
  assert (Lcs : List.length (vmap cos (vmap (fun x => x * 0) (repeat 1 N))) = N) by solve_len.
  assert (Lsn : List.length (vmap sin (vmap (fun x => x * 0) (repeat 1 N))) = N) by solve_len.
  assert (Lca : List.length (vmap cos al) = N) by solve_len.
  assert (Lsa : List.length (vmap sin al) = N) by solve_len.
  set (cs := vmap cos (vmap (fun x => x * 0) (repeat 1 N))) in *.
  set (sn := vmap sin (vmap (fun x => x * 0) (repeat 1 N))) in *.
  set (ca := vmap cos al) in *.
  set (sa := vmap sin al) in *.
  assert (Hmul : forall u v, List.length u = N -> List.length v = N ->
             nth k (vmul u v) 0 = nth k u 0 * nth k v 0).
  { intros u v Hu Hv. unfold vmul. apply nth_vmap2; lia. }
  assert (Lmul : forall u v, List.length u = N -> List.length v = N ->
             List.length (vmul u v) = N).
  { intros u v Hu Hv. unfold vmul. rewrite length_vmap2. lia. }
  assert (Lneg : List.length (vscale (-1) cs) = N).
  { unfold vscale. now rewrite length_map. }
  assert (Hneg : nth k (vscale (-1) cs) 0 = -1 * 1).
  { unfold vscale. fold (vmap (Rmult (-1)) cs).
    rewrite (nth_vmap _ _ _ 0) by lia. now rewrite Hcs. }
  assert (Hcast : forall v, nth k (vcast v) C0 = of_R (nth k v 0)).
  { intros v. unfold vcast. apply (map_nth of_R v 0 k). }
  pose proof (sin2_cos2 a) as Hsc. unfold Rsqr in Hsc.
  unfold madd, slice, mmap, mmap2, rmap, rmap2, eye3.
  rewrite !nth_repeat, !Hcast.
  rewrite !Hmul by auto.
  rewrite Hcs, Hsn, Hca, Hsa, Hneg.
  unfold Cadd, of_R, C0, C1. cbn [Re Im].
  repeat match goal with |- (_, _) = (_, _) => f_equal end;
    f_equal; nra.
Qed.

End Projectors.

Section ProjectorClaims.

Context {D : DeltasModule}.

(** The mixing angles computed by [__setDeltas] are one for each domain. *)
Lemma SetDomainN_alph_length (st : PhotALPs_Jet) :
  consistent st ->
  List.length (alph (mixing (final (SetDomainN st)))) = ndom st.
Proof.
  intros (Hnd & HL & HB & Hn & _).
  pose proof (SetDomainN_run st Hnd) as Hrun. cbv zeta in Hrun.
  rewrite Hrun. unfold final, ndom in *. cbn [snd mixing alph].
  solve_len.
Qed.

(** C9: with [Psi = 0], in every domain and for every mixing angle, the
    three arrays left by the builders [__setT1n], [__setT2n], [__setT3n] add
    up to the 3x3 identity, although the first rows of [T2] and [T3] stay
    zero; in particular after [SetDomainN], in every domain whose mixing
    angle is the quotient of a non-zero divisor. *)
Theorem projectors_sum_to_identity (st : PhotALPs_Jet) (k : nat) :
  reachable st -> Psi (params st) = 0 -> (k < ndom st)%nat ->
  (forall al : list R,
      List.length al = ndom st ->
      projector_sum (final ((__setT1n ;; __setT2n ;; __setT3n) (with_alph al st))) k = eye3)
  /\ (nth k (Dpar (mixing (final (SetDomainN st)))) 0
      <> nth k (Da (mixing (final (SetDomainN st)))) 0 ->
      projector_sum (final (SetDomainN st)) k = eye3).
Proof.
  intros Hr HPsi Hk.
  pose proof (reachable_consistent st Hr) as Hc.
  pose proof Hc as (Hnd & HL & HB & Hn & Hps & Htop & H12 & H20 & H21 & H22).
  destruct Htop as (H01 & H02 & G00 & G01 & G02 & K00 & K01 & K02).
  cbv zeta in *. rewrite HPsi in Hps.
  split.
  - intros al Hal. rewrite builders_run. unfold final, projector_sum, with_alph.
    cbn [snd params grid transfer mixing T1 T2 T3 alph set_alph].
    now apply (projector_sum_entries (Psin (grid st)) al (ndom st) k).
  - intros _.
    pose proof (SetDomainN_alph_length st Hc) as Hal.
    pose proof (SetDomainN_run st Hnd) as Hrun. cbv zeta in Hrun.
    rewrite Hrun in Hal |- *. unfold final, projector_sum in *.
    cbn [snd params grid transfer mixing T1 T2 T3 alph] in *.
    now apply (projector_sum_entries (Psin (grid st)) _ (ndom st) k).
Qed.

(** C3 (as amended): in every reachable object, before and after
    [SetDomainN], the entries (0,1) and (0,2) of [T1] and the entries (0,0),
    (0,1), (0,2) of [T2] and of [T3] are zero in every domain; the entry
    (0,0) of [T1] is assigned [cos(Psi)^2]. *)
Theorem top_row_unassigned (st : PhotALPs_Jet) :
  reachable st ->
  top_row_zero st
  /\ top_row_zero (final (SetDomainN st))
  /\ get (T1 (transfer (final (SetDomainN st)))) i0 i0
     = vcast (vmul (vmap cos (Psin (grid st))) (vmap cos (Psin (grid st)))).
Proof.
  intros Hr.
  pose proof (reachable_consistent st Hr) as Hc.
  pose proof (reachable_consistent _ (reach_SetDomainN st Hr)) as Hc'.
  split; [apply Hc|]. split; [apply Hc'|].
  destruct Hc as (Hnd & _).
  pose proof (SetDomainN_run st Hnd) as Hrun. cbv zeta in Hrun.
  rewrite Hrun. unfold final. cbn [snd transfer T1].
  destruct_mat (T1 (transfer st)). reflexivity.
Qed.

End ProjectorClaims.

Lemma top_row_unassigned_witness :
  reachable (D := two_domain_deltas) two_domain_jet
  /\ top_row_zero (final (SetDomainN (D := two_domain_deltas) two_domain_jet)).
Proof.
  split; [exact two_domain_reachable|].
  exact (proj1 (proj2 (top_row_unassigned (D := two_domain_deltas) two_domain_jet
                         two_domain_reachable))).
Defined.

(** C3 (as stated) fails: in the two-domain object ([Psi = 0]) the entry
    (0,0) of [T1] is assigned by [__setT1n] and is 1, not 0, in domain 0. *)
Lemma T1_corner_assigned :
  reachable (D := two_domain_deltas) two_domain_jet
  /\ (0 < ndom two_domain_jet)%nat
  /\ nth 0 (get (T1 (transfer (final (SetDomainN (D := two_domain_deltas) two_domain_jet))))
              i0 i0) C0 = C1
  /\ C1 <> C0.
Proof.
  split; [exact two_domain_reachable|].
  split; [rewrite two_domain_ndom; lia|].
  split.
  - assert (Hnd : (0 <= Nd (grid two_domain_jet))%Z) by (rewrite two_domain_Nd; lia).
    pose proof (SetDomainN_run (D := two_domain_deltas) two_domain_jet Hnd) as Hrun.
    cbv zeta in Hrun. rewrite Hrun. clear Hrun. unfold final. cbn [snd transfer T1].
    destruct_mat (T1 (transfer two_domain_jet)). cbn [get set sel upd].
    unfold two_domain_jet. rewrite two_domain_init. unfold final.
    cbn [snd grid Psin]. unfold vcast, vmul, vmap2, vmap.
    cbn [repeat map combine nth fst snd Psi two_domain_config].
    replace (1 * 0) with 0 by ring. rewrite cos_0. unfold of_R, C1. f_equal. ring.
  - unfold C1, C0. intros H. injection H as H. lra.
Qed.

(* ------------------------------------------------------------------ *)
(** ** The chain of propagators *)

Ltac destruct_cmat M :=
  destruct_mat M;
  repeat match goal with x : C |- _ => destruct x end.

Lemma np_dot_assoc (P Q S : Mat3 C) :
  np_dot (np_dot P Q) S = np_dot P (np_dot Q S).
Proof.
  destruct_cmat P. destruct_cmat Q. destruct_cmat S.
  unfold np_dot, dot_entry. cbn [get sel].
  unfold Cadd, Cmul. cbn [Re Im].
  repeat match goal with |- (_, _) = (_, _) => apply f_equal2 end;
    apply f_equal2; ring.
Qed.

Lemma np_dot_eye_r (P : Mat3 C) : np_dot P eye3 = P.
Proof.
  destruct_cmat P.
  unfold np_dot, dot_entry, eye3. cbn [get sel].
  unfold Cadd, Cmul, C0, C1. cbn [Re Im].
  repeat match goal with |- (_, _) = (_, _) => apply f_equal2 end;
    apply f_equal2; ring.
Qed.

(** The left-nested product of the loop is the product in the order of the
    sequence. *)
Lemma fold_left_np_dot (l : list (Mat3 C)) (P : Mat3 C) :
  fold_left np_dot l P = ordered_product (P :: l).
Proof.
  revert P. induction l as [|Q l IH]; intros P.
  - simpl. now rewrite np_dot_eye_r.
  - cbn [fold_left]. rewrite IH. unfold ordered_product. cbn [fold_right].
    now rewrite np_dot_assoc.
Qed.

Lemma chain_from (un : Arr33) (U : Mat3 C) (l : list nat) :
  Forall (fun i => i <> 0%nat) l ->
  fold_left (chain_step un) l (Some U)
  = Some (fold_left np_dot (map (slice un) l) U).
Proof.
  revert U. induction l as [|i l IH]; intros U Hl.
  - reflexivity.
  - inversion Hl as [|? ? Hi Hl']; subst.
    cbn [fold_left map]. unfold chain_step at 2.
    destruct (Nat.eqb_spec i 0) as [->|_]; [contradiction|].
    now apply IH.
Qed.

Lemma chain_nonempty (un : Arr33) (N : nat) :
  shape2 un = S N ->
  chain un = Some (ordered_product (map (slice un) (seq 0 (S N)))).
Proof.
  intros Hs. unfold chain. rewrite Hs. cbn [seq fold_left map].
  unfold chain_step at 2. cbn [Nat.eqb].
  rewrite chain_from.
  - now rewrite fold_left_np_dot.
  - apply Forall_forall. intros i Hi. apply in_seq in Hi. lia.
Qed.

Lemma chain_empty (un : Arr33) : shape2 un = 0%nat -> chain un = None.
Proof. intros Hs. unfold chain. now rewrite Hs. Qed.

Section Chain.

Context {D : DeltasModule}.

(** After [__setUn] the array [Un] has one slice for each domain. *)
Lemma SetDomainN_shape (st : PhotALPs_Jet) :
  consistent st ->
  shape2 (Un (transfer (final (SetDomainN st)))) = ndom st.
Proof.
  intros (Hnd & HL & HB & Hn & Hps & Htop & _).
  destruct Htop as (_ & _ & G00 & _ & _ & K00 & _).
  cbv zeta in *.
  pose proof (SetDomainN_run st Hnd) as Hrun. cbv zeta in Hrun.
  rewrite Hrun. clear Hrun. unfold final, ndom in *. cbn [snd transfer Un].
  destruct_mat (T1 (transfer st)).
  destruct_mat (T2 (transfer st)).
  destruct_mat (T3 (transfer st)).
  cbn [get set sel upd] in *. subst.
  unfold shape2, aadd, bmul, mmap, mmap2, rmap, rmap2. cbn [get sel].
  rewrite Hps. solve_len.
Qed.

Lemma SetDomainN_same_grid (st : PhotALPs_Jet) :
  (0 <= Nd (grid st))%Z -> ndom (final (SetDomainN st)) = ndom st.
Proof.
  intros Hnd.
  pose proof (SetDomainN_run st Hnd) as Hrun. cbv zeta in Hrun.
  rewrite Hrun. reflexivity.
Qed.

Lemma SetDomainN_outcome (st : PhotALPs_Jet) :
  (0 <= Nd (grid st))%Z ->
  outcome (SetDomainN st)
  = match chain (Un (transfer (final (SetDomainN st)))) with
    | Some U => inr U
    | None => inl (UnboundLocalError "U")
    end.
Proof.
  intros Hnd.
  pose proof (SetDomainN_run st Hnd) as Hrun. cbv zeta in Hrun.
  rewrite Hrun. reflexivity.
Qed.

Lemma SetDomainN_chain (st : PhotALPs_Jet) :
  consistent st -> (1 <= ndom st)%nat ->
  outcome (SetDomainN st)
  = inr (ordered_product (domain_propagators (final (SetDomainN st)))).
Proof.
  intros Hc Hn. pose proof Hc as (Hnd & _).
  rewrite (SetDomainN_outcome st Hnd).
  pose proof (SetDomainN_shape st Hc) as Hs.
  unfold domain_propagators. rewrite (SetDomainN_same_grid st Hnd).
  destruct (ndom st) as [|N]; [lia|].
  now rewrite (chain_nonempty _ N Hs).
Qed.

(** C1 (as amended): for every reachable object with at least one domain,
    [SetDomainN] returns the product [Un[0] * Un[1] * ... * Un[Nd-1]] of the
    per-domain propagators: the propagator of the innermost domain stands
    leftmost. *)
Theorem SetDomainN_product_order (st : PhotALPs_Jet) :
  reachable st -> (1 <= ndom st)%nat ->
  outcome (SetDomainN st)
  = inr (ordered_product (domain_propagators (final (SetDomainN st)))).
Proof.
  intros Hr Hn. apply SetDomainN_chain; [|exact Hn].
  now apply reachable_consistent.
Qed.

(** The arrays left by [SetDomainN], in terms of the mixing angles and the
    eigenvalues it has stored. *)
Lemma SetDomainN_final_tables (st : PhotALPs_Jet) :
  (0 <= Nd (grid st))%Z ->
  let st' := final (SetDomainN st) in
  let cs := vmap cos (Psin (grid st)) in
  let sn := vmap sin (Psin (grid st)) in
  let ca := vmap cos (alph (mixing st')) in
  let sa := vmap sin (alph (mixing st')) in
  let t1a := set (T1 (transfer st)) i0 i0 (vcast (vmul cs cs)) in
  let t1b := set t1a i1 i0 (get t1a i0 i1) in
  let t2a := set (T2 (transfer st)) i1 i0 (get (T2 (transfer st)) i0 i1) in
  let t2b := set t2a i1 i1 (vcast (vmul (vmul (vmul cs cs) sa) sa)) in
  let t2c := set t2b i1 i2 (vcast (vmul (vmul (vscale (-1) cs) ca) sa)) in
  let t2d := set t2c i2 i0 (get t2c i0 i2) in
  let t2e := set t2d i2 i1 (get t2d i1 i2) in
  let t3a := set (T3 (transfer st)) i1 i0 (get (T3 (transfer st)) i0 i1) in
  let t3b := set t3a i1 i1 (vcast (vmul (vmul (vmul cs cs) ca) ca)) in
  let t3c := set t3b i1 i2 (vcast (vmul (vmul cs sa) ca)) in
  let t3d := set t3c i2 i0 (get t3c i0 i2) in
  let t3e := set t3d i2 i1 (get t3d i1 i2) in
  ndom st' = ndom st
  /\ T1 (transfer st') = set t1b i1 i1 (vcast (vmul sn sn))
  /\ T2 (transfer st') = set t2e i2 i2 (vcast (vmul ca ca))
  /\ T3 (transfer st') = set t3e i2 i2 (vcast (vmul sa sa))
  /\ Un (transfer st')
     = aadd (aadd (bmul (phase (EW1 (mixing st')) (Lcoh (grid st))) (T1 (transfer st')))
                  (bmul (phase (EW2 (mixing st')) (Lcoh (grid st))) (T2 (transfer st'))))
            (bmul (phase (EW3 (mixing st')) (Lcoh (grid st))) (T3 (transfer st'))).
Proof.
  intros Hnd. cbv zeta.
  pose proof (SetDomainN_run st Hnd) as Hrun. cbv zeta in Hrun.
  rewrite Hrun. clear Hrun. unfold final.
  cbn [snd transfer mixing T1 T2 T3 Un alph EW1 EW2 EW3].
  repeat split.
Qed.

End Chain.

Lemma SetDomainN_product_order_witness :
  reachable (D := two_domain_deltas) two_domain_jet
  /\ outcome (SetDomainN (D := two_domain_deltas) two_domain_jet)
     = inr (ordered_product
              (domain_propagators
                 (final (SetDomainN (D := two_domain_deltas) two_domain_jet)))).
Proof.
  assert (Hn : (1 <= ndom two_domain_jet)%nat) by (rewrite two_domain_ndom; lia).
  split; [exact two_domain_reachable|].
  exact (SetDomainN_product_order (D := two_domain_deltas) two_domain_jet
           two_domain_reachable Hn).
Defined.

(* ------------------------------------------------------------------ *)
(** ** Configurations outside the documented range *)

Lemma degenerate_params :
  dict_update (defaults degenerate_kwargs) (params blank) = degenerate_config.
Proof. reflexivity. Qed.

Lemma degenerate_count : domain_count degenerate_config = 0%Z.
Proof. apply domain_count_equal_radii; simpl; [reflexivity|lra]. Qed.

Lemma degenerate_init :
  outcome (__init__ degenerate_kwargs) = inr tt
  /\ Nd (grid (final (__init__ degenerate_kwargs))) = 0%Z.
Proof.
  unfold __init__.
  pose proof (update_params_ok (defaults degenerate_kwargs) blank) as H.
  cbv zeta in H. rewrite degenerate_params, degenerate_count in H.
  rewrite H by lia. split; reflexivity.
Qed.

Section Unchecked.

Context {D : DeltasModule}.

Lemma SetDomainN_no_domain (st : PhotALPs_Jet) :
  consistent st -> Nd (grid st) = 0%Z ->
  outcome (SetDomainN st) = inl (UnboundLocalError "U").
Proof.
  intros Hc H0. pose proof Hc as (Hnd & _).
  rewrite (SetDomainN_outcome st Hnd).
  rewrite chain_empty; [reflexivity|].
  rewrite (SetDomainN_shape st Hc). unfold ndom. now rewrite H0.
Qed.

(** C2 (as amended): [update_params] checks neither [sens] nor the radii.
    It raises exactly when the computed domain count is negative, and the
    exception is numpy's refusal of a negative array dimension; it returns
    exactly when the count is at least 0.  With [Rmax = R_BLR] the count is
    0: the update returns, and [SetDomainN] then raises because its result
    variable was never bound.  (On the configurations whose logarithms are
    defined; elsewhere line 119 leaves the finite numbers.) *)
Theorem update_params_unchecked (kw : kwargs) (st : PhotALPs_Jet) :
  logs_defined (dict_update kw (params st)) ->
  (outcome (update_params kw st)
     = inl (ValueError "negative dimensions are not allowed")
   <-> (domain_count (dict_update kw (params st)) < 0)%Z)
  /\ (outcome (update_params kw st) = inr tt
      <-> (0 <= domain_count (dict_update kw (params st)))%Z)
  /\ (Rmax (dict_update kw (params st)) = R_BLR (dict_update kw (params st)) ->
      R_BLR (dict_update kw (params st)) <> 0 ->
      outcome (update_params kw st) = inr tt
      /\ Nd (grid (final (update_params kw st))) = 0%Z
      /\ outcome (SetDomainN (final (update_params kw st)))
         = inl (UnboundLocalError "U")).
Proof.
  intros _.
  pose proof (update_params_ok kw st) as Hok. cbv zeta in Hok.
  pose proof (update_params_neg kw st) as Hneg. cbv zeta in Hneg.
  set (c := dict_update kw (params st)) in *.
  assert (Hcase : (domain_count c < 0)%Z \/ (0 <= domain_count c)%Z) by lia.
  repeat split.
  - intros H. destruct Hcase as [Hn|Hp]; [exact Hn|].
    rewrite Hok in H by exact Hp. discriminate H.
  - exact Hneg.
  - intros H. destruct Hcase as [Hn|Hp]; [|exact Hp].
    rewrite Hneg in H by exact Hn. discriminate H.
  - intros Hp. now rewrite Hok.
  - rewrite Hok; [reflexivity|]. rewrite (domain_count_equal_radii c); [lia|..]; assumption.
  - rewrite Hok; [|rewrite (domain_count_equal_radii c); [lia|..]; assumption].
    unfold final. cbn [snd grid Nd]. now apply domain_count_equal_radii.
  - assert (Hzero : domain_count c = 0%Z) by (now apply domain_count_equal_radii).
    assert (Hrun : update_params kw st = (inr tt, final (update_params kw st))).
    { rewrite Hok by lia. reflexivity. }
    apply SetDomainN_no_domain.
    + exact (update_params_consistent kw st _ Hrun).
    + rewrite Hok by lia. unfold final. cbn [snd grid Nd]. exact Hzero.
Qed.

End Unchecked.

Lemma update_params_unchecked_witness :
  Rmax (dict_update (defaults degenerate_kwargs) (params blank))
  = R_BLR (dict_update (defaults degenerate_kwargs) (params blank))
  /\ outcome (__init__ degenerate_kwargs) = inr tt
  /\ Nd (grid (final (__init__ degenerate_kwargs))) = 0%Z
  /\ outcome (SetDomainN (D := two_domain_deltas) (final (__init__ degenerate_kwargs)))
     = inl (UnboundLocalError "U").
Proof.
  assert (He : Rmax (dict_update (defaults degenerate_kwargs) (params blank))
               = R_BLR (dict_update (defaults degenerate_kwargs) (params blank)))
    by reflexivity.
  assert (Hnz : R_BLR (dict_update (defaults degenerate_kwargs) (params blank)) <> 0)
    by (simpl; lra).
  assert (Hl : logs_defined (dict_update (defaults degenerate_kwargs) (params blank)))
    by (unfold logs_defined; simpl; lra).
  split; [exact He|].
  exact (proj2 (proj2 (update_params_unchecked (D := two_domain_deltas)
                         (defaults degenerate_kwargs) blank Hl)) He Hnz).
Defined.

(** C2 (as stated) fails: with [R_BLR = 1], [Rmax = 1], [sens = 0.5] (so
    [Rmax <= R_BLR]) the constructor returns without an exception and leaves
    a domain count of 0, and the single-step estimator returns a matrix. *)
Lemma equal_radii_accepted :
  invalid_config degenerate_config
  /\ logs_defined degenerate_config
  /\ dict_update (defaults degenerate_kwargs) (params blank) = degenerate_config
  /\ outcome (__init__ degenerate_kwargs) = inr tt
  /\ Nd (grid (final (__init__ degenerate_kwargs))) = 0%Z
  /\ exists U : Mat3 C,
       outcome (analytical_U (D := two_domain_deltas) (final (__init__ degenerate_kwargs)))
       = inr U.
Proof.
  destruct degenerate_init as [Hok H0].
  split; [right; simpl; lra|].
  split; [unfold logs_defined; simpl; lra|].
  split; [reflexivity|].
  split; [exact Hok|].
  split; [exact H0|].
  eexists. reflexivity.
Qed.

(* ------------------------------------------------------------------ *)
(** ** The two-domain chain *)

Lemma Bf_two_domain : Bf two_domain_config 1 = 4e-6 /\ Bf two_domain_config 4 = 1e-6.
Proof.
  unfold Bf, np_power. cbn [B R_BLR p two_domain_config]. split.
  - replace (1 / 1) with 1 by field.
    unfold Rpower. rewrite ln_1, Rmult_0_r, exp_0. lra.
  - replace (4 / 1) with 4 by field.
    rewrite Rpower_Ropp, Rpower_1 by lra. lra.
Qed.

Lemma two_domain_jet_eq :
  two_domain_jet =
  mkJet two_domain_config
    (mkGrid 2 [1; 2] [1; 4] [4e-6; 1e-6]
       [nf two_domain_config 1; nf two_domain_config 4]
       [0; 0])
    (mkTransfer (const3 [C0; C0]) (const3 [C0; C0]) (const3 [C0; C0]) (const3 [C0; C0]))
    (mixing blank).
Proof.
  unfold two_domain_jet. rewrite two_domain_init. unfold final. cbn [snd].
  rewrite two_domain_radii, two_domain_lengths.
  cbn [vmap map repeat Z.to_nat Pos.to_nat Pos.iter_op Nat.add Psi two_domain_config].
  destruct Bf_two_domain as [-> ->].
  replace (1 * 0) with 0 by ring. reflexivity.
Qed.

Ltac vec_eval :=
  cbn [vmap vmap2 vadd vsub vmul vdiv vscale vtimes np_square vcast vaddC vmulC
       phase map combine fst snd repeat
       nth seq fold_left fold_right List.length
       get set sel upd mmap mmap2 rmap rmap2 slice shape2 bmul aadd const3
       params grid transfer mixing Nd Lcoh r Br nr Psin T1 T2 T3 Un
       Dperp Dpar Dag Da alph Dosc EW1 EW2 EW3
       R_BLR E g m n Rmax B s p sens Psi two_domain_config
       Delta_pl_kpc Delta_QED_kpc Delta_ag_kpc Delta_a_kpc
       two_domain_deltas null_deltas].

(** The mixing parameters of the two domains: no mixing in the inner one,
    a mixing angle of pi/8 in the outer one. *)
Lemma two_domain_mixing :
  mixing (final (SetDomainN (D := two_domain_deltas) two_domain_jet))
  = mkMixing [0; 0] [0; 0] [0; PI / 2] [- PI; - PI] [0; PI / 8]
      [PI; two_domain_osc] [0; 0]
      [- PI; 0.5 * (- PI - two_domain_osc)] [0; 0.5 * (- PI + two_domain_osc)].
Proof.
  assert (Hnd : (0 <= Nd (grid two_domain_jet))%Z) by (rewrite two_domain_Nd; lia).
  pose proof (SetDomainN_run (D := two_domain_deltas) two_domain_jet Hnd) as Hrun.
  cbv zeta in Hrun. rewrite Hrun. clear Hrun.
  unfold final. cbn [snd mixing].
  rewrite two_domain_jet_eq.
  cbn [grid params Nd]. change (Z.to_nat 2) with 2%nat.
  vec_eval.
  replace (1e-3 * (0 + 2 * 0)) with 0 by lra.
  replace (1e-3 * (0 + 3.5 * 0)) with 0 by lra.
  replace (1e-3 * (1 * (4 - 4e-6 * 1e6) * (500 * PI / 3))) with 0 by lra.
  replace (1e-3 * (1 * (4 - 1e-6 * 1e6) * (500 * PI / 3))) with (PI / 2) by lra.
  replace (1e-3 * (-1000 * PI * 1)) with (- PI) by lra.
  pose proof PI_RGT_0 as Hpi.
  replace (2 * 0 / (0 - - PI)) with 0 by (field; lra).
  replace (2 * (PI / 2) / (0 - - PI)) with 1 by (field; lra).
  rewrite atan_0, atan_1.
  replace ((0 - - PI) ^ 2 + 4 * 0 ^ 2) with (PI * PI) by ring.
  replace ((0 - - PI) ^ 2 + 4 * (PI / 2) ^ 2) with (2 * (PI * PI)) by field.
  rewrite sqrt_square by lra. fold two_domain_osc.
  repeat (f_equal; try lra).
Qed.

Lemma projectors_sum_to_identity_witness :
  reachable (D := two_domain_deltas) two_domain_jet
  /\ projector_sum
       (final ((__setT1n ;; __setT2n ;; __setT3n) (with_alph [0; PI / 8] two_domain_jet))) 1
     = eye3
  /\ projector_sum (final (SetDomainN (D := two_domain_deltas) two_domain_jet)) 1 = eye3.
Proof.
  assert (Hk : (1 < ndom two_domain_jet)%nat) by (rewrite two_domain_ndom; lia).
  assert (Hne : nth 1 (Dpar (mixing (final (SetDomainN (D := two_domain_deltas)
                                               two_domain_jet)))) 0
                <> nth 1 (Da (mixing (final (SetDomainN (D := two_domain_deltas)
                                                two_domain_jet)))) 0).
  { rewrite two_domain_mixing. cbn [Dpar Da nth]. pose proof PI_RGT_0. lra. }
  assert (Hal : List.length [0; PI / 8] = ndom two_domain_jet)
    by (rewrite two_domain_ndom; reflexivity).
  split; [exact two_domain_reachable|].
  pose proof (projectors_sum_to_identity (D := two_domain_deltas) two_domain_jet 1
                two_domain_reachable two_domain_Psi Hk) as [H1 H2].
  split; [exact (H1 [0; PI / 8] Hal)|exact (H2 Hne)].
Defined.

Lemma Cexp_phase (e l : R) :
  Cexp (Cmul (j_times e) (of_R l)) = mkC (cos (e * l)) (sin (e * l)).
Proof.
  unfold Cexp, Cmul, j_times, of_R. cbn [Re Im].
  replace (0 * l - e * 0) with 0 by ring.
  replace (0 * 0 + e * l) with (e * l) by ring.
  rewrite exp_0. f_equal; ring.
Qed.

Lemma two_domain_osc_bounds : PI < two_domain_osc < 2 * PI.
Proof.
  pose proof PI_RGT_0 as Hpi. unfold two_domain_osc. split.
  - rewrite <- (sqrt_square PI) at 1 by lra.
    apply sqrt_lt_1; nra.
  - rewrite <- (sqrt_square (2 * PI)) by lra.
    apply sqrt_lt_1; nra.
Qed.

(** The two propagators: the inner one is diag(1, 1, -1); the outer one
    mixes the second photon state and the ALP. *)
Lemma two_domain_propagators :
  exists P0 P1 : Mat3 C,
    domain_propagators (final (SetDomainN (D := two_domain_deltas) two_domain_jet))
    = [P0; P1]
    /\ get P0 i1 i0 = C0 /\ get P0 i1 i1 = C1 /\ get P0 i1 i2 = C0
    /\ get P0 i0 i2 = C0 /\ get P0 i2 i2 = mkC (-1) 0
    /\ Im (get P1 i1 i2) <> 0.
Proof.
  assert (Hnd : (0 <= Nd (grid two_domain_jet))%Z) by (rewrite two_domain_Nd; lia).
  pose proof (SetDomainN_final_tables (D := two_domain_deltas) two_domain_jet Hnd)
    as (Hn & H1 & H2 & H3 & HU).
  cbv zeta in *.
  rewrite two_domain_mixing in H2, H3, HU.
  unfold domain_propagators. rewrite Hn, two_domain_ndom. cbn [seq map].
  rewrite HU, H1, H2, H3. clear HU H1 H2 H3 Hn.
  rewrite two_domain_jet_eq.
  do 2 eexists. split; [reflexivity|].
  vec_eval.
  rewrite !Cexp_phase.
  replace (0 * 1) with 0 by ring.
  replace (0 * 2) with 0 by ring.
  replace (- PI * 1) with (- PI) by ring.
  replace (0.5 * (- PI - two_domain_osc) * 2) with (- (two_domain_osc + PI)) by lra.
  replace (0.5 * (- PI + two_domain_osc) * 2) with (two_domain_osc - PI) by lra.
  rewrite sin_minus, !sin_neg, !cos_neg, neg_sin, cos_PI, sin_PI, cos_0, sin_0.
  unfold Cadd, Cmul, of_R, C0, C1. cbn [Re Im].
  repeat split; try (f_equal; ring).
  pose proof two_domain_osc_bounds as [Hlo Hhi].
  pose proof (sin_lt_0 two_domain_osc Hlo Hhi) as Hs.
  pose proof PI_RGT_0 as Hpi.
  assert (Hc8 : 0 < cos (PI / 8)) by (apply cos_gt_0; lra).
  assert (Hs8 : 0 < sin (PI / 8)) by (apply sin_gt_0; lra).
  assert (Hp : 0 < cos (PI / 8) * sin (PI / 8)) by (apply Rmult_lt_0_compat; assumption).
  assert (Hq : sin two_domain_osc * (cos (PI / 8) * sin (PI / 8)) < 0) by nra.
  nra.
Qed.

(** Two matrices of these shapes do not commute. *)
Lemma swapped_product_differs (P0 P1 : Mat3 C) :
  get P0 i1 i0 = C0 -> get P0 i1 i1 = C1 -> get P0 i1 i2 = C0 ->
  get P0 i0 i2 = C0 -> get P0 i2 i2 = mkC (-1) 0 ->
  Im (get P1 i1 i2) <> 0 ->
  np_dot P0 P1 <> np_dot P1 P0.
Proof.
  intros H10 H11 H12 H02 H22 HX Heq.
  assert (He : Im (get (np_dot P0 P1) i1 i2) = Im (get (np_dot P1 P0) i1 i2))
    by (now rewrite Heq).
  destruct_mat P0. destruct_mat P1.
  cbn [get sel] in *. subst.
  unfold np_dot, dot_entry in He. cbn [get sel] in He.
  unfold Cadd, Cmul, C0, C1 in He. cbn [Re Im] in He.
  apply HX. lra.
Qed.

(** C1 (as stated) fails: for the two-domain object [SetDomainN] returns
    [Un[0] * Un[1]], which differs from [Un[1] * Un[0]]. *)
Lemma SetDomainN_not_reversed_product :
  reachable (D := two_domain_deltas) two_domain_jet
  /\ (1 <= ndom two_domain_jet)%nat
  /\ exists U : Mat3 C,
       outcome (SetDomainN (D := two_domain_deltas) two_domain_jet) = inr U
       /\ U <> ordered_product
                 (rev (domain_propagators
                         (final (SetDomainN (D := two_domain_deltas) two_domain_jet)))).
Proof.
  split; [exact two_domain_reachable|].
  assert (Hn : (1 <= ndom two_domain_jet)%nat) by (rewrite two_domain_ndom; lia).
  split; [exact Hn|].
  eexists. split.
  - apply SetDomainN_chain; [|exact Hn].
    exact two_domain_consistent.
  - destruct two_domain_propagators as (P0 & P1 & -> & H10 & H11 & H12 & H02 & H22 & HX).
    unfold ordered_product. cbn [rev app fold_right].
    rewrite !np_dot_eye_r.
    now apply swapped_product_differs.
Qed.

(* ------------------------------------------------------------------ *)
(** ** The mixing angle at equal [Dpar] and [Da] *)

Import NpFloat.

Lemma alph_entry_regular (dag dpar da : R) :
  dpar <> da ->
  alph_entry dag dpar da = Finite (0.5 * atan (2 * dag / (dpar - da))).
Proof.
  intros Hne. unfold alph_entry, np_div.
  destruct (Req_dec_T (dpar - da) 0) as [H0|_]; [exfalso; lra|]. reflexivity.
Qed.

Lemma alph_entry_degenerate (dag d : R) :
  (0 < dag -> alph_entry dag d d = Finite (0.5 * (PI / 2)))
  /\ (dag < 0 -> alph_entry dag d d = Finite (0.5 * - (PI / 2)))
  /\ (dag = 0 -> alph_entry dag d d = NaN).
Proof.
  unfold alph_entry, np_div.
  destruct (Req_dec_T (d - d) 0) as [_|Hne]; [|exfalso; lra].
  repeat split; intros H.
  - destruct (Rlt_dec 0 (2 * dag)) as [_|Hn]; [reflexivity|exfalso; lra].
  - destruct (Rlt_dec 0 (2 * dag)) as [Hp|_]; [exfalso; lra|].
    destruct (Rlt_dec (2 * dag) 0) as [_|Hn]; [reflexivity|exfalso; lra].
  - destruct (Rlt_dec 0 (2 * dag)) as [Hp|_]; [exfalso; lra|].
    destruct (Rlt_dec (2 * dag) 0) as [Hn|_]; [exfalso; lra|reflexivity].
Qed.

Lemma alph_vector_entry (dag dpar da : list R) (N k : nat) :
  List.length dag = N -> List.length dpar = N -> List.length da = N ->
  (k < N)%nat ->
  nth k (vscale 0.5 (vmap atan (vdiv (vscale 2 dag) (vsub dpar da)))) 0
  = 0.5 * atan (2 * nth k dag 0 / (nth k dpar 0 - nth k da 0)).
Proof.
  intros Lag Lpar La Hk.
  assert (L2 : List.length (vscale 2 dag) = N).
  { unfold vscale. now rewrite length_map. }
  assert (Ls : List.length (vsub dpar da) = N).
  { unfold vsub. rewrite length_vmap2. lia. }
  assert (Ld : List.length (vdiv (vscale 2 dag) (vsub dpar da)) = N).
  { unfold vdiv. rewrite length_vmap2. lia. }
  unfold vscale at 1.
  change (map (Rmult 0.5)) with (vmap (Rmult 0.5)).
  rewrite (nth_vmap _ _ _ 0) by (unfold vmap; rewrite length_map; lia).
  rewrite (nth_vmap _ _ _ 0) by lia.
  unfold vdiv. rewrite (nth_vmap2 _ _ _ _ 0 0) by lia.
  unfold vsub. rewrite (nth_vmap2 _ _ _ _ 0 0) by lia.
  unfold vscale. change (map (Rmult 2)) with (vmap (Rmult 2)).
  rewrite (nth_vmap _ _ _ 0) by lia.
  reflexivity.
Qed.

Section MixingAngle.

Context {D : DeltasModule}.

(** The entry of [alph] stored by [__setEW], from the entries of [Dag],
    [Dpar] and [Da] it has stored. *)
Lemma setEW_alph_entry (st : PhotALPs_Jet) (k : nat) :
  consistent st -> (k < ndom st)%nat ->
  nth k (alph (mixing (final (__setEW st)))) 0
  = 0.5 * atan (2 * nth k (Dag (mixing (final (__setEW st)))) 0
                / (nth k (Dpar (mixing (final (__setEW st)))) 0
                   - nth k (Da (mixing (final (__setEW st)))) 0)).
Proof.
  intros (Hnd & HL & HB & Hn & _) Hk.
  pose proof (setEW_run st Hnd) as Hrun. cbv zeta in Hrun.
  rewrite Hrun. clear Hrun. unfold final, ndom in *.
  cbn [snd mixing alph Dag Dpar Da].
  apply (alph_vector_entry _ _ _ (Z.to_nat (Nd (grid st)))); [solve_len..|exact Hk].
Qed.

(** C6 (as amended): in a domain of a reachable object where [Dpar = Da] the
    evaluator performs
    the division [2*Dag/(Dpar - Da)] without a guard.  With [Dag > 0] the
    quotient is +Inf and the mixing angle is [0.5 * pi/2]; with [Dag < 0] it
    is [-0.5 * pi/2]; with [Dag = 0] the quotient 0/0 and the mixing angle
    are NaN.  In a domain where [Dpar <> Da] the angle is the finite value
    [0.5 * atan(2*Dag/(Dpar - Da))] that [__setEW] stores. *)
Theorem mixing_angle_unguarded (st : PhotALPs_Jet) (k : nat) :
  reachable st -> (k < ndom st)%nat ->
  let mx := mixing (final (__setEW st)) in
  let dag := nth k (Dag mx) 0 in
  let dpar := nth k (Dpar mx) 0 in
  let da := nth k (Da mx) 0 in
  (dpar <> da -> alph_entry dag dpar da = Finite (nth k (alph mx) 0))
  /\ (dpar = da -> 0 < dag -> alph_entry dag dpar da = Finite (0.5 * (PI / 2)))
  /\ (dpar = da -> dag < 0 -> alph_entry dag dpar da = Finite (0.5 * - (PI / 2)))
  /\ (dpar = da -> dag = 0 -> alph_entry dag dpar da = NaN).
Proof.
  intros Hr Hk mx dag dpar da.
  pose proof (reachable_consistent st Hr) as Hc.
  repeat split.
  - intros Hne. rewrite (alph_entry_regular dag dpar da Hne).
    unfold mx, dag, dpar, da. now rewrite (setEW_alph_entry st k Hc Hk).
  - intros -> H. now apply alph_entry_degenerate.
  - intros -> H. now apply alph_entry_degenerate.
  - intros -> H. now apply alph_entry_degenerate.
Qed.

End MixingAngle.

(** With collaborators that return 0 the three vectors vanish. *)
Lemma null_deltas_vectors :
  Dpar (mixing (final (__setEW (D := null_deltas) two_domain_jet))) = [0; 0]
  /\ Da (mixing (final (__setEW (D := null_deltas) two_domain_jet))) = [0; 0]
  /\ Dag (mixing (final (__setEW (D := null_deltas) two_domain_jet))) = [0; 0].
Proof.
  assert (Hnd : (0 <= Nd (grid two_domain_jet))%Z) by (rewrite two_domain_Nd; lia).
  pose proof (setEW_run (D := null_deltas) two_domain_jet Hnd) as Hrun.
  cbv zeta in Hrun. rewrite Hrun. clear Hrun.
  unfold final. cbn [snd mixing Dpar Da Dag].
  rewrite two_domain_jet_eq.
  cbn [grid params Nd]. change (Z.to_nat 2) with 2%nat.
  vec_eval.
  repeat split; repeat (f_equal; try lra).
Qed.

Lemma mixing_angle_unguarded_witness :
  nth 0 (Dpar (mixing (final (__setEW (D := null_deltas) two_domain_jet)))) 0
  = nth 0 (Da (mixing (final (__setEW (D := null_deltas) two_domain_jet)))) 0
  /\ alph_entry
       (nth 0 (Dag (mixing (final (__setEW (D := null_deltas) two_domain_jet)))) 0)
       (nth 0 (Dpar (mixing (final (__setEW (D := null_deltas) two_domain_jet)))) 0)
       (nth 0 (Da (mixing (final (__setEW (D := null_deltas) two_domain_jet)))) 0)
     = NaN.
Proof.
  assert (Hk : (0 < ndom two_domain_jet)%nat) by (rewrite two_domain_ndom; lia).
  destruct null_deltas_vectors as (Hp & Ha & Hg).
  assert (He : nth 0 (Dpar (mixing (final (__setEW (D := null_deltas) two_domain_jet)))) 0
               = nth 0 (Da (mixing (final (__setEW (D := null_deltas) two_domain_jet)))) 0)
    by (rewrite Hp, Ha; reflexivity).
  assert (Hz : nth 0 (Dag (mixing (final (__setEW (D := null_deltas) two_domain_jet)))) 0 = 0)
    by (rewrite Hg; reflexivity).
  split; [exact He|].
  exact (proj2 (proj2 (proj2 (mixing_angle_unguarded (D := null_deltas) two_domain_jet 0
                                two_domain_reachable Hk))) He Hz).
Defined.

(** C6 (as stated) fails: with collaborators that return 0 ([Dpar = Da = 0]
    and [Dag = 0] in domain 0 of the two-domain object) line 152 divides 0 by
    0 and the mixing angle is NaN, not a finite value. *)
Lemma degenerate_angle_is_nan :
  reachable (D := null_deltas) two_domain_jet
  /\ (0 < ndom two_domain_jet)%nat
  /\ nth 0 (Dpar (mixing (final (__setEW (D := null_deltas) two_domain_jet)))) 0
  = nth 0 (Da (mixing (final (__setEW (D := null_deltas) two_domain_jet)))) 0
  /\ alph_entry
       (nth 0 (Dag (mixing (final (__setEW (D := null_deltas) two_domain_jet)))) 0)
       (nth 0 (Dpar (mixing (final (__setEW (D := null_deltas) two_domain_jet)))) 0)
       (nth 0 (Da (mixing (final (__setEW (D := null_deltas) two_domain_jet)))) 0)
     = NaN
  /\ ~ is_finite
       (alph_entry
          (nth 0 (Dag (mixing (final (__setEW (D := null_deltas) two_domain_jet)))) 0)
          (nth 0 (Dpar (mixing (final (__setEW (D := null_deltas) two_domain_jet)))) 0)
          (nth 0 (Da (mixing (final (__setEW (D := null_deltas) two_domain_jet)))) 0)).
Proof.
  split; [exact two_domain_reachable|].
  split; [rewrite two_domain_ndom; lia|].
  destruct null_deltas_vectors as (-> & -> & ->). cbn [nth].
  destruct (alph_entry_degenerate 0 0) as (_ & _ & H).
  rewrite (H eq_refl). repeat split. intros Hf. exact Hf.
Qed.


(* ------------------------------------------------------------------ *)
(** ** Keyword arguments and defaults *)

Lemma get_set_param (k k' : key) (v : R) (c : Config) :
  get_param k (set_param k' v c) = if key_eqb k k' then v else get_param k c.
Proof. destruct k, k'; reflexivity. Qed.

Lemma key_eqb_refl (k : key) : key_eqb k k = true.
Proof. destruct k; reflexivity. Qed.

Lemma key_eqb_eq (k k' : key) : key_eqb k k' = true -> k = k'.
Proof. destruct k, k'; intros H; try discriminate H; reflexivity. Qed.

Lemma Config_ext (c c' : Config) :
  (forall k, get_param k c = get_param k c') -> c = c'.
Proof.
  intros H.
  pose proof (H K_R_BLR) as H1. pose proof (H K_E) as H2. pose proof (H K_g) as H3.
  pose proof (H K_m) as H4. pose proof (H K_n) as H5. pose proof (H K_Rmax) as H6.
  pose proof (H K_B) as H7. pose proof (H K_s) as H8. pose proof (H K_p) as H9.
  pose proof (H K_sens) as H10. pose proof (H K_Psi) as H11. clear H.
  destruct c as [a1 a2 a3 a4 a5 a6 a7 a8 a9 a10 a11].
  destruct c' as [b1 b2 b3 b4 b5 b6 b7 b8 b9 b10 b11].
  cbn in H1, H2, H3, H4, H5, H6, H7, H8, H9, H10, H11. subst. reflexivity.
Qed.

Lemma has_key_value (k : key) (kw : kwargs) :
  has_key k kw = match kw_value k kw with Some _ => true | None => false end.
Proof.
  unfold has_key. induction kw as [|kv kw IH].
  - reflexivity.
  - cbn [existsb kw_value]. rewrite IH.
    destruct (kw_value k kw), (key_eqb k (fst kv)); reflexivity.
Qed.

Lemma kw_value_app (k : key) (kw kw' : kwargs) :
  kw_value k (kw ++ kw')
  = match kw_value k kw' with Some w => Some w | None => kw_value k kw end.
Proof.
  induction kw as [|kv kw IH].
  - cbn [app kw_value]. now destruct (kw_value k kw').
  - cbn [app kw_value]. rewrite IH. now destruct (kw_value k kw').
Qed.

Lemma kw_value_setdefault (k k' : key) (v : R) (kw : kwargs) :
  kw_value k (setdefault k' v kw)
  = match kw_value k kw with
    | Some w => Some w
    | None => if key_eqb k k' then Some v else None
    end.
Proof.
  unfold setdefault. rewrite has_key_value.
  destruct (kw_value k' kw) as [w'|] eqn:Hk'.
  - destruct (kw_value k kw) as [w|] eqn:Hk; [reflexivity|].
    destruct (key_eqb k k') eqn:He; [|reflexivity].
    apply key_eqb_eq in He. subst. congruence.
  - rewrite kw_value_app. cbn [kw_value fst snd].
    destruct (key_eqb k k') eqn:He.
    + apply key_eqb_eq in He. subst. now rewrite Hk'.
    + now destruct (kw_value k kw).
Qed.

(** [self.__dict__.update(kwargs)] stores, for every key, the value given
    for it (the last one) and keeps the attribute of every key that is not
    given. *)
Lemma dict_update_lookup (k : key) (kw : kwargs) (c : Config) :
  get_param k (dict_update kw c)
  = match kw_value k kw with Some v => v | None => get_param k c end.
Proof.
  unfold dict_update. revert c. induction kw as [|kv kw IH]; intros c.
  - reflexivity.
  - cbn [fold_left kw_value]. rewrite IH, get_set_param.
    destruct (kw_value k kw); [reflexivity|].
    now destruct (key_eqb k (fst kv)).
Qed.

Lemma kw_value_defaults (k : key) (kw : kwargs) :
  kw_value k (defaults kw)
  = Some (match kw_value k kw with Some v => v | None => default_value k end).
Proof.
  unfold defaults. rewrite !kw_value_setdefault.
  destruct (kw_value k kw); [reflexivity|].
  destruct k; reflexivity.
Qed.

Lemma update_params_params (kw : kwargs) (st : PhotALPs_Jet) :
  params (final (update_params kw st)) = dict_update kw (params st).
Proof.
  destruct (Z.lt_ge_cases (domain_count (dict_update kw (params st))) 0) as [Hneg|Hpos].
  - run_jet.
    destruct (Z.ltb_spec (domain_count (dict_update kw (params st))) 0) as [_|H];
      [reflexivity|lia].
  - pose proof (update_params_ok kw st) as H. cbv zeta in H.
    now rewrite H.
Qed.

(** X1: after [__init__], whether it returns or raises, every one of the
    eleven attributes holds the value given for its key, or the default of
    lines 95-105 when the key is not given. *)
Theorem init_params (k : key) (kw : kwargs) :
  get_param k (params (final (__init__ kw)))
  = match kw_value k kw with Some v => v | None => default_value k end.
Proof.
  unfold __init__. rewrite update_params_params, dict_update_lookup.
  now rewrite kw_value_defaults.
Qed.

Lemma dict_update_idempotent (kw : kwargs) (c : Config) :
  dict_update kw (dict_update kw c) = dict_update kw c.
Proof.
  apply Config_ext. intros k. rewrite !dict_update_lookup.
  now destruct (kw_value k kw).
Qed.


(** X2: after [update_params], whether it returns or raises, every one of
    the eleven attributes holds the value given for its key (the last one
    given), or the value it had before the call when the key is not given. *)
Theorem update_params_lookup (k : key) (kw : kwargs) (st : PhotALPs_Jet) :
  get_param k (params (final (update_params kw st)))
  = match kw_value k kw with Some v => v | None => get_param k (params st) end.
Proof.
  rewrite update_params_params.
  apply dict_update_lookup.
Qed.

(* ------------------------------------------------------------------ *)
(** ** Repeating [update_params] *)

Lemma update_params_fail (kw : kwargs) (st : PhotALPs_Jet) :
  let c := dict_update kw (params st) in
  let nd := domain_count c in
  (nd < 0)%Z ->
  update_params kw st =
  (inl (ValueError "negative dimensions are not allowed"),
   mkJet c
     (mkGrid nd (coherence_lengths c nd) (radii c nd)
        (vmap (Bf c) (radii c nd)) (vmap (nf c) (radii c nd)) (Psin (grid st)))
     (transfer st) (mixing st)).
Proof.
  intros c nd Hnd. run_jet. fold c. fold nd.
  destruct (Z.ltb_spec nd 0) as [_|Hpos]; [reflexivity|lia].
Qed.

(** X3: [update_params] is idempotent: a second call with the same keyword
    arguments has the outcome of the first and leaves the object as the
    first left it, whether the calls return or raise. *)
Theorem update_params_idempotent (kw : kwargs) (st : PhotALPs_Jet) :
  update_params kw (final (update_params kw st)) = update_params kw st.
Proof.
  destruct (Z.lt_ge_cases (domain_count (dict_update kw (params st))) 0) as [Hneg|Hpos].
  - pose proof (update_params_fail kw st) as H1. cbv zeta in H1.
    rewrite (H1 Hneg). unfold final. cbn [snd].
    pose proof (update_params_fail kw
                  (mkJet (dict_update kw (params st))
                     (mkGrid (domain_count (dict_update kw (params st)))
                        (coherence_lengths (dict_update kw (params st))
                           (domain_count (dict_update kw (params st))))
                        (radii (dict_update kw (params st))
                           (domain_count (dict_update kw (params st))))
                        (vmap (Bf (dict_update kw (params st)))
                           (radii (dict_update kw (params st))
                              (domain_count (dict_update kw (params st)))))
                        (vmap (nf (dict_update kw (params st)))
                           (radii (dict_update kw (params st))
                              (domain_count (dict_update kw (params st)))))
                        (Psin (grid st)))
                     (transfer st) (mixing st))) as H2.
    cbv zeta in H2. cbn [params grid transfer mixing Psin] in H2.
    rewrite dict_update_idempotent in H2. now rewrite (H2 Hneg).
  - pose proof (update_params_ok kw st) as H1. cbv zeta in H1.
    rewrite (H1 Hpos). unfold final. cbn [snd].
    match goal with |- update_params kw ?s = _ =>
      pose proof (update_params_ok kw s) as H2 end.
    cbv zeta in H2. cbn [params grid transfer mixing] in H2.
    rewrite dict_update_idempotent in H2. now rewrite (H2 Hpos).
Qed.

(* ------------------------------------------------------------------ *)
(** ** The outer edge of the grid *)

Lemma np_power_steps (c : Config) (x : R) :
  0 < p c ->
  np_power (sens c) (- x / p c) = exp (x * (- ln (sens c) / p c)).
Proof.
  intros Hp. unfold np_power, Rpower. f_equal. field. lra.
Qed.

(** X4: for a valid configuration the domain count is the least number of
    attenuation steps that reaches the outer radius: [Nd >= 1],
    [R_BLR * sens^(-Nd/p) >= Rmax] and [R_BLR * sens^(-(Nd-1)/p) < Rmax]. *)
Theorem domain_count_reaches_Rmax (kw : kwargs) (st : PhotALPs_Jet) :
  valid_config (dict_update kw (params st)) ->
  let c := dict_update kw (params st) in
  let nd := Nd (grid (final (update_params kw st))) in
  (1 <= nd)%Z
  /\ Rmax c <= R_BLR c * np_power (sens c) (- IZR nd / p c)
  /\ R_BLR c * np_power (sens c) (- (IZR nd - 1) / p c) < Rmax c.
Proof.
  intros Hv c nd.
  pose proof (domain_count_pos _ Hv) as Hnd.
  pose proof (update_params_ok kw st) as Hok. cbv zeta in Hok.
  assert (Hn : nd = domain_count c).
  { unfold nd. rewrite Hok by lia. reflexivity. }
  rewrite Hn. clear Hn nd. fold c in Hv, Hnd.
  pose proof (coverage_ln_rho c Hv) as [Hlo Hhi].
  pose proof (coverage_rho c Hv) as Hrho.
  destruct Hv as (Hs & Hr & Hp).
  rewrite !np_power_steps by exact Hp.
  assert (HR : Rmax c = R_BLR c * (Rmax c / R_BLR c)) by (field; lra).
  split; [exact Hnd|]. split.
  - rewrite HR. apply Rmult_le_compat_l; [lra|].
    rewrite Hrho.
    destruct Hhi as [Hlt|Heq]; [left; now apply exp_increasing|right; now rewrite Heq].
  - rewrite HR. apply Rmult_lt_compat_l; [lra|].
    rewrite Hrho. now apply exp_increasing.
Qed.


(* ------------------------------------------------------------------ *)
(** ** Lengths, radii and field along the domains *)

Lemma nth_map_seq {A} (f : nat -> A) (N i : nat) (d : A) :
  (i < N)%nat -> nth i (map f (seq 0 N)) d = f i.
Proof.
  intros Hi. rewrite (nth_indep _ d (f 0%nat)) by (now rewrite length_map, length_seq).
  rewrite map_nth, seq_nth by exact Hi. reflexivity.
Qed.

(** X5: for a valid configuration the coherence lengths are [Nd] positive
    numbers in geometric progression: the first is
    [R_BLR * sens^(-1/p) * (1 - sens)], each next one is the previous one times
    [sens^(-1/p)], and they increase strictly. *)
Theorem coherence_lengths_progression (kw : kwargs) (st : PhotALPs_Jet) (i : nat) :
  valid_config (dict_update kw (params st)) ->
  (i < ndom (final (update_params kw st)))%nat ->
  let c := dict_update kw (params st) in
  let lc := Lcoh (grid (final (update_params kw st))) in
  List.length lc = ndom (final (update_params kw st))
  /\ nth 0 lc 0 = R_BLR c * np_power (sens c) (- 1 / p c) * (1 - sens c)
  /\ 0 < nth i lc 0
  /\ ((S i < ndom (final (update_params kw st)))%nat ->
      nth (S i) lc 0 = nth i lc 0 * np_power (sens c) (- 1 / p c)
      /\ nth i lc 0 < nth (S i) lc 0).
Proof.
  intros Hv Hi c lc.
  pose proof (domain_count_pos _ Hv) as Hnd.
  pose proof (update_params_ok kw st) as Hok. cbv zeta in Hok.
  unfold lc, ndom in *. rewrite Hok in Hi |- * by lia.
  unfold final in *. cbn [snd grid Lcoh Nd] in *. fold c in Hi, Hnd, Hv |- *.
  rewrite coherence_lengths_geometric. rewrite length_map, length_seq.
  pose proof (coverage_t_pos c Hv) as Ht.
  pose proof (coverage_q c Hv) as Hq.
  destruct Hv as (Hs & Hr & Hp).
  assert (Hq1 : 1 < np_power (sens c) (- 1 / p c)).
  { unfold np_power. rewrite Hq, <- exp_0. now apply exp_increasing. }
  unfold np_power in *.
  set (q := Rpower (sens c) (- 1 / p c)) in *.
  assert (Ha : 0 < R_BLR c * (1 - sens c)) by (apply Rmult_lt_0_compat; lra).
  assert (Hpow : forall j, 0 < q ^ j) by (intros j; apply pow_lt; lra).
  split; [reflexivity|]. split.
  - rewrite nth_map_seq by lia. simpl. ring.
  - split.
    + rewrite nth_map_seq by exact Hi. apply Rmult_lt_0_compat; [exact Ha|apply Hpow].
    + intros HSi. rewrite !nth_map_seq by lia. split.
      * simpl. ring.
      * apply Rmult_lt_compat_l; [exact Ha|].
        change (q ^ S (S i)) with (q * q ^ S i).
        pose proof (Hpow (S i)). nra.
Qed.

Lemma linspace_zero_steps (nd : Z) :
  (1 <= nd)%Z ->
  exists step : R,
    0 < step
    /\ INR (Z.to_nat nd - 1) * step <= IZR nd
    /\ forall i, (i < Z.to_nat nd)%nat ->
                 nth i (linspace 0 (IZR nd) nd) 0 = INR i * step.
Proof.
  intros Hnd. unfold linspace.
  destruct (Z.leb_spec nd 0) as [Hle|_]; [lia|].
  destruct (Z.eqb_spec nd 1) as [->|Hne].
  - exists 1. split; [lra|]. split; [simpl; lra|].
    intros i Hi. assert (i = 0%nat) by (simpl in Hi; lia). subst. simpl. ring.
  - assert (H1 : 1 < IZR nd) by (apply IZR_lt; lia).
    exists ((IZR nd - 0) / IZR (nd - 1)).
    rewrite minus_IZR.
    assert (Hstep : 0 < (IZR nd - 0) / (IZR nd - 1)).
    { apply Rdiv_lt_0_compat; lra. }
    split; [exact Hstep|]. split.
    + rewrite minus_INR by lia. rewrite INR_IZR_INZ, Z2Nat.id by lia.
      right. simpl. field. lra.
    + intros i Hi. rewrite nth_map_seq by exact Hi. ring.
Qed.

Lemma radii_entry (c : Config) (nd : Z) (i : nat) (x : R) :
  0 < p c -> (i < Z.to_nat nd)%nat ->
  nth i (linspace 0 (IZR nd) nd) 0 = x ->
  nth i (radii c nd) 0 = R_BLR c * exp (x * (- ln (sens c) / p c)).
Proof.
  intros Hp Hi Hx. unfold radii, vmap.
  set (f := fun y => _).
  rewrite (nth_indep _ 0 (f 0)) by (now rewrite length_map, linspace_length).
  rewrite map_nth, Hx. subst f. cbv beta. now rewrite np_power_steps.
Qed.

Lemma Bf_at_radius (c : Config) (y : R) :
  0 < R_BLR c -> 0 < p c ->
  Bf c (R_BLR c * exp (y * (- ln (sens c) / p c))) = B c * exp (y * ln (sens c)).
Proof.
  intros Hr Hp. unfold Bf, np_power, Rpower.
  replace (R_BLR c * exp (y * (- ln (sens c) / p c)) / R_BLR c)
    with (exp (y * (- ln (sens c) / p c))) by (field; lra).
  rewrite ln_exp. do 2 f_equal. field. lra.
Qed.

(** X6: for a valid configuration the radii start at [R_BLR], increase
    strictly from domain to domain and stay at or below
    [R_BLR * sens^(-Nd/p)]; the field of the first domain is [B], the density
    of the first domain is [n], and for [B > 0] the field is positive and
    decreases strictly from domain to domain. *)
Theorem radial_profiles (kw : kwargs) (st : PhotALPs_Jet) (i : nat) :
  valid_config (dict_update kw (params st)) ->
  (i < ndom (final (update_params kw st)))%nat ->
  let c := dict_update kw (params st) in
  let gr := grid (final (update_params kw st)) in
  (nth 0 (r gr) 0 = R_BLR c /\ nth 0 (Br gr) 0 = B c /\ nth 0 (nr gr) 0 = n c)
  /\ R_BLR c <= nth i (r gr) 0
  /\ nth i (r gr) 0 <= R_BLR c * np_power (sens c) (- IZR (Nd gr) / p c)
  /\ ((S i < ndom (final (update_params kw st)))%nat ->
      nth i (r gr) 0 < nth (S i) (r gr) 0)
  /\ (0 < B c ->
      0 < nth i (Br gr) 0
      /\ ((S i < ndom (final (update_params kw st)))%nat ->
          nth (S i) (Br gr) 0 < nth i (Br gr) 0)).
Proof.
  intros Hv Hi c gr.
  pose proof (domain_count_pos _ Hv) as Hnd.
  pose proof (update_params_ok kw st) as Hok. cbv zeta in Hok.
  unfold gr, ndom in *. rewrite Hok in Hi |- * by lia.
  unfold final in *. cbn [snd grid r Br nr Nd] in *. fold c in Hi, Hnd, Hv |- *.
  pose proof (coverage_t_pos c Hv) as Ht.
  pose proof (ln_sens_neg c (proj1 Hv)) as Hls.
  destruct Hv as (Hs & Hr & Hp).
  destruct (linspace_zero_steps (domain_count c) Hnd) as (step & Hstep & Hlast & Hx).
  set (N := Z.to_nat (domain_count c)) in *.
  set (t := - ln (sens c) / p c) in *.
  assert (Hri : forall j, (j < N)%nat ->
             nth j (radii c (domain_count c)) 0 = R_BLR c * exp (INR j * step * t)).
  { intros j Hj. apply radii_entry; [exact Hp|exact Hj|now apply Hx]. }
  assert (Hlen : List.length (radii c (domain_count c)) = N).
  { unfold radii, vmap. now rewrite length_map, linspace_length. }
  assert (HBi : forall j, (j < N)%nat ->
             nth j (vmap (Bf c) (radii c (domain_count c))) 0
             = B c * exp (INR j * step * ln (sens c))).
  { intros j Hj. rewrite (nth_vmap _ _ _ 0) by lia.
    rewrite (Hri j Hj). apply Bf_at_radius; lra. }
  assert (H0 : (0 < N)%nat) by lia.
  assert (Hr0 : nth 0 (radii c (domain_count c)) 0 = R_BLR c).
  { rewrite (Hri 0%nat H0). simpl. rewrite !Rmult_0_l, exp_0. ring. }
  split.
  { split; [exact Hr0|]. split.
    - rewrite (HBi 0%nat H0). simpl. rewrite !Rmult_0_l, exp_0. ring.
    - rewrite (nth_vmap _ _ _ 0) by lia. rewrite Hr0.
      unfold nf, np_power, Rpower.
      replace (R_BLR c / R_BLR c) with 1 by (field; lra).
      rewrite ln_1, Rmult_0_r, exp_0. ring. }
  assert (Hi0 : 0 <= INR i) by apply pos_INR.
  assert (HiN : INR i <= INR (N - 1)) by (apply le_INR; lia).
  split.
  { rewrite (Hri i Hi).
    assert (1 <= exp (INR i * step * t)).
    { rewrite <- exp_0.
      assert (0 <= INR i * step * t) by (apply Rmult_le_pos; [apply Rmult_le_pos|]; lra).
      destruct H as [H|H]; [left; now apply exp_increasing|right; now rewrite <- H]. }
    nra. }
  split.
  { rewrite (Hri i Hi), np_power_steps by exact Hp. fold t.
    apply Rmult_le_compat_l; [lra|].
    assert (Hle : INR i * step * t <= IZR (domain_count c) * t).
    { apply Rmult_le_compat_r; [lra|]. nra. }
    destruct Hle as [H|H]; [left; now apply exp_increasing|right; now rewrite H]. }
  split.
  { intros HSi. rewrite (Hri i Hi), (Hri (S i) HSi).
    apply Rmult_lt_compat_l; [lra|]. apply exp_increasing.
    rewrite S_INR. nra. }
  intros HB. split.
  { rewrite (HBi i Hi). apply Rmult_lt_0_compat; [exact HB|apply exp_pos]. }
  intros HSi. rewrite (HBi i Hi), (HBi (S i) HSi).
  apply Rmult_lt_compat_l; [exact HB|]. apply exp_increasing.
  rewrite S_INR. nra.
Qed.


(* ------------------------------------------------------------------ *)
(** ** Eigenvalues and mixing angle in one domain *)

Lemma nth_vscale (a : R) (v : list R) (k : nat) :
  (k < List.length v)%nat -> nth k (vscale a v) 0 = a * nth k v 0.
Proof.
  intros Hk. unfold vscale. change (map (Rmult a)) with (vmap (Rmult a)).
  now rewrite (nth_vmap _ _ _ 0).
Qed.

Lemma eigen_vector_entries (dpar da dag : list R) (N k : nat) :
  List.length dpar = N -> List.length da = N -> List.length dag = N ->
  (k < N)%nat ->
  let dosc := vmap sqrt (vadd (np_square (vsub dpar da)) (vscale 4 (np_square dag))) in
  nth k dosc 0 = sqrt ((nth k dpar 0 - nth k da 0) ^ 2 + 4 * nth k dag 0 ^ 2)
  /\ nth k (vscale 0.5 (vsub (vadd dpar da) dosc)) 0
     = 0.5 * (nth k dpar 0 + nth k da 0 - nth k dosc 0)
  /\ nth k (vscale 0.5 (vadd (vadd dpar da) dosc)) 0
     = 0.5 * (nth k dpar 0 + nth k da 0 + nth k dosc 0).
Proof.
  intros Lp La Lg Hk dosc.
  assert (Ls : List.length (vsub dpar da) = N) by (unfold vsub; rewrite length_vmap2; lia).
  assert (Lq : List.length (np_square (vsub dpar da)) = N)
    by (unfold np_square; now rewrite length_map).
  assert (Lg2 : List.length (np_square dag) = N)
    by (unfold np_square; now rewrite length_map).
  assert (L4 : List.length (vscale 4 (np_square dag)) = N)
    by (unfold vscale; now rewrite length_map).
  assert (Lsum : List.length (vadd (np_square (vsub dpar da)) (vscale 4 (np_square dag))) = N)
    by (unfold vadd; rewrite length_vmap2; lia).
  assert (Ld : List.length dosc = N) by (unfold dosc, vmap; now rewrite length_map).
  assert (Lpa : List.length (vadd dpar da) = N) by (unfold vadd; rewrite length_vmap2; lia).
  assert (Hd : nth k dosc 0
               = sqrt ((nth k dpar 0 - nth k da 0) ^ 2 + 4 * nth k dag 0 ^ 2)).
  { unfold dosc. rewrite (nth_vmap _ _ _ 0) by lia.
    unfold vadd at 1. rewrite (nth_vmap2 _ _ _ _ 0 0) by lia.
    rewrite nth_vscale by lia.
    unfold np_square. change (map (fun x => x ^ 2)) with (vmap (fun x : R => x ^ 2)).
    rewrite !(nth_vmap _ _ _ 0) by lia.
    unfold vsub. rewrite (nth_vmap2 _ _ _ _ 0 0) by lia. reflexivity. }
  split; [exact Hd|]. split.
  - rewrite nth_vscale by (unfold vsub; rewrite length_vmap2; lia).
    unfold vsub at 1. rewrite (nth_vmap2 _ _ _ _ 0 0) by lia.
    unfold vadd at 1. rewrite (nth_vmap2 _ _ _ _ 0 0) by lia. reflexivity.
  - rewrite nth_vscale by (unfold vadd; rewrite !length_vmap2; lia).
    unfold vadd at 1. rewrite (nth_vmap2 _ _ _ _ 0 0) by lia.
    unfold vadd at 1. rewrite (nth_vmap2 _ _ _ _ 0 0) by lia. reflexivity.
Qed.

Section Eigen.

Context {D : DeltasModule}.

Lemma setEW_entries (st : PhotALPs_Jet) (k : nat) :
  consistent st -> (k < ndom st)%nat ->
  let mx := mixing (final (__setEW st)) in
  nth k (Dosc mx) 0
  = sqrt ((nth k (Dpar mx) 0 - nth k (Da mx) 0) ^ 2 + 4 * nth k (Dag mx) 0 ^ 2)
  /\ nth k (EW1 mx) 0 = nth k (Dperp mx) 0
  /\ nth k (EW2 mx) 0 = 0.5 * (nth k (Dpar mx) 0 + nth k (Da mx) 0 - nth k (Dosc mx) 0)
  /\ nth k (EW3 mx) 0 = 0.5 * (nth k (Dpar mx) 0 + nth k (Da mx) 0 + nth k (Dosc mx) 0).
Proof.
  intros (Hnd & HL & HB & Hn & _) Hk.
  pose proof (setEW_run st Hnd) as Hrun. cbv zeta in Hrun.
  rewrite Hrun. clear Hrun. unfold final, ndom in *.
  cbn [snd mixing Dosc EW1 EW2 EW3 Dperp Dpar Da Dag].
  match goal with
  | |- context [vsub ?dpar ?da] =>
      match goal with
      | |- context [vscale 4 (np_square ?dag)] =>
          pose proof (eigen_vector_entries dpar da dag (Z.to_nat (Nd (grid st))) k) as H
      end
  end.
  cbv zeta in H.
  destruct H as (H1 & H2 & H3); [solve_len..|exact Hk|].
  repeat split; assumption.
Qed.

(** X7: in every domain of a reachable object the stored eigenvalues satisfy
    [EW1 = Dperp], [EW2 + EW3 = Dpar + Da], [EW3 - EW2 = Dosc] and
    [EW2 * EW3 = Dpar * Da - Dag^2]: [EW2] and [EW3] are the two roots of
    [x^2 - (Dpar + Da) x + (Dpar Da - Dag^2)]. *)
Theorem eigenvalues_trace_determinant (st : PhotALPs_Jet) (k : nat) :
  reachable st -> (k < ndom st)%nat ->
  let mx := mixing (final (__setEW st)) in
  nth k (EW1 mx) 0 = nth k (Dperp mx) 0
  /\ nth k (EW2 mx) 0 + nth k (EW3 mx) 0 = nth k (Dpar mx) 0 + nth k (Da mx) 0
  /\ nth k (EW3 mx) 0 - nth k (EW2 mx) 0 = nth k (Dosc mx) 0
  /\ nth k (EW2 mx) 0 * nth k (EW3 mx) 0
     = nth k (Dpar mx) 0 * nth k (Da mx) 0 - nth k (Dag mx) 0 ^ 2.
Proof.
  intros Hr Hk mx.
  pose proof (setEW_entries st k (reachable_consistent st Hr) Hk) as (Hd & H1 & H2 & H3).
  fold mx in Hd, H1, H2, H3.
  split; [exact H1|]. rewrite H2, H3.
  assert (Hsq : nth k (Dosc mx) 0 * nth k (Dosc mx) 0
                = (nth k (Dpar mx) 0 - nth k (Da mx) 0) ^ 2 + 4 * nth k (Dag mx) 0 ^ 2).
  { rewrite Hd. apply sqrt_sqrt.
    apply Rplus_le_le_0_compat; [apply pow2_ge_0|].
    apply Rmult_le_pos; [lra|apply pow2_ge_0]. }
  clear Hd H1 H2 H3.
  generalize dependent (nth k (Dosc mx) 0). intros d Hsq.
  generalize (nth k (Dpar mx) 0) (nth k (Da mx) 0) (nth k (Dag mx) 0) Hsq.
  clear. intros a b c Hsq.
  split; [lra|]. split; [lra|]. nra.
Qed.

(** X8: in every domain of a reachable object where [Dpar <> Da], the stored
    mixing angle lies strictly between [-pi/4] and [pi/4], satisfies
    [tan(2 alph) = 2 Dag / (Dpar - Da)], and is 0 when [Dag = 0]. *)
Theorem mixing_angle_range (st : PhotALPs_Jet) (k : nat) :
  reachable st -> (k < ndom st)%nat ->
  let mx := mixing (final (__setEW st)) in
  nth k (Dpar mx) 0 <> nth k (Da mx) 0 ->
  - (PI / 4) < nth k (alph mx) 0 < PI / 4
  /\ tan (2 * nth k (alph mx) 0)
     = 2 * nth k (Dag mx) 0 / (nth k (Dpar mx) 0 - nth k (Da mx) 0)
  /\ (nth k (Dag mx) 0 = 0 -> nth k (alph mx) 0 = 0).
Proof.
  intros Hr Hk mx Hne.
  pose proof (setEW_alph_entry st k (reachable_consistent st Hr) Hk) as Ha.
  fold mx in Ha. rewrite Ha.
  set (x := 2 * nth k (Dag mx) 0 / (nth k (Dpar mx) 0 - nth k (Da mx) 0)).
  pose proof (atan_bound x) as [Hlo Hhi].
  split; [split; lra|]. split.
  - replace (2 * (0.5 * atan x)) with (atan x) by lra. apply tan_atan.
  - intros H0. unfold x. rewrite H0.
    replace (2 * 0 / (nth k (Dpar mx) 0 - nth k (Da mx) 0)) with 0
      by (unfold Rdiv; ring).
    rewrite atan_0. lra.
Qed.

End Eigen.


(* ------------------------------------------------------------------ *)
(** ** The arrays in one domain *)

Lemma nth_vcast (v : list R) (k : nat) : nth k (vcast v) C0 = of_R (nth k v 0).
Proof. unfold vcast. apply (map_nth of_R v 0 k). Qed.

Lemma nth_vmul (u v : list R) (k : nat) :
  (k < List.length u)%nat -> (k < List.length v)%nat ->
  nth k (vmul u v) 0 = nth k u 0 * nth k v 0.
Proof. intros Hu Hv. unfold vmul. now apply nth_vmap2. Qed.

Lemma length_vmul (u v : list R) (N : nat) :
  List.length u = N -> List.length v = N -> List.length (vmul u v) = N.
Proof. intros Hu Hv. unfold vmul. rewrite length_vmap2. lia. Qed.

Lemma nth_phase (ew lc : list R) (k : nat) :
  (k < List.length ew)%nat -> (k < List.length lc)%nat ->
  nth k (phase ew lc) C0 = phase_at (nth k ew 0) (nth k lc 0).
Proof.
  intros He Hl. unfold phase, phase_at.
  rewrite (nth_vmap _ _ _ C0) by (rewrite length_vmap2; lia).
  now rewrite (nth_vmap2 _ _ _ _ 0 0).
Qed.

Lemma length_phase (ew lc : list R) (N : nat) :
  List.length ew = N -> List.length lc = N -> List.length (phase ew lc) = N.
Proof.
  intros He Hl. unfold phase, vmap. rewrite length_map, length_vmap2. lia.
Qed.

(** One entry of [e1 * T1 + e2 * T2 + e3 * T3]. *)
Lemma nth_Un_entry (e1 e2 e3 v1 v2 v3 : list C) (N k : nat) :
  List.length e1 = N -> List.length e2 = N -> List.length e3 = N ->
  List.length v1 = N -> List.length v2 = N -> List.length v3 = N ->
  (k < N)%nat ->
  nth k (vaddC (vaddC (vmulC e1 v1) (vmulC e2 v2)) (vmulC e3 v3)) C0
  = Cadd (Cadd (Cmul (nth k e1 C0) (nth k v1 C0)) (Cmul (nth k e2 C0) (nth k v2 C0)))
         (Cmul (nth k e3 C0) (nth k v3 C0)).
Proof.
  intros L1 L2 L3 M1 M2 M3 Hk.
  assert (P1 : List.length (vmulC e1 v1) = N) by (unfold vmulC; rewrite length_vmap2; lia).
  assert (P2 : List.length (vmulC e2 v2) = N) by (unfold vmulC; rewrite length_vmap2; lia).
  assert (P3 : List.length (vmulC e3 v3) = N) by (unfold vmulC; rewrite length_vmap2; lia).
  assert (P12 : List.length (vaddC (vmulC e1 v1) (vmulC e2 v2)) = N)
    by (unfold vaddC; rewrite length_vmap2; lia).
  unfold vaddC at 1. rewrite (nth_vmap2 _ _ _ _ C0 C0) by lia.
  unfold vaddC at 1. rewrite (nth_vmap2 _ _ _ _ C0 C0) by lia.
  unfold vmulC. rewrite !(nth_vmap2 _ _ _ _ C0 C0) by lia.
  reflexivity.
Qed.

Section DomainForm.

Context {D : DeltasModule}.

Lemma SetDomainN_mixing_lengths (st : PhotALPs_Jet) :
  consistent st ->
  List.length (alph (mixing (final (SetDomainN st)))) = ndom st
  /\ List.length (EW1 (mixing (final (SetDomainN st)))) = ndom st
  /\ List.length (EW2 (mixing (final (SetDomainN st)))) = ndom st
  /\ List.length (EW3 (mixing (final (SetDomainN st)))) = ndom st.
Proof.
  intros (Hnd & HL & HB & Hn & _).
  pose proof (SetDomainN_run st Hnd) as Hrun. cbv zeta in Hrun.
  rewrite Hrun. unfold final, ndom in *. cbn [snd mixing alph EW1 EW2 EW3].
  repeat split; solve_len.
Qed.

(** The slices of the four arrays in one domain of a reachable object after
    [SetDomainN]. *)
Lemma SetDomainN_domain (st : PhotALPs_Jet) (k : nat) :
  consistent st -> (k < ndom st)%nat ->
  let st' := final (SetDomainN st) in
  let psi := nth k (Psin (grid st)) 0 in
  let a := nth k (alph (mixing st')) 0 in
  let L := nth k (Lcoh (grid st)) 0 in
  slice (T1 (transfer st')) k = T1_domain psi
  /\ slice (T2 (transfer st')) k = T2_domain psi a
  /\ slice (T3 (transfer st')) k = T3_domain psi a
  /\ slice (Un (transfer st')) k
     = Un_domain (phase_at (nth k (EW1 (mixing st')) 0) L)
                 (phase_at (nth k (EW2 (mixing st')) 0) L)
                 (phase_at (nth k (EW3 (mixing st')) 0) L)
                 (T1_domain psi) (T2_domain psi a) (T3_domain psi a).
Proof.
  intros Hc Hk.
  pose proof (SetDomainN_mixing_lengths st Hc) as (Lal & L1 & L2 & L3).
  pose proof Hc as (Hnd & HL & HB & Hn & Hps & Htop & H12 & H20 & H21 & H22).
  destruct Htop as (H01 & H02 & G00 & G01 & G02 & K00 & K01 & K02).
  pose proof (SetDomainN_final_tables st Hnd) as (_ & HT1 & HT2 & HT3 & HU).
  cbv zeta in *.
  set (st' := final (SetDomainN st)) in *.
  set (N := ndom st) in *.
  assert (Lps : List.length (Psin (grid st)) = N).
  { rewrite Hps. unfold vmap. now rewrite length_map, repeat_length. }
  set (ps := Psin (grid st)) in *.
  set (al := alph (mixing st')) in *.
  assert (Lcs : List.length (vmap cos ps) = N) by (unfold vmap; now rewrite length_map).
  assert (Lsn : List.length (vmap sin ps) = N) by (unfold vmap; now rewrite length_map).
  assert (Lca : List.length (vmap cos al) = N) by (unfold vmap; now rewrite length_map).
  assert (Lsa : List.length (vmap sin al) = N) by (unfold vmap; now rewrite length_map).
  assert (Hcs : nth k (vmap cos ps) 0 = cos (nth k ps 0)) by (apply nth_vmap; lia).
  assert (Hsn : nth k (vmap sin ps) 0 = sin (nth k ps 0)) by (apply nth_vmap; lia).
  assert (Hca : nth k (vmap cos al) 0 = cos (nth k al 0)) by (apply nth_vmap; lia).
  assert (Hsa : nth k (vmap sin al) 0 = sin (nth k al 0)) by (apply nth_vmap; lia).
  assert (Lng : List.length (vscale (-1) (vmap cos ps)) = N)
    by (unfold vscale; now rewrite length_map).
  assert (Hng : nth k (vscale (-1) (vmap cos ps)) 0 = -1 * cos (nth k ps 0)).
  { rewrite nth_vscale by lia. now rewrite Hcs. }
  set (cs := vmap cos ps) in *. set (sn := vmap sin ps) in *.
  set (ca := vmap cos al) in *. set (sa := vmap sin al) in *.
  set (ng := vscale (-1) cs) in *.
  assert (Hmul : forall u v, List.length u = N -> List.length v = N ->
             nth k (vmul u v) 0 = nth k u 0 * nth k v 0).
  { intros u v Hu Hv. apply nth_vmul; lia. }
  assert (Lmul : forall u v, List.length u = N -> List.length v = N ->
             List.length (vmul u v) = N) by (intros; now apply length_vmul).
  assert (Lcast : forall v, List.length v = N -> List.length (vcast v) = N).
  { intros v Hv. unfold vcast. now rewrite length_map. }
  assert (Lz : List.length (repeat C0 N) = N) by apply repeat_length.
  assert (Hz : nth k (repeat C0 N) C0 = C0) by apply nth_repeat.
  rewrite HU, HT1, HT2, HT3. clear HU HT1 HT2 HT3.
  destruct_mat (T1 (transfer st)).
  destruct_mat (T2 (transfer st)).
  destruct_mat (T3 (transfer st)).
  cbn [get set sel upd] in *. subst.
  assert (E1 : List.length (phase (EW1 (mixing st')) (Lcoh (grid st))) = N)
    by (now apply length_phase).
  assert (E2 : List.length (phase (EW2 (mixing st')) (Lcoh (grid st))) = N)
    by (now apply length_phase).
  assert (E3 : List.length (phase (EW3 (mixing st')) (Lcoh (grid st))) = N)
    by (now apply length_phase).
  assert (F1 : nth k (phase (EW1 (mixing st')) (Lcoh (grid st))) C0
               = phase_at (nth k (EW1 (mixing st')) 0) (nth k (Lcoh (grid st)) 0))
    by (apply nth_phase; lia).
  assert (F2 : nth k (phase (EW2 (mixing st')) (Lcoh (grid st))) C0
               = phase_at (nth k (EW2 (mixing st')) 0) (nth k (Lcoh (grid st)) 0))
    by (apply nth_phase; lia).
  assert (F3 : nth k (phase (EW3 (mixing st')) (Lcoh (grid st))) C0
               = phase_at (nth k (EW3 (mixing st')) 0) (nth k (Lcoh (grid st)) 0))
    by (apply nth_phase; lia).
  unfold Un_domain, T1_domain, T2_domain, T3_domain, smul, madd.
  unfold slice, aadd, bmul, mmap, mmap2, rmap, rmap2.
  rewrite !(nth_Un_entry _ _ _ _ _ _ N k) by auto 10.
  rewrite ?Hz, ?nth_vcast.
  rewrite !Hmul by auto 10.
  rewrite ?Hcs, ?Hsn, ?Hca, ?Hsa, ?Hng, ?F1, ?F2, ?F3.
  repeat split.
Qed.

End DomainForm.


(* ------------------------------------------------------------------ *)
(** ** When [SetDomainN] returns *)

Section Returns.

Context {D : DeltasModule}.

(** X9: on a reachable object [SetDomainN] raises [UnboundLocalError]
    exactly when the object has no domain, and returns a matrix exactly when
    it has at least one. *)
Theorem SetDomainN_returns_iff (st : PhotALPs_Jet) :
  reachable st ->
  (outcome (SetDomainN st) = inl (UnboundLocalError "U") <-> ndom st = 0%nat)
  /\ ((exists U, outcome (SetDomainN st) = inr U) <-> (1 <= ndom st)%nat).
Proof.
  intros Hr. pose proof (reachable_consistent st Hr) as Hc.
  pose proof Hc as (Hnd & _).
  assert (Hcase : ndom st = 0%nat \/ (1 <= ndom st)%nat) by lia.
  assert (H0 : ndom st = 0%nat -> outcome (SetDomainN st) = inl (UnboundLocalError "U")).
  { intros Hz. apply SetDomainN_no_domain; [exact Hc|]. unfold ndom in Hz. lia. }
  assert (H1 : (1 <= ndom st)%nat -> exists U, outcome (SetDomainN st) = inr U).
  { intros Hn. eexists. now apply SetDomainN_chain. }
  split; split.
  - intros He. destruct Hcase as [Hz|Hn]; [exact Hz|].
    destruct (H1 Hn) as [U HU]. rewrite HU in He. discriminate He.
  - exact H0.
  - intros [U HU]. destruct Hcase as [Hz|Hn]; [|exact Hn].
    rewrite (H0 Hz) in HU. discriminate HU.
  - exact H1.
Qed.

(** X10: on a reachable object with exactly one domain [SetDomainN] returns
    the propagator of that domain, [Un[:,:,0]]. *)
Theorem SetDomainN_single_domain (st : PhotALPs_Jet) :
  reachable st -> ndom st = 1%nat ->
  outcome (SetDomainN st) = inr (slice (Un (transfer (final (SetDomainN st)))) 0).
Proof.
  intros Hr H1. pose proof (reachable_consistent st Hr) as Hc.
  pose proof Hc as (Hnd & _).
  rewrite (SetDomainN_chain st Hc) by lia.
  unfold domain_propagators. rewrite (SetDomainN_same_grid st Hnd), H1.
  cbn [seq map]. unfold ordered_product. cbn [fold_right].
  now rewrite np_dot_eye_r.
Qed.

(** X11: [SetDomainN] changes neither the configuration nor the grid, and a
    second call on a reachable object returns what the first returned and
    leaves the object as the first left it: the arrays kept from the first
    call do not enter the result. *)
Theorem SetDomainN_repeatable (st : PhotALPs_Jet) :
  reachable st ->
  params (final (SetDomainN st)) = params st
  /\ grid (final (SetDomainN st)) = grid st
  /\ SetDomainN (final (SetDomainN st)) = SetDomainN st.
Proof.
  intros Hr. pose proof (reachable_consistent st Hr) as (Hnd & _).
  pose proof (SetDomainN_run st Hnd) as H1. cbv zeta in H1.
  assert (Hp : params (final (SetDomainN st)) = params st) by (now rewrite H1).
  assert (Hg : grid (final (SetDomainN st)) = grid st) by (now rewrite H1).
  split; [exact Hp|]. split; [exact Hg|].
  assert (Hnd' : (0 <= Nd (grid (final (SetDomainN st))))%Z) by (now rewrite Hg).
  pose proof (SetDomainN_run (final (SetDomainN st)) Hnd') as H2. cbv zeta in H2.
  rewrite Hp, Hg in H2. rewrite H2. clear H2 Hnd' Hp Hg.
  rewrite H1. unfold final. cbn [snd transfer T1 T2 T3].
  destruct_mat (T1 (transfer st)).
  destruct_mat (T2 (transfer st)).
  destruct_mat (T3 (transfer st)).
  cbn [get set sel upd]. reflexivity.
Qed.

End Returns.


(* ------------------------------------------------------------------ *)
(** ** Shapes of matrices kept by the product *)

Ltac mat_entries :=
  repeat match goal with |- (_, _) = (_, _) => apply f_equal2 end.

Lemma decoupled_eye3 : decoupled eye3.
Proof. repeat split. Qed.

Lemma decoupled_np_dot (P Q : Mat3 C) :
  decoupled P -> decoupled Q -> decoupled (np_dot P Q).
Proof.
  intros (P1 & P2 & P3 & P4) (Q1 & Q2 & Q3 & Q4).
  destruct_cmat P. destruct_cmat Q.
  cbn [get sel] in *. unfold C0 in *.
  injection P1 as ? ?. injection P2 as ? ?. injection P3 as ? ?. injection P4 as ? ?.
  injection Q1 as ? ?. injection Q2 as ? ?. injection Q3 as ? ?. injection Q4 as ? ?.
  subst.
  unfold decoupled, np_dot, dot_entry. cbn [get sel].
  unfold Cadd, Cmul, C0. cbn [Re Im].
  repeat split; apply f_equal2; ring.
Qed.

Lemma diagonal_eye3 : diagonal eye3.
Proof. repeat split. Qed.

Lemma diagonal_np_dot (P Q : Mat3 C) :
  diagonal P -> diagonal Q -> diagonal (np_dot P Q).
Proof.
  intros ((P1 & P2 & P3 & P4) & P5 & P6) ((Q1 & Q2 & Q3 & Q4) & Q5 & Q6).
  destruct_cmat P. destruct_cmat Q.
  cbn [get sel] in *. unfold C0 in *.
  injection P1 as ? ?. injection P2 as ? ?. injection P3 as ? ?. injection P4 as ? ?.
  injection P5 as ? ?. injection P6 as ? ?.
  injection Q1 as ? ?. injection Q2 as ? ?. injection Q3 as ? ?. injection Q4 as ? ?.
  injection Q5 as ? ?. injection Q6 as ? ?.
  subst.
  unfold diagonal, decoupled, np_dot, dot_entry. cbn [get sel].
  unfold Cadd, Cmul, C0. cbn [Re Im].
  repeat split; apply f_equal2; ring.
Qed.

Lemma np_dot_eye_l (P : Mat3 C) : np_dot eye3 P = P.
Proof.
  destruct_cmat P.
  unfold np_dot, dot_entry, eye3. cbn [get sel].
  unfold Cadd, Cmul, C0, C1. cbn [Re Im].
  mat_entries; apply f_equal2; ring.
Qed.

Lemma adjoint_np_dot (P Q : Mat3 C) :
  adjoint (np_dot P Q) = np_dot (adjoint Q) (adjoint P).
Proof.
  destruct_cmat P. destruct_cmat Q.
  unfold adjoint, transpose, np_dot, dot_entry, mmap, rmap. cbn [get sel].
  unfold Cconj, Cadd, Cmul. cbn [Re Im].
  mat_entries; apply f_equal2; ring.
Qed.

Lemma unitary_eye3 : unitary eye3 /\ np_dot (adjoint eye3) eye3 = eye3.
Proof.
  unfold unitary, adjoint, transpose, np_dot, dot_entry, eye3, mmap, rmap.
  cbn [get sel]. unfold Cconj, Cadd, Cmul, C0, C1. cbn [Re Im].
  split; mat_entries; apply f_equal2; ring.
Qed.

Lemma unitary_np_dot (P Q : Mat3 C) :
  unitary P -> unitary Q -> unitary (np_dot P Q).
Proof.
  unfold unitary. intros HP HQ.
  rewrite adjoint_np_dot, np_dot_assoc, <- (np_dot_assoc Q), HQ, np_dot_eye_l.
  exact HP.
Qed.

Lemma counitary_np_dot (P Q : Mat3 C) :
  np_dot (adjoint P) P = eye3 -> np_dot (adjoint Q) Q = eye3 ->
  np_dot (adjoint (np_dot P Q)) (np_dot P Q) = eye3.
Proof.
  intros HP HQ.
  rewrite adjoint_np_dot, np_dot_assoc, <- (np_dot_assoc (adjoint P)), HP, np_dot_eye_l.
  exact HQ.
Qed.

Lemma ordered_product_Forall (Q : Mat3 C -> Prop) (l : list (Mat3 C)) :
  Q eye3 -> (forall A B, Q A -> Q B -> Q (np_dot A B)) ->
  Forall Q l -> Q (ordered_product l).
Proof.
  intros He Hd Hl. induction Hl as [|A l HA _ IH].
  - exact He.
  - unfold ordered_product. cbn [fold_right]. now apply Hd.
Qed.

Lemma Forall_domain_propagators (Q : Mat3 C -> Prop) (st : PhotALPs_Jet) :
  (forall k, (k < ndom st)%nat -> Q (slice (Un (transfer st)) k)) ->
  Forall Q (domain_propagators st).
Proof.
  intros H. unfold domain_propagators. apply Forall_map, Forall_forall.
  intros k Hk. apply in_seq in Hk. apply H. lia.
Qed.

(** In one domain. *)
Lemma Un_domain_decoupled (e1 e2 e3 : C) (psi a : R) :
  decoupled (Un_domain e1 e2 e3 (T1_domain psi) (T2_domain psi a) (T3_domain psi a)).
Proof.
  destruct e1, e2, e3.
  unfold decoupled, Un_domain, T1_domain, T2_domain, T3_domain, smul, madd,
         mmap, mmap2, rmap, rmap2. cbn [get sel].
  unfold Cadd, Cmul, of_R, C0. cbn [Re Im].
  repeat split; apply f_equal2; ring.
Qed.

Lemma Un_domain_symmetric (e1 e2 e3 : C) (psi a : R) :
  transpose (Un_domain e1 e2 e3 (T1_domain psi) (T2_domain psi a) (T3_domain psi a))
  = Un_domain e1 e2 e3 (T1_domain psi) (T2_domain psi a) (T3_domain psi a).
Proof. reflexivity. Qed.

Lemma Un_domain_diagonal (e1 e2 e3 : C) (psi : R) :
  diagonal (Un_domain e1 e2 e3 (T1_domain psi) (T2_domain psi 0) (T3_domain psi 0)).
Proof.
  destruct e1, e2, e3.
  unfold diagonal, decoupled, Un_domain, T1_domain, T2_domain, T3_domain, smul, madd,
         mmap, mmap2, rmap, rmap2. cbn [get sel].
  rewrite sin_0, cos_0.
  unfold Cadd, Cmul, of_R, C0. cbn [Re Im].
  repeat split; apply f_equal2; ring.
Qed.

Lemma Cexp_phase_at (e l : R) : phase_at e l = mkC (cos (e * l)) (sin (e * l)).
Proof. apply Cexp_phase. Qed.

Lemma Un_domain_unitary (ew1 ew2 ew3 L a : R) :
  let U := Un_domain (phase_at ew1 L) (phase_at ew2 L) (phase_at ew3 L)
                     (T1_domain 0) (T2_domain 0 a) (T3_domain 0 a) in
  unitary U /\ np_dot (adjoint U) U = eye3.
Proof.
  cbv zeta. rewrite !Cexp_phase_at.
  unfold unitary, adjoint, transpose, np_dot, dot_entry, Un_domain,
         T1_domain, T2_domain, T3_domain, smul, madd, mmap, mmap2, rmap, rmap2, eye3.
  cbn [get sel]. rewrite sin_0, cos_0.
  unfold Cconj, Cadd, Cmul, of_R, C0, C1. cbn [Re Im].
  pose proof (sin2_cos2 (ew1 * L)) as H1.
  pose proof (sin2_cos2 (ew2 * L)) as H2.
  pose proof (sin2_cos2 (ew3 * L)) as H3.
  pose proof (sin2_cos2 a) as Ha. unfold Rsqr in *.
  generalize dependent (cos (ew1 * L)). generalize (sin (ew1 * L)).
  generalize dependent (cos (ew2 * L)). generalize (sin (ew2 * L)).
  generalize dependent (cos (ew3 * L)). generalize (sin (ew3 * L)).
  generalize dependent (cos a). generalize (sin a).
  intros sa ca Ha s3 c3 H3 s2 c2 H2 s1 c1 H1.
  split; mat_entries; apply f_equal2; nsatz.
Qed.

(* ------------------------------------------------------------------ *)
(** ** The returned matrix *)





Lemma rotation_block_shape (x : R) :
  unitary (rotation_block x)
  /\ np_dot (adjoint (rotation_block x)) (rotation_block x) = eye3
  /\ transpose (rotation_block x) = rotation_block x
  /\ decoupled (rotation_block x).
Proof.
  assert (H : forall s c : R, s * s + c * c = 1 ->
    let P := ((of_R 1, C0, C0), (C0, of_R c, j_times s), (C0, j_times s, of_R c)) in
    np_dot P (adjoint P) = eye3 /\ np_dot (adjoint P) P = eye3).
  { intros s c Hsc. cbv zeta.
    unfold adjoint, transpose, np_dot, dot_entry, mmap, rmap, eye3.
    cbn [get sel]. unfold Cconj, Cadd, Cmul, of_R, j_times, C0, C1. cbn [Re Im].
    split; mat_entries; apply f_equal2; try ring;
      (transitivity (s * s + c * c); [ring|exact Hsc]). }
  pose proof (sin2_cos2 x) as Hx. unfold Rsqr in Hx.
  destruct (H (sin x) (cos x) Hx) as [H1 H2].
  split; [exact H1|]. split; [exact H2|]. split; [reflexivity|].
  repeat split.
Qed.

Section Returned.

Context {D : DeltasModule}.

Lemma Psin_entry (st : PhotALPs_Jet) (k : nat) :
  consistent st -> (k < ndom st)%nat -> nth k (Psin (grid st)) 0 = Psi (params st).
Proof.
  intros (_ & _ & _ & _ & Hps & _) Hk. rewrite Hps.
  rewrite (nth_vmap _ _ _ 1) by (rewrite repeat_length; exact Hk).
  rewrite nth_repeat. ring.
Qed.

Lemma SetDomainN_mixing_eq (st : PhotALPs_Jet) :
  (0 <= Nd (grid st))%Z ->
  mixing (final (SetDomainN st)) = mixing (final (__setEW st)).
Proof.
  intros Hnd.
  pose proof (SetDomainN_run st Hnd) as H1. cbv zeta in H1.
  pose proof (setEW_run st Hnd) as H2. cbv zeta in H2.
  rewrite H1, H2. reflexivity.
Qed.

(** The propagator of one domain of a reachable object, with the angle of
    the object in place of the entry of [Psin]. *)
Lemma SetDomainN_propagator (st : PhotALPs_Jet) (k : nat) :
  consistent st -> (k < ndom st)%nat ->
  let st' := final (SetDomainN st) in
  let psi := Psi (params st) in
  let a := nth k (alph (mixing (final (__setEW st)))) 0 in
  let L := nth k (Lcoh (grid st)) 0 in
  slice (Un (transfer st')) k
  = Un_domain (phase_at (nth k (EW1 (mixing st')) 0) L)
              (phase_at (nth k (EW2 (mixing st')) 0) L)
              (phase_at (nth k (EW3 (mixing st')) 0) L)
              (T1_domain psi) (T2_domain psi a) (T3_domain psi a).
Proof.
  intros Hc Hk. pose proof Hc as (Hnd & _).
  pose proof (SetDomainN_domain st k Hc Hk) as (_ & _ & _ & H).
  cbv zeta in *. rewrite H.
  rewrite (Psin_entry st k Hc Hk), (SetDomainN_mixing_eq st Hnd). reflexivity.
Qed.

(** The product of the propagators has every property that the identity
    has, that products keep, and that each propagator has. *)
Lemma SetDomainN_product_has (Q : Mat3 C -> Prop) (st : PhotALPs_Jet) :
  consistent st -> (1 <= ndom st)%nat ->
  Q eye3 -> (forall A B, Q A -> Q B -> Q (np_dot A B)) ->
  (forall k, (k < ndom st)%nat -> Q (slice (Un (transfer (final (SetDomainN st)))) k)) ->
  exists U, outcome (SetDomainN st) = inr U /\ Q U.
Proof.
  intros Hc Hn He Hd Hk. pose proof Hc as (Hnd & _).
  eexists. split; [now apply SetDomainN_chain|].
  apply ordered_product_Forall; [exact He|exact Hd|].
  apply Forall_domain_propagators. intros k Hlt.
  rewrite (SetDomainN_same_grid st Hnd) in Hlt. now apply Hk.
Qed.

(** X12: in every domain of a reachable object, the slices of the three
    projector arrays and of the propagator array left by [SetDomainN] are
    symmetric matrices: every assigned entry below the diagonal is a copy of
    its mirror entry. *)
Theorem domain_arrays_symmetric (st : PhotALPs_Jet) (k : nat) :
  reachable st -> (k < ndom st)%nat ->
  let t := transfer (final (SetDomainN st)) in
  transpose (slice (T1 t) k) = slice (T1 t) k
  /\ transpose (slice (T2 t) k) = slice (T2 t) k
  /\ transpose (slice (T3 t) k) = slice (T3 t) k
  /\ transpose (slice (Un t) k) = slice (Un t) k.
Proof.
  intros Hr Hk.
  pose proof (SetDomainN_domain st k (reachable_consistent st Hr) Hk) as (H1 & H2 & H3 & H4).
  cbv zeta in *. rewrite H1, H2, H3, H4.
  split; [reflexivity|]. split; [reflexivity|]. split; [reflexivity|].
  apply Un_domain_symmetric.
Qed.


(** X14: the matrix that [SetDomainN] returns for a reachable object with
    [Nd >= 1] domains, in each of which [Dpar <> Da], has zeros in the
    entries (0,1), (0,2), (1,0) and (2,0), whatever the angle [Psi]: no
    product of propagators links the first state with the other two.  (The
    condition on [Dpar] and [Da] keeps the division of line 152 within the
    finite numbers, where the reals read it exactly.) *)
Theorem SetDomainN_decoupled (st : PhotALPs_Jet) :
  reachable st -> (1 <= ndom st)%nat ->
  (forall k, (k < ndom st)%nat ->
     nth k (Dpar (mixing (final (__setEW st)))) 0
     <> nth k (Da (mixing (final (__setEW st)))) 0) ->
  exists U, outcome (SetDomainN st) = inr U /\ decoupled U.
Proof.
  intros Hr Hn _. pose proof (reachable_consistent st Hr) as Hc.
  apply SetDomainN_product_has; [exact Hc|exact Hn|exact decoupled_eye3| |].
  - exact decoupled_np_dot.
  - intros k Hk. pose proof (SetDomainN_propagator st k Hc Hk) as HU.
    cbv zeta in HU. rewrite HU. apply Un_domain_decoupled.
Qed.

(** X15: for [Psi = 0] the matrix that [SetDomainN] returns for a reachable
    object with [Nd >= 1] domains, in each of which [Dpar <> Da], is unitary:
    [U U^H = U^H U = 1].  (The condition on [Dpar] and [Da] keeps the
    division of line 152 within the finite numbers.) *)
Theorem SetDomainN_unitary (st : PhotALPs_Jet) :
  reachable st -> Psi (params st) = 0 -> (1 <= ndom st)%nat ->
  (forall k, (k < ndom st)%nat ->
     nth k (Dpar (mixing (final (__setEW st)))) 0
     <> nth k (Da (mixing (final (__setEW st)))) 0) ->
  exists U, outcome (SetDomainN st) = inr U
            /\ unitary U /\ np_dot (adjoint U) U = eye3.
Proof.
  intros Hr Hpsi Hn _. pose proof (reachable_consistent st Hr) as Hc.
  apply (SetDomainN_product_has
           (fun P => unitary P /\ np_dot (adjoint P) P = eye3));
    [exact Hc|exact Hn|exact unitary_eye3| |].
  - intros A B [HA1 HA2] [HB1 HB2].
    split; [now apply unitary_np_dot|now apply counitary_np_dot].
  - intros k Hk. pose proof (SetDomainN_propagator st k Hc Hk) as HU.
    cbv zeta in HU. rewrite HU, Hpsi. apply Un_domain_unitary.
Qed.

Lemma setEW_Dag_entry (st : PhotALPs_Jet) (k : nat) :
  consistent st -> (k < ndom st)%nat ->
  nth k (Dag (mixing (final (__setEW st)))) 0
  = 1e-3 * Delta_ag_kpc (g (params st)) (nth k (Br (grid st)) 0 * 1e6).
Proof.
  intros (Hnd & HL & HB & Hn & _) Hk.
  pose proof (setEW_run st Hnd) as Hrun. cbv zeta in Hrun.
  rewrite Hrun. clear Hrun. unfold final, ndom in *. cbn [snd mixing Dag].
  rewrite nth_vscale by solve_len.
  rewrite (nth_vmap _ _ _ 0) by solve_len.
  unfold vtimes. change (map (fun x : R => x * 1e6)) with (vmap (fun x : R => x * 1e6)).
  rewrite (nth_vmap _ _ _ 0) by lia. reflexivity.
Qed.

(** X16: when the coupling term [Delta_ag_kpc] of the object's [g] is 0 for
    every field, then in a reachable object with [Nd >= 1] domains, in each
    of which [Dpar <> Da], every mixing angle that [SetDomainN] stores is 0
    and the matrix it returns is diagonal: no state converts into another. *)
Theorem SetDomainN_no_coupling (st : PhotALPs_Jet) :
  reachable st -> (1 <= ndom st)%nat ->
  (forall b, Delta_ag_kpc (g (params st)) b = 0) ->
  (forall k, (k < ndom st)%nat ->
     nth k (Dpar (mixing (final (__setEW st)))) 0
     <> nth k (Da (mixing (final (__setEW st)))) 0) ->
  (forall k, (k < ndom st)%nat ->
     nth k (alph (mixing (final (SetDomainN st)))) 0 = 0)
  /\ exists U, outcome (SetDomainN st) = inr U /\ diagonal U.
Proof.
  intros Hr Hn Hg _. pose proof (reachable_consistent st Hr) as Hc.
  pose proof Hc as (Hnd & _).
  assert (Hal : forall k, (k < ndom st)%nat ->
                  nth k (alph (mixing (final (__setEW st)))) 0 = 0).
  { intros k Hk. rewrite (setEW_alph_entry st k Hc Hk).
    rewrite (setEW_Dag_entry st k Hc Hk), Hg.
    replace (2 * (1e-3 * 0) / _) with 0 by (unfold Rdiv; ring).
    rewrite atan_0. ring. }
  split.
  - intros k Hk. rewrite (SetDomainN_mixing_eq st Hnd). now apply Hal.
  - apply SetDomainN_product_has; [exact Hc|exact Hn|exact diagonal_eye3| |].
    + exact diagonal_np_dot.
    + intros k Hk. pose proof (SetDomainN_propagator st k Hc Hk) as HU.
      cbv zeta in HU. rewrite HU, (Hal k Hk). apply Un_domain_diagonal.
Qed.

Lemma analytical_U_run (st : PhotALPs_Jet) :
  analytical_U st = (inr (rotation_block (analytical_phase (params st))), st).
Proof. reflexivity. Qed.

(** X17: for positive radii, [analytical_U] returns a unitary and symmetric
    matrix with zeros in the entries (0,1), (0,2), (1,0) and (2,0), and
    leaves the object as it was.  (Positive radii keep the ratio of line 307
    and its logarithm within the finite numbers.) *)
Theorem analytical_U_unitary (st : PhotALPs_Jet) :
  0 < R_BLR (params st) -> 0 < Rmax (params st) ->
  exists U, analytical_U st = (inr U, st)
            /\ unitary U /\ np_dot (adjoint U) U = eye3
            /\ transpose U = U /\ decoupled U.
Proof.
  intros _ _. rewrite analytical_U_run. eexists. split; [reflexivity|].
  apply rotation_block_shape.
Qed.

(** X18: when the outer radius equals the (positive) reference radius,
    [analytical_U] returns the identity matrix. *)
Theorem analytical_U_equal_radii (st : PhotALPs_Jet) :
  0 < R_BLR (params st) -> Rmax (params st) = R_BLR (params st) ->
  outcome (analytical_U st) = inr eye3.
Proof.
  intros Hpos He. rewrite analytical_U_run. unfold outcome. cbn [fst].
  assert (Hx : analytical_phase (params st) = 0).
  { unfold analytical_phase. rewrite He.
    replace (R_BLR (params st) / R_BLR (params st)) with 1 by (field; lra).
    rewrite ln_1. ring. }
  rewrite Hx. unfold rotation_block. rewrite cos_0, sin_0. reflexivity.
Qed.

End Returned.

(* ------------------------------------------------------------------ *)
(** ** Which configurations give a matrix *)

Lemma domain_count_positive_iff (c : Config) :
  logs_defined c -> 0 < p c ->
  ((1 <= domain_count c)%Z <-> 0 < (Rmax c - R_BLR c) * (1 - sens c)).
Proof.
  intros (Hs0 & Hs1 & Hr & Hm) Hp.
  pose proof (domain_count_bound c) as [Hlo Hhi]. cbv zeta in Hlo, Hhi.
  set (x := -1 * p c * ln (Rmax c / R_BLR c) / ln (sens c)) in *.
  assert (Hx : (1 <= domain_count c)%Z <-> 0 < x).
  { split.
    - intros H. apply IZR_le in H. lra.
    - intros H. assert (H' : 0 < IZR (domain_count c)) by lra.
      apply lt_IZR in H'. lia. }
  rewrite Hx. clear Hx Hlo Hhi.
  assert (Hrho : 0 < Rmax c / R_BLR c).
  { apply Rmult_lt_0_compat; [exact Hm|now apply Rinv_0_lt_compat]. }
  assert (Hln : forall y, 0 < y -> (1 < y -> 0 < ln y) /\ (y < 1 -> ln y < 0)).
  { intros y Hy. split; intros H; rewrite <- ln_1; apply ln_increasing; lra. }
  assert (Hq : Rmax c = Rmax c / R_BLR c * R_BLR c) by (field; lra).
  assert (Hsign : forall a b : R, b <> 0 -> 0 < p c ->
            (0 < -1 * p c * a / b <-> a * b < 0)).
  { intros a b Hb _. unfold Rdiv.
    assert (Hi : / b * b = 1) by (now apply Rinv_l).
    destruct (Rtotal_order b 0) as [Hb0|[Hb0|Hb0]]; [|lra|].
    - assert (Hib : / b < 0) by (now apply Rinv_lt_0_compat).
      split; intros H.
      + destruct (Rtotal_order a 0) as [Ha|[Ha|Ha]].
        * exfalso. assert (0 < p c * (- a) * (- / b)) by
            (apply Rmult_lt_0_compat; [apply Rmult_lt_0_compat|]; lra). lra.
        * subst a. lra.
        * nra.
      + assert (Ha : 0 < a) by nra.
        assert (0 < p c * a * (- / b)) by
          (apply Rmult_lt_0_compat; [apply Rmult_lt_0_compat|]; lra). lra.
    - assert (Hib : 0 < / b) by (now apply Rinv_0_lt_compat).
      split; intros H.
      + destruct (Rtotal_order a 0) as [Ha|[Ha|Ha]].
        * nra.
        * subst a. lra.
        * exfalso. assert (0 < p c * a * / b) by
            (apply Rmult_lt_0_compat; [apply Rmult_lt_0_compat|]; lra). lra.
      + assert (Ha : a < 0) by nra.
        assert (0 < p c * (- a) * / b) by
          (apply Rmult_lt_0_compat; [apply Rmult_lt_0_compat|]; lra). lra. }
  assert (Hls : ln (sens c) <> 0).
  { destruct (Hln (sens c) Hs0) as [H1 H2].
    destruct (Rtotal_order (sens c) 1) as [H|[H|H]]; [specialize (H2 H)|contradiction|
      specialize (H1 H)]; lra. }
  unfold x. rewrite (Hsign _ _ Hls Hp).
  destruct (Hln (sens c) Hs0) as [S1 S2].
  destruct (Hln (Rmax c / R_BLR c) Hrho) as [R1 R2].
  assert (Hd : forall rho, Rmax c = rho * R_BLR c ->
            (rho < 1 -> Rmax c - R_BLR c < 0) /\ (1 < rho -> 0 < Rmax c - R_BLR c)).
  { intros rho ->. split; intros H; nra. }
  destruct (Hd _ Hq) as [D1 D2]. clear Hd Hq Hsign Hln.
  set (d := Rmax c - R_BLR c) in *.
  assert (He : forall e, e = 1 - sens c ->
            (sens c < 1 -> 0 < e) /\ (1 < sens c -> e < 0)) by (intros e ->; lra).
  destruct (He _ eq_refl) as [E1 E2]. clear He.
  set (e := 1 - sens c) in *.
  destruct (Rtotal_order (sens c) 1) as [Hs|[Hs|Hs]]; [|contradiction|];
    destruct (Rtotal_order (Rmax c / R_BLR c) 1) as [Hq1|[Hq1|Hq1]].
  - specialize (S2 Hs). specialize (R2 Hq1). specialize (D1 Hq1). specialize (E1 Hs).
    split; intros H; nra.
  - assert (Hz : d = 0).
    { unfold d. replace (Rmax c) with (Rmax c / R_BLR c * R_BLR c) by (field; lra).
      rewrite Hq1. ring. }
    rewrite Hq1, ln_1, Hz. split; intros H; lra.
  - specialize (S2 Hs). specialize (R1 Hq1). specialize (D2 Hq1). specialize (E1 Hs).
    split; intros H; nra.
  - specialize (S1 Hs). specialize (R2 Hq1). specialize (D1 Hq1). specialize (E2 Hs).
    split; intros H; nra.
  - assert (Hz : d = 0).
    { unfold d. replace (Rmax c) with (Rmax c / R_BLR c * R_BLR c) by (field; lra).
      rewrite Hq1. ring. }
    rewrite Hq1, ln_1, Hz. split; intros H; lra.
  - specialize (S1 Hs). specialize (R1 Hq1). specialize (D2 Hq1). specialize (E2 Hs).
    split; intros H; nra.
Qed.

Section AfterUpdate.

Context {D : DeltasModule}.

(** X19: after an update that returned, on a configuration with defined
    logarithms and [p > 0], [SetDomainN] returns a matrix exactly when
    [(Rmax - R_BLR) * (1 - sens) > 0]: for [Rmax > R_BLR] with [sens < 1],
    and also for [Rmax < R_BLR] with [sens > 1]. *)
Theorem SetDomainN_after_update (kw : kwargs) (st st' : PhotALPs_Jet) :
  logs_defined (dict_update kw (params st)) ->
  0 < p (dict_update kw (params st)) ->
  update_params kw st = (inr tt, st') ->
  ((exists U, outcome (SetDomainN st') = inr U)
   <-> 0 < (Rmax (dict_update kw (params st)) - R_BLR (dict_update kw (params st)))
           * (1 - sens (dict_update kw (params st)))).
Proof.
  intros Hl Hp Hrun.
  rewrite <- (domain_count_positive_iff _ Hl Hp).
  pose proof (update_params_consistent kw st st' Hrun) as Hc.
  pose proof (update_params_inv kw st st' Hrun) as Hnd.
  assert (HN : Nd (grid st') = domain_count (dict_update kw (params st))).
  { pose proof (update_params_ok kw st) as Hok. cbv zeta in Hok.
    rewrite Hok in Hrun by exact Hnd. injection Hrun as <-. reflexivity. }
  rewrite <- HN. split.
  - intros [U HU].
    destruct (Z.eq_dec (Nd (grid st')) 0) as [H0|H0].
    + rewrite (SetDomainN_no_domain st' Hc H0) in HU. discriminate HU.
    + lia.
  - intros H1. eexists. apply SetDomainN_chain; [exact Hc|]. unfold ndom. lia.
Qed.

End AfterUpdate.

(* ------------------------------------------------------------------ *)
(** ** The properties at the example objects *)

Lemma two_domain_updated :
  update_params (defaults two_domain_kwargs) blank = (inr tt, two_domain_jet).
Proof. exact two_domain_init_eq. Qed.

Lemma two_domain_valid_params :
  valid_config (dict_update (defaults two_domain_kwargs) (params blank)).
Proof. rewrite two_domain_params. exact two_domain_valid. Qed.

Lemma two_domain_first :
  (0 < ndom (final (update_params (defaults two_domain_kwargs) blank)))%nat.
Proof. rewrite two_domain_updated. unfold final. cbn [snd]. rewrite two_domain_ndom. lia. Qed.

Lemma two_domain_setEW_mixing :
  mixing (final (__setEW (D := two_domain_deltas) two_domain_jet))
  = mkMixing [0; 0] [0; 0] [0; PI / 2] [- PI; - PI] [0; PI / 8]
      [PI; two_domain_osc] [0; 0]
      [- PI; 0.5 * (- PI - two_domain_osc)] [0; 0.5 * (- PI + two_domain_osc)].
Proof.
  rewrite <- two_domain_mixing. symmetry.
  apply SetDomainN_mixing_eq. rewrite two_domain_Nd. lia.
Qed.

Lemma two_domain_regular (k : nat) :
  (k < ndom two_domain_jet)%nat ->
  nth k (Dpar (mixing (final (__setEW (D := two_domain_deltas) two_domain_jet)))) 0
  <> nth k (Da (mixing (final (__setEW (D := two_domain_deltas) two_domain_jet)))) 0.
Proof.
  rewrite two_domain_ndom, two_domain_setEW_mixing. intros Hk.
  pose proof PI_RGT_0 as Hpi. cbn [Dpar Da].
  destruct k as [|[|k]]; [cbn [nth]; lra|cbn [nth]; lra|lia].
Qed.

Lemma uncoupled_vectors :
  Dpar (mixing (final (__setEW (D := uncoupled_deltas) two_domain_jet))) = [0; 0]
  /\ Da (mixing (final (__setEW (D := uncoupled_deltas) two_domain_jet))) = [-1; -1].
Proof.
  assert (Hnd : (0 <= Nd (grid two_domain_jet))%Z) by (rewrite two_domain_Nd; lia).
  pose proof (setEW_run (D := uncoupled_deltas) two_domain_jet Hnd) as Hrun.
  cbv zeta in Hrun. rewrite Hrun. clear Hrun.
  unfold final. cbn [snd mixing Dpar Da].
  rewrite two_domain_jet_eq.
  cbn [grid params Nd]. change (Z.to_nat 2) with 2%nat.
  vec_eval. cbn [uncoupled_deltas Delta_pl_kpc Delta_QED_kpc Delta_a_kpc].
  split; repeat (f_equal; try lra).
Qed.

Lemma uncoupled_regular (k : nat) :
  (k < ndom two_domain_jet)%nat ->
  nth k (Dpar (mixing (final (__setEW (D := uncoupled_deltas) two_domain_jet)))) 0
  <> nth k (Da (mixing (final (__setEW (D := uncoupled_deltas) two_domain_jet)))) 0.
Proof.
  destruct uncoupled_vectors as [-> ->]. rewrite two_domain_ndom. intros Hk.
  destruct k as [|[|k]]; [cbn [nth]; lra|cbn [nth]; lra|lia].
Qed.

Lemma coarse_init_eq : __init__ coarse_kwargs = (inr tt, coarse_jet).
Proof.
  unfold coarse_jet, __init__.
  pose proof (update_params_ok (defaults coarse_kwargs) blank) as H.
  cbv zeta in H. rewrite coarse_params, coarse_count in H.
  rewrite H by lia. reflexivity.
Qed.

Lemma coarse_ndom : ndom coarse_jet = 1%nat.
Proof.
  unfold coarse_jet, __init__.
  pose proof (update_params_ok (defaults coarse_kwargs) blank) as H.
  cbv zeta in H. rewrite coarse_params, coarse_count in H.
  rewrite H by lia. reflexivity.
Qed.

Lemma coarse_reachable {D : DeltasModule} : reachable coarse_jet.
Proof.
  apply (reach_init coarse_kwargs coarse_jet); [|exact coarse_init_eq].
  unfold logs_defined. simpl. lra.
Qed.

Lemma two_domain_radii_pos :
  0 < R_BLR (params two_domain_jet) /\ 0 < Rmax (params two_domain_jet).
Proof. rewrite two_domain_jet_eq. cbn [params R_BLR Rmax two_domain_config]. lra. Qed.

Lemma degenerate_jet_radii :
  0 < R_BLR (params degenerate_jet)
  /\ Rmax (params degenerate_jet) = R_BLR (params degenerate_jet).
Proof.
  unfold degenerate_jet, __init__. rewrite update_params_params, degenerate_params.
  cbn [R_BLR Rmax degenerate_config]. split; [lra|reflexivity].
Qed.

Lemma domain_count_reaches_Rmax_witness :
  valid_config (dict_update (defaults two_domain_kwargs) (params blank))
  /\ (let c := dict_update (defaults two_domain_kwargs) (params blank) in
      let nd := Nd (grid (final (update_params (defaults two_domain_kwargs) blank))) in
      (1 <= nd)%Z
      /\ Rmax c <= R_BLR c * np_power (sens c) (- IZR nd / p c)
      /\ R_BLR c * np_power (sens c) (- (IZR nd - 1) / p c) < Rmax c).
Proof.
  split; [exact two_domain_valid_params|].
  exact (domain_count_reaches_Rmax (defaults two_domain_kwargs) blank
           two_domain_valid_params).
Defined.

Lemma coherence_lengths_progression_witness :
  valid_config (dict_update (defaults two_domain_kwargs) (params blank))
  /\ (0 < ndom (final (update_params (defaults two_domain_kwargs) blank)))%nat
  /\ (let c := dict_update (defaults two_domain_kwargs) (params blank) in
      let lc := Lcoh (grid (final (update_params (defaults two_domain_kwargs) blank))) in
      List.length lc = ndom (final (update_params (defaults two_domain_kwargs) blank))
      /\ nth 0 lc 0 = R_BLR c * np_power (sens c) (- 1 / p c) * (1 - sens c)
      /\ 0 < nth 0 lc 0
      /\ ((1 < ndom (final (update_params (defaults two_domain_kwargs) blank)))%nat ->
          nth 1 lc 0 = nth 0 lc 0 * np_power (sens c) (- 1 / p c)
          /\ nth 0 lc 0 < nth 1 lc 0)).
Proof.
  split; [exact two_domain_valid_params|]. split; [exact two_domain_first|].
  exact (coherence_lengths_progression (defaults two_domain_kwargs) blank 0
           two_domain_valid_params two_domain_first).
Defined.

Lemma radial_profiles_witness :
  valid_config (dict_update (defaults two_domain_kwargs) (params blank))
  /\ (0 < ndom (final (update_params (defaults two_domain_kwargs) blank)))%nat
  /\ (let c := dict_update (defaults two_domain_kwargs) (params blank) in
      let gr := grid (final (update_params (defaults two_domain_kwargs) blank)) in
      (nth 0 (r gr) 0 = R_BLR c /\ nth 0 (Br gr) 0 = B c /\ nth 0 (nr gr) 0 = n c)
      /\ R_BLR c <= nth 0 (r gr) 0
      /\ nth 0 (r gr) 0 <= R_BLR c * np_power (sens c) (- IZR (Nd gr) / p c)
      /\ ((1 < ndom (final (update_params (defaults two_domain_kwargs) blank)))%nat ->
          nth 0 (r gr) 0 < nth 1 (r gr) 0)
      /\ (0 < B c ->
          0 < nth 0 (Br gr) 0
          /\ ((1 < ndom (final (update_params (defaults two_domain_kwargs) blank)))%nat ->
              nth 1 (Br gr) 0 < nth 0 (Br gr) 0))).
Proof.
  split; [exact two_domain_valid_params|]. split; [exact two_domain_first|].
  exact (radial_profiles (defaults two_domain_kwargs) blank 0
           two_domain_valid_params two_domain_first).
Defined.

Lemma eigenvalues_trace_determinant_witness :
  reachable (D := two_domain_deltas) two_domain_jet
  /\ (1 < ndom two_domain_jet)%nat
  /\ (let mx := mixing (final (__setEW (D := two_domain_deltas) two_domain_jet)) in
      nth 1 (EW1 mx) 0 = nth 1 (Dperp mx) 0
      /\ nth 1 (EW2 mx) 0 + nth 1 (EW3 mx) 0 = nth 1 (Dpar mx) 0 + nth 1 (Da mx) 0
      /\ nth 1 (EW3 mx) 0 - nth 1 (EW2 mx) 0 = nth 1 (Dosc mx) 0
      /\ nth 1 (EW2 mx) 0 * nth 1 (EW3 mx) 0
         = nth 1 (Dpar mx) 0 * nth 1 (Da mx) 0 - nth 1 (Dag mx) 0 ^ 2).
Proof.
  assert (Hk : (1 < ndom two_domain_jet)%nat) by (rewrite two_domain_ndom; lia).
  split; [exact two_domain_reachable|]. split; [exact Hk|].
  exact (eigenvalues_trace_determinant (D := two_domain_deltas) two_domain_jet 1
           two_domain_reachable Hk).
Defined.

Lemma mixing_angle_range_witness :
  reachable (D := two_domain_deltas) two_domain_jet
  /\ (1 < ndom two_domain_jet)%nat
  /\ (let mx := mixing (final (__setEW (D := two_domain_deltas) two_domain_jet)) in
      nth 1 (Dpar mx) 0 <> nth 1 (Da mx) 0
      /\ - (PI / 4) < nth 1 (alph mx) 0 < PI / 4
      /\ tan (2 * nth 1 (alph mx) 0)
         = 2 * nth 1 (Dag mx) 0 / (nth 1 (Dpar mx) 0 - nth 1 (Da mx) 0)).
Proof.
  assert (Hk : (1 < ndom two_domain_jet)%nat) by (rewrite two_domain_ndom; lia).
  split; [exact two_domain_reachable|]. split; [exact Hk|].
  cbv zeta. split; [exact (two_domain_regular 1 Hk)|].
  pose proof (mixing_angle_range (D := two_domain_deltas) two_domain_jet 1
                two_domain_reachable Hk (two_domain_regular 1 Hk)) as (H1 & H2 & _).
  split; [exact H1|exact H2].
Defined.

Lemma SetDomainN_returns_iff_witness :
  reachable (D := two_domain_deltas) two_domain_jet
  /\ (outcome (SetDomainN (D := two_domain_deltas) two_domain_jet)
        = inl (UnboundLocalError "U") <-> ndom two_domain_jet = 0%nat)
  /\ ((exists U, outcome (SetDomainN (D := two_domain_deltas) two_domain_jet) = inr U)
      <-> (1 <= ndom two_domain_jet)%nat).
Proof.
  split; [exact two_domain_reachable|].
  exact (SetDomainN_returns_iff (D := two_domain_deltas) two_domain_jet
           two_domain_reachable).
Defined.

Lemma SetDomainN_single_domain_witness :
  reachable (D := two_domain_deltas) coarse_jet
  /\ ndom coarse_jet = 1%nat
  /\ outcome (SetDomainN (D := two_domain_deltas) coarse_jet)
     = inr (slice (Un (transfer (final (SetDomainN (D := two_domain_deltas)
                                          coarse_jet)))) 0).
Proof.
  split; [exact coarse_reachable|]. split; [exact coarse_ndom|].
  exact (SetDomainN_single_domain (D := two_domain_deltas) coarse_jet
           coarse_reachable coarse_ndom).
Defined.

Lemma SetDomainN_repeatable_witness :
  reachable (D := two_domain_deltas) two_domain_jet
  /\ params (final (SetDomainN (D := two_domain_deltas) two_domain_jet))
     = params two_domain_jet
  /\ grid (final (SetDomainN (D := two_domain_deltas) two_domain_jet))
     = grid two_domain_jet
  /\ SetDomainN (D := two_domain_deltas)
       (final (SetDomainN (D := two_domain_deltas) two_domain_jet))
     = SetDomainN (D := two_domain_deltas) two_domain_jet.
Proof.
  split; [exact two_domain_reachable|].
  exact (SetDomainN_repeatable (D := two_domain_deltas) two_domain_jet
           two_domain_reachable).
Defined.

Lemma domain_arrays_symmetric_witness :
  reachable (D := two_domain_deltas) two_domain_jet
  /\ (1 < ndom two_domain_jet)%nat
  /\ (let t := transfer (final (SetDomainN (D := two_domain_deltas) two_domain_jet)) in
      transpose (slice (T1 t) 1) = slice (T1 t) 1
      /\ transpose (slice (T2 t) 1) = slice (T2 t) 1
      /\ transpose (slice (T3 t) 1) = slice (T3 t) 1
      /\ transpose (slice (Un t) 1) = slice (Un t) 1).
Proof.
  assert (Hk : (1 < ndom two_domain_jet)%nat) by (rewrite two_domain_ndom; lia).
  split; [exact two_domain_reachable|]. split; [exact Hk|].
  exact (domain_arrays_symmetric (D := two_domain_deltas) two_domain_jet 1
           two_domain_reachable Hk).
Defined.


Lemma SetDomainN_decoupled_witness :
  reachable (D := two_domain_deltas) two_domain_jet
  /\ (1 <= ndom two_domain_jet)%nat
  /\ exists U, outcome (SetDomainN (D := two_domain_deltas) two_domain_jet) = inr U
               /\ decoupled U.
Proof.
  assert (Hn : (1 <= ndom two_domain_jet)%nat) by (rewrite two_domain_ndom; lia).
  split; [exact two_domain_reachable|]. split; [exact Hn|].
  exact (SetDomainN_decoupled (D := two_domain_deltas) two_domain_jet
           two_domain_reachable Hn two_domain_regular).
Defined.

Lemma SetDomainN_unitary_witness :
  reachable (D := two_domain_deltas) two_domain_jet
  /\ Psi (params two_domain_jet) = 0
  /\ (1 <= ndom two_domain_jet)%nat
  /\ exists U, outcome (SetDomainN (D := two_domain_deltas) two_domain_jet) = inr U
               /\ unitary U /\ np_dot (adjoint U) U = eye3.
Proof.
  assert (Hn : (1 <= ndom two_domain_jet)%nat) by (rewrite two_domain_ndom; lia).
  split; [exact two_domain_reachable|]. split; [exact two_domain_Psi|].
  split; [exact Hn|].
  exact (SetDomainN_unitary (D := two_domain_deltas) two_domain_jet
           two_domain_reachable two_domain_Psi Hn two_domain_regular).
Defined.

Lemma SetDomainN_no_coupling_witness :
  reachable (D := uncoupled_deltas) two_domain_jet
  /\ (1 <= ndom two_domain_jet)%nat
  /\ nth 1 (alph (mixing (final (SetDomainN (D := uncoupled_deltas) two_domain_jet)))) 0
     = 0
  /\ exists U, outcome (SetDomainN (D := uncoupled_deltas) two_domain_jet) = inr U
               /\ diagonal U.
Proof.
  assert (Hn : (1 <= ndom two_domain_jet)%nat) by (rewrite two_domain_ndom; lia).
  assert (Hk : (1 < ndom two_domain_jet)%nat) by (rewrite two_domain_ndom; lia).
  assert (Hg : forall b, Delta_ag_kpc (DeltasModule := uncoupled_deltas)
                           (g (params two_domain_jet)) b = 0)
    by (intros b; reflexivity).
  split; [exact two_domain_reachable|]. split; [exact Hn|].
  destruct (SetDomainN_no_coupling (D := uncoupled_deltas) two_domain_jet
              two_domain_reachable Hn Hg uncoupled_regular) as [Ha HU].
  split; [exact (Ha 1%nat Hk)|exact HU].
Defined.

Lemma analytical_U_unitary_witness :
  0 < R_BLR (params two_domain_jet) /\ 0 < Rmax (params two_domain_jet)
  /\ exists U, analytical_U (D := two_domain_deltas) two_domain_jet
               = (inr U, two_domain_jet)
               /\ unitary U /\ np_dot (adjoint U) U = eye3
               /\ transpose U = U /\ decoupled U.
Proof.
  destruct two_domain_radii_pos as [H1 H2].
  split; [exact H1|]. split; [exact H2|].
  exact (analytical_U_unitary (D := two_domain_deltas) two_domain_jet H1 H2).
Defined.

Lemma analytical_U_equal_radii_witness :
  0 < R_BLR (params degenerate_jet)
  /\ Rmax (params degenerate_jet) = R_BLR (params degenerate_jet)
  /\ outcome (analytical_U (D := two_domain_deltas) degenerate_jet) = inr eye3.
Proof.
  destruct degenerate_jet_radii as [H1 H2].
  split; [exact H1|]. split; [exact H2|].
  exact (analytical_U_equal_radii (D := two_domain_deltas) degenerate_jet H1 H2).
Defined.

Lemma SetDomainN_after_update_witness :
  logs_defined (dict_update (defaults two_domain_kwargs) (params blank))
  /\ 0 < p (dict_update (defaults two_domain_kwargs) (params blank))
  /\ update_params (defaults two_domain_kwargs) blank = (inr tt, two_domain_jet)
  /\ ((exists U, outcome (SetDomainN (D := two_domain_deltas) two_domain_jet) = inr U)
      <-> 0 < (Rmax (dict_update (defaults two_domain_kwargs) (params blank))
               - R_BLR (dict_update (defaults two_domain_kwargs) (params blank)))
              * (1 - sens (dict_update (defaults two_domain_kwargs) (params blank)))).
Proof.
  assert (Hp : 0 < p (dict_update (defaults two_domain_kwargs) (params blank))).
  { rewrite two_domain_params. cbn [p two_domain_config]. lra. }
  split; [exact two_domain_logs|]. split; [exact Hp|].
  split; [exact two_domain_updated|].
  exact (SetDomainN_after_update (D := two_domain_deltas) (defaults two_domain_kwargs)
           blank two_domain_jet two_domain_logs Hp two_domain_updated).
Defined.

